(** * Hybrid RAG over the Medicines Information Dataset: a shallow embedding

    The development follows [Hybrid RAG/hybridRAG.py].

    - A Python [str] is modelled by [str], the list of its code points
      (numbers up to 0x10FFFF).  [str.lower] follows the case mapping of the
      Unicode character database, given here as data: it lengthens U+0130,
      whose lower-case form has two code points, and chooses between the two
      small sigmas by the Final_Sigma rule.  [str.strip] removes the code
      points for which [str.isspace] holds.  Text constants are written as
      ASCII literals and read by [u].
    - The external services (Ollama, SQLite through pandas, ChromaDB) are
      collaborators.  A program is a tree of collaborator calls ([prog]);
      it is run against an arbitrary handler over an arbitrary world, so
      that what is proved of a program holds whatever the services answer.
    - An exception is a value ([Err], [Raise]); [try]/[except] and
      [try]/[finally] are combinators on programs.
    - A run keeps a log of the lines printed and the calls made, and can be
      taken one call at a time ([step]), which is how a concurrent observer
      of the vector index is modelled. *)

From Stdlib Require Import String Ascii List NArith ZArith Lia Bool Arith.
From Stdlib Require Import Sorted Permutation.
From Stdlib Require Import DecimalString DecimalNat.
Import ListNotations.

Open Scope string_scope.
Open Scope nat_scope.
Open Scope list_scope.

(* ================================================================= *)
(** ** Python string operations *)

Module PyStr.

(** A text: its code points, in order. *)
Definition str : Type := list N.

(** The text of an ASCII literal. *)
Definition u (s : string) : str := map N_of_ascii (list_ascii_of_string s).

Definition between (lo hi c : N) : bool := (lo <=? c)%N && (c <=? hi)%N.

Fixpoint str_eqb (a b : str) : bool :=
  match a, b with
  | [], [] => true
  | x :: a', y :: b' => (x =? y)%N && str_eqb a' b'
  | _, _ => false
  end.

(** *** Case data *)

(** The simple lower-case mapping of the Unicode character database
    (version 14.0.0, as CPython 3.11 ships it), in runs: the code points
    [first], [first + step], ... up to [last] map to [image],
    [image + step], ...  U+0130 is not listed: its lower-case form has two
    code points. *)
Definition lower_runs : list (N * N * N * N) :=
  [ (65, 90, 1, 97); (192, 214, 1, 224); (216, 222, 1, 248); (256, 302, 2, 257);
    (306, 310, 2, 307); (313, 327, 2, 314); (330, 374, 2, 331); (376, 376, 1, 255);
    (377, 381, 2, 378); (385, 385, 1, 595); (386, 388, 2, 387); (390, 390, 1, 596);
    (391, 391, 1, 392); (393, 394, 1, 598); (395, 395, 1, 396); (398, 398, 1, 477);
    (399, 399, 1, 601); (400, 400, 1, 603); (401, 401, 1, 402); (403, 403, 1, 608);
    (404, 404, 1, 611); (406, 406, 1, 617); (407, 407, 1, 616); (408, 408, 1, 409);
    (412, 412, 1, 623); (413, 413, 1, 626); (415, 415, 1, 629); (416, 420, 2, 417);
    (422, 422, 1, 640); (423, 423, 1, 424); (425, 425, 1, 643); (428, 428, 1, 429);
    (430, 430, 1, 648); (431, 431, 1, 432); (433, 434, 1, 650); (435, 437, 2, 436);
    (439, 439, 1, 658); (440, 440, 1, 441); (444, 444, 1, 445); (452, 452, 1, 454);
    (453, 453, 1, 454); (455, 455, 1, 457); (456, 456, 1, 457); (458, 458, 1, 460);
    (459, 475, 2, 460); (478, 494, 2, 479); (497, 497, 1, 499); (498, 500, 2, 499);
    (502, 502, 1, 405); (503, 503, 1, 447); (504, 542, 2, 505); (544, 544, 1, 414);
    (546, 562, 2, 547); (570, 570, 1, 11365); (571, 571, 1, 572); (573, 573, 1, 410);
    (574, 574, 1, 11366); (577, 577, 1, 578); (579, 579, 1, 384); (580, 580, 1, 649);
    (581, 581, 1, 652); (582, 590, 2, 583); (880, 882, 2, 881); (886, 886, 1, 887);
    (895, 895, 1, 1011); (902, 902, 1, 940); (904, 906, 1, 941); (908, 908, 1, 972);
    (910, 911, 1, 973); (913, 929, 1, 945); (931, 939, 1, 963); (975, 975, 1, 983);
    (984, 1006, 2, 985); (1012, 1012, 1, 952); (1015, 1015, 1, 1016); (1017, 1017, 1, 1010);
    (1018, 1018, 1, 1019); (1021, 1023, 1, 891); (1024, 1039, 1, 1104); (1040, 1071, 1, 1072);
    (1120, 1152, 2, 1121); (1162, 1214, 2, 1163); (1216, 1216, 1, 1231); (1217, 1229, 2, 1218);
    (1232, 1326, 2, 1233); (1329, 1366, 1, 1377); (4256, 4293, 1, 11520); (4295, 4295, 1, 11559);
    (4301, 4301, 1, 11565); (5024, 5103, 1, 43888); (5104, 5109, 1, 5112); (7312, 7354, 1, 4304);
    (7357, 7359, 1, 4349); (7680, 7828, 2, 7681); (7838, 7838, 1, 223); (7840, 7934, 2, 7841);
    (7944, 7951, 1, 7936); (7960, 7965, 1, 7952); (7976, 7983, 1, 7968); (7992, 7999, 1, 7984);
    (8008, 8013, 1, 8000); (8025, 8031, 2, 8017); (8040, 8047, 1, 8032); (8072, 8079, 1, 8064);
    (8088, 8095, 1, 8080); (8104, 8111, 1, 8096); (8120, 8121, 1, 8112); (8122, 8123, 1, 8048);
    (8124, 8124, 1, 8115); (8136, 8139, 1, 8050); (8140, 8140, 1, 8131); (8152, 8153, 1, 8144);
    (8154, 8155, 1, 8054); (8168, 8169, 1, 8160); (8170, 8171, 1, 8058); (8172, 8172, 1, 8165);
    (8184, 8185, 1, 8056); (8186, 8187, 1, 8060); (8188, 8188, 1, 8179); (8486, 8486, 1, 969);
    (8490, 8490, 1, 107); (8491, 8491, 1, 229); (8498, 8498, 1, 8526); (8544, 8559, 1, 8560);
    (8579, 8579, 1, 8580); (9398, 9423, 1, 9424); (11264, 11311, 1, 11312); (11360, 11360, 1, 11361);
    (11362, 11362, 1, 619); (11363, 11363, 1, 7549); (11364, 11364, 1, 637); (11367, 11371, 2, 11368);
    (11373, 11373, 1, 593); (11374, 11374, 1, 625); (11375, 11375, 1, 592); (11376, 11376, 1, 594);
    (11378, 11378, 1, 11379); (11381, 11381, 1, 11382); (11390, 11391, 1, 575); (11392, 11490, 2, 11393);
    (11499, 11501, 2, 11500); (11506, 11506, 1, 11507); (42560, 42604, 2, 42561); (42624, 42650, 2, 42625);
    (42786, 42798, 2, 42787); (42802, 42862, 2, 42803); (42873, 42875, 2, 42874); (42877, 42877, 1, 7545);
    (42878, 42886, 2, 42879); (42891, 42891, 1, 42892); (42893, 42893, 1, 613); (42896, 42898, 2, 42897);
    (42902, 42920, 2, 42903); (42922, 42922, 1, 614); (42923, 42923, 1, 604); (42924, 42924, 1, 609);
    (42925, 42925, 1, 620); (42926, 42926, 1, 618); (42928, 42928, 1, 670); (42929, 42929, 1, 647);
    (42930, 42930, 1, 669); (42931, 42931, 1, 43859); (42932, 42946, 2, 42933); (42948, 42948, 1, 42900);
    (42949, 42949, 1, 642); (42950, 42950, 1, 7566); (42951, 42953, 2, 42952); (42960, 42960, 1, 42961);
    (42966, 42968, 2, 42967); (42997, 42997, 1, 42998); (65313, 65338, 1, 65345); (66560, 66599, 1, 66600);
    (66736, 66771, 1, 66776); (66928, 66938, 1, 66967); (66940, 66954, 1, 66979); (66956, 66962, 1, 66995);
    (66964, 66965, 1, 67003); (68736, 68786, 1, 68800); (71840, 71871, 1, 71872); (93760, 93791, 1, 93792);
    (125184, 125217, 1, 125218) ]%N.

(** The code points with the property Case_Ignorable, as inclusive
    ranges. *)
Definition case_ignorable_ranges : list (N * N) :=
  [ (39, 39); (46, 46); (58, 58); (94, 94); (96, 96); (168, 168);
    (173, 173); (175, 175); (180, 180); (183, 184); (688, 879); (884, 885);
    (890, 890); (900, 901); (903, 903); (1155, 1161); (1369, 1369); (1375, 1375);
    (1425, 1469); (1471, 1471); (1473, 1474); (1476, 1477); (1479, 1479); (1524, 1524);
    (1536, 1541); (1552, 1562); (1564, 1564); (1600, 1600); (1611, 1631); (1648, 1648);
    (1750, 1757); (1759, 1768); (1770, 1773); (1807, 1807); (1809, 1809); (1840, 1866);
    (1958, 1968); (2027, 2037); (2042, 2042); (2045, 2045); (2070, 2093); (2137, 2139);
    (2184, 2184); (2192, 2193); (2200, 2207); (2249, 2306); (2362, 2362); (2364, 2364);
    (2369, 2376); (2381, 2381); (2385, 2391); (2402, 2403); (2417, 2417); (2433, 2433);
    (2492, 2492); (2497, 2500); (2509, 2509); (2530, 2531); (2558, 2558); (2561, 2562);
    (2620, 2620); (2625, 2626); (2631, 2632); (2635, 2637); (2641, 2641); (2672, 2673);
    (2677, 2677); (2689, 2690); (2748, 2748); (2753, 2757); (2759, 2760); (2765, 2765);
    (2786, 2787); (2810, 2815); (2817, 2817); (2876, 2876); (2879, 2879); (2881, 2884);
    (2893, 2893); (2901, 2902); (2914, 2915); (2946, 2946); (3008, 3008); (3021, 3021);
    (3072, 3072); (3076, 3076); (3132, 3132); (3134, 3136); (3142, 3144); (3146, 3149);
    (3157, 3158); (3170, 3171); (3201, 3201); (3260, 3260); (3263, 3263); (3270, 3270);
    (3276, 3277); (3298, 3299); (3328, 3329); (3387, 3388); (3393, 3396); (3405, 3405);
    (3426, 3427); (3457, 3457); (3530, 3530); (3538, 3540); (3542, 3542); (3633, 3633);
    (3636, 3642); (3654, 3662); (3761, 3761); (3764, 3772); (3782, 3782); (3784, 3789);
    (3864, 3865); (3893, 3893); (3895, 3895); (3897, 3897); (3953, 3966); (3968, 3972);
    (3974, 3975); (3981, 3991); (3993, 4028); (4038, 4038); (4141, 4144); (4146, 4151);
    (4153, 4154); (4157, 4158); (4184, 4185); (4190, 4192); (4209, 4212); (4226, 4226);
    (4229, 4230); (4237, 4237); (4253, 4253); (4348, 4348); (4957, 4959); (5906, 5908);
    (5938, 5939); (5970, 5971); (6002, 6003); (6068, 6069); (6071, 6077); (6086, 6086);
    (6089, 6099); (6103, 6103); (6109, 6109); (6155, 6159); (6211, 6211); (6277, 6278);
    (6313, 6313); (6432, 6434); (6439, 6440); (6450, 6450); (6457, 6459); (6679, 6680);
    (6683, 6683); (6742, 6742); (6744, 6750); (6752, 6752); (6754, 6754); (6757, 6764);
    (6771, 6780); (6783, 6783); (6823, 6823); (6832, 6862); (6912, 6915); (6964, 6964);
    (6966, 6970); (6972, 6972); (6978, 6978); (7019, 7027); (7040, 7041); (7074, 7077);
    (7080, 7081); (7083, 7085); (7142, 7142); (7144, 7145); (7149, 7149); (7151, 7153);
    (7212, 7219); (7222, 7223); (7288, 7293); (7376, 7378); (7380, 7392); (7394, 7400);
    (7405, 7405); (7412, 7412); (7416, 7417); (7468, 7530); (7544, 7544); (7579, 7679);
    (8125, 8125); (8127, 8129); (8141, 8143); (8157, 8159); (8173, 8175); (8189, 8190);
    (8203, 8207); (8216, 8217); (8228, 8228); (8231, 8231); (8234, 8238); (8288, 8292);
    (8294, 8303); (8305, 8305); (8319, 8319); (8336, 8348); (8400, 8432); (11388, 11389);
    (11503, 11505); (11631, 11631); (11647, 11647); (11744, 11775); (11823, 11823); (12293, 12293);
    (12330, 12333); (12337, 12341); (12347, 12347); (12441, 12446); (12540, 12542); (40981, 40981);
    (42232, 42237); (42508, 42508); (42607, 42610); (42612, 42621); (42623, 42623); (42652, 42655);
    (42736, 42737); (42752, 42785); (42864, 42864); (42888, 42890); (42994, 42996); (43000, 43001);
    (43010, 43010); (43014, 43014); (43019, 43019); (43045, 43046); (43052, 43052); (43204, 43205);
    (43232, 43249); (43263, 43263); (43302, 43309); (43335, 43345); (43392, 43394); (43443, 43443);
    (43446, 43449); (43452, 43453); (43471, 43471); (43493, 43494); (43561, 43566); (43569, 43570);
    (43573, 43574); (43587, 43587); (43596, 43596); (43632, 43632); (43644, 43644); (43696, 43696);
    (43698, 43700); (43703, 43704); (43710, 43711); (43713, 43713); (43741, 43741); (43756, 43757);
    (43763, 43764); (43766, 43766); (43867, 43871); (43881, 43883); (44005, 44005); (44008, 44008);
    (44013, 44013); (64286, 64286); (64434, 64450); (65024, 65039); (65043, 65043); (65056, 65071);
    (65106, 65106); (65109, 65109); (65279, 65279); (65287, 65287); (65294, 65294); (65306, 65306);
    (65342, 65342); (65344, 65344); (65392, 65392); (65438, 65439); (65507, 65507); (65529, 65531);
    (66045, 66045); (66272, 66272); (66422, 66426); (67456, 67461); (67463, 67504); (67506, 67514);
    (68097, 68099); (68101, 68102); (68108, 68111); (68152, 68154); (68159, 68159); (68325, 68326);
    (68900, 68903); (69291, 69292); (69446, 69456); (69506, 69509); (69633, 69633); (69688, 69702);
    (69744, 69744); (69747, 69748); (69759, 69761); (69811, 69814); (69817, 69818); (69821, 69821);
    (69826, 69826); (69837, 69837); (69888, 69890); (69927, 69931); (69933, 69940); (70003, 70003);
    (70016, 70017); (70070, 70078); (70089, 70092); (70095, 70095); (70191, 70193); (70196, 70196);
    (70198, 70199); (70206, 70206); (70367, 70367); (70371, 70378); (70400, 70401); (70459, 70460);
    (70464, 70464); (70502, 70508); (70512, 70516); (70712, 70719); (70722, 70724); (70726, 70726);
    (70750, 70750); (70835, 70840); (70842, 70842); (70847, 70848); (70850, 70851); (71090, 71093);
    (71100, 71101); (71103, 71104); (71132, 71133); (71219, 71226); (71229, 71229); (71231, 71232);
    (71339, 71339); (71341, 71341); (71344, 71349); (71351, 71351); (71453, 71455); (71458, 71461);
    (71463, 71467); (71727, 71735); (71737, 71738); (71995, 71996); (71998, 71998); (72003, 72003);
    (72148, 72151); (72154, 72155); (72160, 72160); (72193, 72202); (72243, 72248); (72251, 72254);
    (72263, 72263); (72273, 72278); (72281, 72283); (72330, 72342); (72344, 72345); (72752, 72758);
    (72760, 72765); (72767, 72767); (72850, 72871); (72874, 72880); (72882, 72883); (72885, 72886);
    (73009, 73014); (73018, 73018); (73020, 73021); (73023, 73029); (73031, 73031); (73104, 73105);
    (73109, 73109); (73111, 73111); (73459, 73460); (78896, 78904); (92912, 92916); (92976, 92982);
    (92992, 92995); (94031, 94031); (94095, 94111); (94176, 94177); (94179, 94180); (110576, 110579);
    (110581, 110587); (110589, 110590); (113821, 113822); (113824, 113827); (118528, 118573); (118576, 118598);
    (119143, 119145); (119155, 119170); (119173, 119179); (119210, 119213); (119362, 119364); (121344, 121398);
    (121403, 121452); (121461, 121461); (121476, 121476); (121499, 121503); (121505, 121519); (122880, 122886);
    (122888, 122904); (122907, 122913); (122915, 122916); (122918, 122922); (123184, 123197); (123566, 123566);
    (123628, 123631); (125136, 125142); (125252, 125259); (127995, 127999); (917505, 917505); (917536, 917631);
    (917760, 917999) ]%N.

(** The code points with the property Cased that are not Case_Ignorable,
    as inclusive ranges. *)
Definition cased_ranges : list (N * N) :=
  [ (65, 90); (97, 122); (170, 170); (181, 181); (186, 186); (192, 214);
    (216, 246); (248, 442); (444, 447); (452, 659); (661, 687); (880, 883);
    (886, 887); (891, 893); (895, 895); (902, 902); (904, 906); (908, 908);
    (910, 929); (931, 1013); (1015, 1153); (1162, 1327); (1329, 1366); (1376, 1416);
    (4256, 4293); (4295, 4295); (4301, 4301); (4304, 4346); (4349, 4351); (5024, 5109);
    (5112, 5117); (7296, 7304); (7312, 7354); (7357, 7359); (7424, 7467); (7531, 7543);
    (7545, 7578); (7680, 7957); (7960, 7965); (7968, 8005); (8008, 8013); (8016, 8023);
    (8025, 8025); (8027, 8027); (8029, 8029); (8031, 8061); (8064, 8116); (8118, 8124);
    (8126, 8126); (8130, 8132); (8134, 8140); (8144, 8147); (8150, 8155); (8160, 8172);
    (8178, 8180); (8182, 8188); (8450, 8450); (8455, 8455); (8458, 8467); (8469, 8469);
    (8473, 8477); (8484, 8484); (8486, 8486); (8488, 8488); (8490, 8493); (8495, 8500);
    (8505, 8505); (8508, 8511); (8517, 8521); (8526, 8526); (8544, 8575); (8579, 8580);
    (9398, 9449); (11264, 11387); (11390, 11492); (11499, 11502); (11506, 11507); (11520, 11557);
    (11559, 11559); (11565, 11565); (42560, 42605); (42624, 42651); (42786, 42863); (42865, 42887);
    (42891, 42894); (42896, 42954); (42960, 42961); (42963, 42963); (42965, 42969); (42997, 42998);
    (43002, 43002); (43824, 43866); (43872, 43880); (43888, 43967); (64256, 64262); (64275, 64279);
    (65313, 65338); (65345, 65370); (66560, 66639); (66736, 66771); (66776, 66811); (66928, 66938);
    (66940, 66954); (66956, 66962); (66964, 66965); (66967, 66977); (66979, 66993); (66995, 67001);
    (67003, 67004); (68736, 68786); (68800, 68850); (71840, 71903); (93760, 93823); (119808, 119892);
    (119894, 119964); (119966, 119967); (119970, 119970); (119973, 119974); (119977, 119980); (119982, 119993);
    (119995, 119995); (119997, 120003); (120005, 120069); (120071, 120074); (120077, 120084); (120086, 120092);
    (120094, 120121); (120123, 120126); (120128, 120132); (120134, 120134); (120138, 120144); (120146, 120485);
    (120488, 120512); (120514, 120538); (120540, 120570); (120572, 120596); (120598, 120628); (120630, 120654);
    (120656, 120686); (120688, 120712); (120714, 120744); (120746, 120770); (120772, 120779); (122624, 122633);
    (122635, 122654); (125184, 125251); (127280, 127305); (127312, 127337); (127344, 127369) ]%N.

(** *** [str.lower] *)

Definition in_run (c : N) (r : N * N * N * N) : bool :=
  let '(first, last, step, _) := r in
  (first <=? c)%N && (c <=? last)%N && ((c - first) mod step =? 0)%N.

(** The simple lower-case form of a code point. *)
Definition lower_one (c : N) : N :=
  match List.find (in_run c) lower_runs with
  | Some (first, _, _, image) => (image + (c - first))%N
  | None => c
  end.

(** The full lower-case form of a code point: U+0130 gives [i] and the
    combining dot above. *)
Definition lower_cp (c : N) : str :=
  if (c =? 304)%N then [105; 775]%N else [lower_one c].

Definition in_ranges (c : N) (ranges : list (N * N)) : bool :=
  existsb (fun r => (fst r <=? c)%N && (c <=? snd r)%N) ranges.

Definition case_ignorable (c : N) : bool := in_ranges c case_ignorable_ranges.

Definition cased (c : N) : bool := in_ranges c cased_ranges.

(** Going outwards from a capital sigma, the first code point that is not
    case-ignorable is a cased letter. *)
Fixpoint meets_cased (s : str) : bool :=
  match s with
  | [] => false
  | c :: s' => if case_ignorable c then meets_cased s' else cased c
  end.

(** The Final_Sigma condition, for a capital sigma with the reversed text
    [before] on its left and the text [after] on its right. *)
Definition final_sigma (before after : str) : bool :=
  meets_cased before && negb (meets_cased after).

Fixpoint lower_from (before s : str) : str :=
  match s with
  | [] => []
  | c :: s' =>
      (if (c =? 931)%N
       then [if final_sigma before s' then 962%N else 963%N]
       else lower_cp c)
      ++ lower_from (c :: before) s'
  end.

(** [s.lower()] *)
Definition lower (s : str) : str := lower_from [] s.

(** A code point that [str.lower] changes. *)
Definition is_upper (c : N) : bool := negb (str_eqb (lower_cp c) [c]).

(** *** White space, search, slices *)

(** [c.isspace()]: TAB..CR, FS..US, SPACE, NEL, NBSP, the ogham space,
    EN QUAD..HAIR SPACE, the line and paragraph separators, the narrow
    no-break, medium mathematical and ideographic spaces. *)
Definition isspace (c : N) : bool :=
  between 9 13 c || between 28 32 c || (c =? 133)%N || (c =? 160)%N
  || (c =? 5760)%N || between 8192 8202 c || (c =? 8232)%N || (c =? 8233)%N
  || (c =? 8239)%N || (c =? 8287)%N || (c =? 12288)%N.

Fixpoint lstrip (s : str) : str :=
  match s with
  | [] => []
  | c :: s' => if isspace c then lstrip s' else s
  end.

Fixpoint rstrip (s : str) : str :=
  match s with
  | [] => []
  | c :: s' =>
      match rstrip s' with
      | [] => if isspace c then [] else [c]
      | r => c :: r
      end
  end.

(** [s.strip()] *)
Definition strip (s : str) : str := rstrip (lstrip s).

(** [s.startswith(p)] *)
Fixpoint startswith (p s : str) : bool :=
  match p, s with
  | [], _ => true
  | a :: p', b :: s' => (a =? b)%N && startswith p' s'
  | _ :: _, [] => false
  end.

Fixpoint find_index (sub s : str) : option nat :=
  if startswith sub s then Some 0
  else match s with
       | [] => None
       | _ :: s' => option_map S (find_index sub s')
       end.

(** [s.find(sub)]: the lowest index of [sub] in [s], or [-1]. *)
Definition find (s sub : str) : Z :=
  match find_index sub s with
  | Some i => Z.of_nat i
  | None => (-1)%Z
  end.

(** [sub in s] *)
Definition contains (sub s : str) : bool :=
  match find_index sub s with Some _ => true | None => false end.

Fixpoint drop (n : nat) (s : str) : str :=
  match n, s with
  | O, _ => s
  | S n', _ :: s' => drop n' s'
  | S _, [] => []
  end.

Fixpoint take (n : nat) (s : str) : str :=
  match n, s with
  | O, _ => []
  | S n', c :: s' => c :: take n' s'
  | S _, [] => []
  end.

(** [s[i:]], with Python's treatment of a negative start. *)
Definition slice_from (s : str) (i : Z) : str :=
  if (i <? 0)%Z then drop (Z.to_nat (Z.of_nat (List.length s) + i)) s
  else drop (Z.to_nat i) s.

(** [s[:n]] for a non-negative literal [n]. *)
Definition slice_to (s : str) (n : nat) : str := take n s.

(** [sep.join(parts)] *)
Fixpoint join (sep : str) (parts : list str) : str :=
  match parts with
  | [] => []
  | [p] => p
  | p :: ps => p ++ sep ++ join sep ps
  end.

(** [s.replace(c, "")] for a one-character [c]. *)
Fixpoint remove_char (c : N) (s : str) : str :=
  match s with
  | [] => []
  | x :: s' => if (x =? c)%N then remove_char c s' else x :: remove_char c s'
  end.

(** [s * n] *)
Fixpoint repeat_string (s : str) (n : nat) : str :=
  match n with
  | O => []
  | S n' => s ++ repeat_string s n'
  end.

(** [str(n)] for a non-negative integer. *)
Definition str_of_nat (n : nat) : str :=
  u (NilZero.string_of_uint (Nat.to_uint n)).

(** [str(z)] for an integer. *)
Definition str_of_Z (z : Z) : str :=
  u (NilZero.string_of_int (Z.to_int z)).

End PyStr.
Import PyStr.

(* ================================================================= *)
(** ** Configuration and schema *)

Definition DB_PATH : str := u "mid.db".
Definition TABLE_NAME : str := u "mid_drugs".
Definition CHROMA_DIR : str := u "./chroma_mid_db".
Definition CHROMA_COLLECTION : str := u "mid_vectors".
Definition MODEL_CHAT : str := u "mistral".
Definition MODEL_EMBED : str := u "bge-m3".

Definition EXPECTED_COLUMNS : list str :=
  map u [ "name"; "link"; "contains"; "productintroduction"; "productuses";
          "productbenefits"; "sideeffect"; "howtouse"; "howworks"; "quicktips";
          "safetyadvice"; "chemical_class"; "habit_forming"; "therapeutic_class";
          "action_class" ].

(* ================================================================= *)
(** ** SQL helpers: [extract_sql] *)

Definition SAFE_DEFAULT : str := u "SELECT * FROM mid_drugs LIMIT 10;".

Definition WILDCARD_DEFAULT : str :=
  u "SELECT * FROM mid_drugs WHERE name LIKE '%keyword%' LIMIT 10;".

Definition extract_sql (text : str) : str :=
  let idx := find (lower text) (u "select") in
  if (idx =? -1)%Z then u "SELECT * FROM mid_drugs LIMIT 10;"
  else
    let sql := strip (slice_from text idx) in
    if contains (u " join ") (lower sql) then
      u "SELECT * FROM mid_drugs LIMIT 10;"
    else if contains (u "drug_name") (lower sql) then
      u "SELECT * FROM mid_drugs WHERE name LIKE '%keyword%' LIMIT 10;"
    else sql.

(* ================================================================= *)
(** ** Declarative reading of substring search *)

(** [sub] occurs in [s] at index [i]. *)
Definition occurs_at (sub s : str) (i : nat) : Prop :=
  exists pre post, s = pre ++ sub ++ post /\ List.length pre = i.

Definition occurs (sub s : str) : Prop := exists i, occurs_at sub s i.

(** [i] is the lowest index at which [sub] occurs in [s]. *)
Definition first_occurrence (sub s : str) (i : nat) : Prop :=
  occurs_at sub s i /\ forall j, j < i -> ~ occurs_at sub s j.

(** Case-insensitive occurrence of a marker. *)
Definition mentions (marker s : str) : Prop := occurs marker (lower s).

(** [s] begins with the letters of [word], each in either case; [word] is
    written in small ASCII letters. *)
Fixpoint reads (word s : str) : bool :=
  match word, s with
  | [], _ => true
  | x :: word', c :: s' => ((c =? x)%N || (c =? x - 32)%N) && reads word' s'
  | _ :: _, [] => false
  end.

(** The first index at which the text reads [word] in some letter case. *)
Fixpoint first_reading (word s : str) : option nat :=
  if reads word s then Some 0
  else match s with
       | [] => None
       | _ :: s' => option_map S (first_reading word s')
       end.

(** [tail] is the text of [text] at and after the first case-insensitive
    occurrence of the read keyword. *)
Definition select_tail (text tail : str) : Prop :=
  exists i, first_reading (u "select") text = Some i /\ tail = drop i text.

(** No U+0130 stands before the first [select] of the lower-cased text:
    the index that [extract_sql] finds there is then the same place of the
    text itself. *)
Definition keyword_in_place (text : str) : Prop :=
  forall i, find_index (u "select") (lower text) = Some i -> ~ In 304%N (take i text).

(** A query carries a row limit when it has a LIMIT clause. *)
Definition bounded_by_row_limit (q : str) : bool := contains (u " limit ") (lower q).

(** *** Filter position, for the claim on unknown columns

    Words are the maximal runs of identifier characters; the word that
    follows the first WHERE keyword is the left operand of the first filter
    condition. *)

Definition is_ident_char (c : N) : bool :=
  between 48 57 c || between 65 90 c || between 97 122 c || (c =? 95)%N.

Fixpoint words_from (cur s : str) : list str :=
  match s with
  | [] => match cur with [] => [] | _ => [cur] end
  | c :: s' =>
      if is_ident_char c then words_from (cur ++ [c]) s'
      else match cur with
           | [] => words_from [] s'
           | _ => cur :: words_from [] s'
           end
  end.

Definition words (s : str) : list str := words_from [] s.

Fixpoint word_after (kw : str) (ws : list str) : option str :=
  match ws with
  | [] => None
  | w :: rest =>
      if str_eqb (lower w) kw
      then match rest with [] => None | c :: _ => Some c end
      else word_after kw rest
  end.

Definition filter_column (q : str) : option str := word_after (u "where") (words q).

Definition in_schema (c : str) : bool :=
  existsb (str_eqb (lower c)) EXPECTED_COLUMNS.

Definition filters_on_unknown_column (q : str) : Prop :=
  exists c, filter_column q = Some c /\ in_schema c = false.

(* ================================================================= *)
(** ** Data *)

(** A cell of the table.  Floating-point cells are outside the model. *)
Inductive cell : Type :=
| CNone
| CBool (b : bool)
| CInt (z : Z)
| CStr (s : str).

(** A dict from column name to value, in insertion order: one row of a
    DataFrame ([to_dict(orient="records")]), or a metadata dict. *)
Definition record : Type := list (str * cell).

(** A DataFrame with the default 0..n-1 row index. *)
Definition DataFrame : Type := list record.

(** An embedding is a list of doubles.  No arithmetic is done on them here,
    so each one is carried as its 64-bit pattern. *)
Definition float64 : Type := Z.
Definition vector : Type := list float64.

(** A vector-search hit as returned by [vector_search]:
    [{"text": d, "meta": m}]. *)
Record passage : Type := mk_passage {
  passage_text : str;
  passage_meta : record
}.

(** The part of a ChromaDB query response that the program reads. *)
Record QueryResult : Type := mk_query_result {
  res_documents : list (list str);
  res_metadatas : list (list record)
}.

(** The [ctx] dict of [answer_hybrid]. *)
Record context : Type := mk_context {
  sql_rows : list record;
  vector_docs : list passage
}.

(** [str(v)] *)
Definition py_str (v : cell) : str :=
  match v with
  | CNone => u "None"
  | CBool true => u "True"
  | CBool false => u "False"
  | CInt z => str_of_Z z
  | CStr s => s
  end.

(** [row.get(key, "")] *)
Fixpoint row_get (row : record) (key : str) : cell :=
  match row with
  | [] => CStr []
  | (k, v) :: rest => if str_eqb k key then v else row_get rest key
  end.

(* ================================================================= *)
(** ** [json.dumps(obj, indent=2)] *)

#[local] Set Warnings "-register-all".

Inductive json : Type :=
| JNull
| JBool (b : bool)
| JInt (z : Z)
| JStr (s : str)
| JList (items : list json)
| JObj (members : list (str * json)).

Definition LF : str := [10%N].
Definition DQUOTE : str := [34%N].

Definition hex_digit (n : N) : N := nth (N.to_nat n) (u "0123456789abcdef") 48%N.

(** ['\\u{0:04x}'] *)
Definition escape_u (n : N) : str :=
  u "\u" ++ [ hex_digit (n / 4096 mod 16); hex_digit (n / 256 mod 16);
              hex_digit (n / 16 mod 16); hex_digit (n mod 16) ]%N.

(** The escape of one code point under [ensure_ascii=True]; a code point
    beyond U+FFFF is written as its surrogate pair. *)
Definition escape_char (c : N) : str :=
  if (c =? 34)%N then u "\" ++ DQUOTE
  else if (c =? 92)%N then u "\\"
  else if (c =? 10)%N then u "\n"
  else if (c =? 13)%N then u "\r"
  else if (c =? 9)%N then u "\t"
  else if (c =? 8)%N then u "\b"
  else if (c =? 12)%N then u "\f"
  else if between 32 126 c then [c]
  else if (c <? 65536)%N then escape_u c
  else escape_u (55296 + (c - 65536) / 1024 mod 1024)
       ++ escape_u (56320 + (c - 65536) mod 1024).

Fixpoint escape (s : str) : str :=
  match s with
  | [] => []
  | c :: s' => escape_char c ++ escape s'
  end.

Definition dumps_str (s : str) : str := DQUOTE ++ escape s ++ DQUOTE.

Fixpoint spaces (n : nat) : str :=
  match n with
  | O => []
  | S n' => 32%N :: spaces n'
  end.

Definition newline_indent (level : nat) : str := LF ++ spaces (2 * level).

Fixpoint dumps_at (level : nat) (j : json) {struct j} : str :=
  match j with
  | JNull => u "null"
  | JBool true => u "true"
  | JBool false => u "false"
  | JInt z => str_of_Z z
  | JStr s => dumps_str s
  | JList [] => u "[]"
  | JList items =>
      u "[" ++ newline_indent (S level)
      ++ join (u "," ++ newline_indent (S level)) (map (dumps_at (S level)) items)
      ++ newline_indent level ++ u "]"
  | JObj [] => u "{}"
  | JObj members =>
      u "{" ++ newline_indent (S level)
      ++ join (u "," ++ newline_indent (S level))
              (map (fun '(k, v) => dumps_str k ++ u ": " ++ dumps_at (S level) v) members)
      ++ newline_indent level ++ u "}"
  end.

Definition dumps_indent2 (j : json) : str := dumps_at 0 j.

Definition json_of_cell (v : cell) : json :=
  match v with
  | CNone => JNull
  | CBool b => JBool b
  | CInt z => JInt z
  | CStr s => JStr s
  end.

Definition json_of_record (r : record) : json :=
  JObj (map (fun kv => (fst kv, json_of_cell (snd kv))) r).

Definition json_of_passage (p : passage) : json :=
  JObj [(u "text", JStr (passage_text p)); (u "meta", json_of_record (passage_meta p))].

Definition json_of_context (ctx : context) : json :=
  JObj [(u "sql_rows", JList (map json_of_record (sql_rows ctx)));
        (u "vector_docs", JList (map json_of_passage (vector_docs ctx)))].

(** The length of the context as it is handed to the chat model. *)
Definition serialized_length (ctx : context) : nat :=
  List.length (dumps_indent2 (json_of_context ctx)).

(** A character that [json.dumps] may write: printable ASCII or a line
    feed. *)
Definition json_char (c : N) : bool := between 32 126 c || (c =? 10)%N.

Definition all_chars (ok : N -> bool) (s : str) : bool := forallb ok s.

(* ================================================================= *)
(** ** Collaborators and programs *)

(** The text of a raised exception ([str(e)]). *)
Definition exn : Type := str.

Inductive result (A : Type) : Type :=
| Ok (a : A)
| Err (e : exn).
Arguments Ok {A} a.
Arguments Err {A} e.

(** One call into an external service, indexed by what it returns.  There
    is one database file and one collection, so handles carry no data. *)
Inductive event : Type -> Type :=
| OllamaGenerate (model prompt : str) : event str
| OllamaEmbeddings (model prompt : str) : event vector
| SqliteConnect (path : str) : event unit
| ReadSqlQuery (sql : str) : event DataFrame
| ConnClose : event unit
| PersistentClient (path : str) : event unit
| GetCollection (name : str) : event unit
| CreateCollection (name : str) (metadata : record) : event unit
| ColDelete : event unit
| ColAdd (documents ids : list str) (embeddings : list vector)
         (metadatas : list record) : event unit
| ColQuery (query_embeddings : list vector) (n_results : nat) : event QueryResult.

(** A program: it returns, raises, writes a line to standard output, or
    calls a collaborator and goes on with what came back. *)
Inductive prog (A : Type) : Type :=
| Ret (a : A)
| Raise (e : exn)
| Out (line : str) (k : prog A)
| Vis (X : Type) (ev : event X) (k : result X -> prog A).
Arguments Ret {A} a.
Arguments Raise {A} e.
Arguments Out {A} line k.
Arguments Vis {A X} ev k.

Fixpoint bind {A B : Type} (p : prog A) (f : A -> prog B) : prog B :=
  match p with
  | Ret a => f a
  | Raise e => Raise e
  | Out line k => Out line (bind k f)
  | Vis ev k => Vis ev (fun r => bind (k r) f)
  end.

Declare Scope prog_scope.
Delimit Scope prog_scope with prog.
Notation "x <- p ;; q" := (bind p (fun x => q))
  (at level 61, p at next level, right associativity) : prog_scope.
Notation "p ;; q" := (bind p (fun _ => q))
  (at level 61, right associativity) : prog_scope.
Open Scope prog_scope.

(** A collaborator call whose failure is raised in the caller. *)
Definition call {X : Type} (ev : event X) : prog X :=
  Vis ev (fun r => match r with Ok x => Ret x | Err e => Raise e end).

(** [try: p  except: h e] *)
Fixpoint try_except {A : Type} (p : prog A) (h : exn -> prog A) : prog A :=
  match p with
  | Ret a => Ret a
  | Raise e => h e
  | Out line k => Out line (try_except k h)
  | Vis ev k => Vis ev (fun r => try_except (k r) h)
  end.

(** [try: return p  finally: fin]; an exception of [fin] replaces the
    outcome of [p]. *)
Fixpoint try_finally {A : Type} (p : prog A) (fin : prog unit) : prog A :=
  match p with
  | Ret a => fin ;; Ret a
  | Raise e => fin ;; Raise e
  | Out line k => Out line (try_finally k fin)
  | Vis ev k => Vis ev (fun r => try_finally (k r) fin)
  end.

(** What [print(a, b, ...)] writes. *)
Definition print_line (args : list str) : str := join (u " ") args ++ LF.

(** [print(a, b, ...)] *)
Definition print (args : list str) : prog unit :=
  Out (print_line args) (Ret tt).

(** [[f(x) for x in xs]] *)
Fixpoint for_each {X Y : Type} (f : X -> prog Y) (xs : list X) : prog (list Y) :=
  match xs with
  | [] => Ret []
  | x :: rest => y <- f x ;; ys <- for_each f rest ;; Ret (y :: ys)
  end.

(** [xs[0]] *)
Definition index0 {X : Type} (xs : list X) : prog X :=
  match xs with
  | x :: _ => Ret x
  | [] => Raise (u "list index out of range")
  end.

(** *** SQL store *)

Definition run_sql (sql : str) : prog DataFrame :=
  call (SqliteConnect DB_PATH) ;;
  try_finally (call (ReadSqlQuery sql)) (call ConnClose).

(** *** Chroma vector store *)

Definition get_collection : prog unit :=
  call (PersistentClient CHROMA_DIR) ;;
  try_except (call (GetCollection CHROMA_COLLECTION))
             (fun _ => call (CreateCollection CHROMA_COLLECTION
                                              [(u "hnsw:space", CStr (u "cosine"))])).

Definition embed (text : str) : prog vector :=
  call (OllamaEmbeddings MODEL_EMBED text).

(** The chunk of one row: name, uses and mechanism, cut at 300 characters
    and trimmed. *)
Definition chunk_of (row : record) : str :=
  let combined := join (u " ") [ py_str (row_get row (u "name"));
                                 py_str (row_get row (u "productuses"));
                                 py_str (row_get row (u "howworks")) ] in
  strip (slice_to combined 300).

(** One index entry before embedding: document, id, metadata. *)
Record item : Type := mk_item {
  item_doc : str;
  item_id : str;
  item_meta : record
}.

(** The loop over [df.iterrows()], from row label [i] on. *)
Fixpoint collect_items (i : nat) (rows : DataFrame) : list item :=
  match rows with
  | [] => []
  | row :: rest =>
      let chunk := chunk_of row in
      match chunk with
      | [] => collect_items (S i) rest
      | _ => mk_item chunk (str_of_nat i) [(u "name", row_get row (u "name"))]
             :: collect_items (S i) rest
      end
  end.

Definition build_vector_store (df : DataFrame) : prog unit :=
  print [u "Building vector store..."] ;;
  get_collection ;;
  try_except (call ColDelete) (fun _ => Ret tt) ;;
  let items := collect_items 0 df in
  let docs := map item_doc items in
  let ids := map item_id items in
  let metas := map item_meta items in
  embeddings <- for_each embed docs ;;
  call (ColAdd docs ids embeddings metas) ;;
  print [u "Vector store built."].

Definition vector_search (query : str) : prog (list passage) :=
  get_collection ;;
  qvec <- embed query ;;
  res <- call (ColQuery [qvec] 5) ;;
  docs <- index0 (res_documents res) ;;
  metas <- index0 (res_metadatas res) ;;
  Ret (map (fun dm => mk_passage (fst dm) (snd dm)) (combine docs metas)).

(** *** Chat *)

Record message : Type := mk_message {
  role : str;
  content : str
}.

Definition chat_prompt (messages : list message) : str :=
  fold_left (fun prompt m => prompt ++ role m ++ u ": " ++ content m ++ LF)
            messages []
  ++ u "assistant:".

Definition chat (messages : list message) : prog str :=
  call (OllamaGenerate MODEL_CHAT (chat_prompt messages)).

(** *** Hybrid RAG *)

Definition SQL_SYSTEM : str := u
"You write SQL for a SQLite table named mid_drugs.

VALID COLUMNS:
name, link, contains, productintroduction, productuses, productbenefits,
sideeffect, howtouse, howworks, quicktips, safetyadvice, chemical_class,
habit_forming, therapeutic_class, action_class

RULES:
- Only use SELECT
- Never use JOIN
- Never invent columns
- If unsure, use:
  SELECT * FROM mid_drugs WHERE name LIKE '%keyword%' LIMIT 10;".

Definition ANSWER_SYSTEM : str := u
"You answer using ONLY:
- SQL rows
- vector documents

Never invent facts.".

Definition generate_sql (question : str) : prog str :=
  raw <- chat [ mk_message (u "system") SQL_SYSTEM; mk_message (u "user") question ] ;;
  Ret (extract_sql raw).

Definition answer_hybrid (question : str) (df_sql : DataFrame)
                         (vec_docs : list passage) : prog str :=
  let ctx := mk_context df_sql vec_docs in
  chat [ mk_message (u "system") ANSWER_SYSTEM;
         mk_message (u "assistant") (dumps_indent2 (json_of_context ctx));
         mk_message (u "user") question ].

(** The messages of [generate_sql] and of [answer_hybrid]. *)
Definition sql_messages (question : str) : list message :=
  [ mk_message (u "system") SQL_SYSTEM; mk_message (u "user") question ].

Definition answer_messages (question : str) (df_sql : DataFrame)
                           (vec_docs : list passage) : list message :=
  [ mk_message (u "system") ANSWER_SYSTEM;
    mk_message (u "assistant")
               (dumps_indent2 (json_of_context (mk_context df_sql vec_docs)));
    mk_message (u "user") question ].

Definition ask_mid (question : str) : prog str :=
  print [LF ++ u "User:"; question] ;;
  sql <- generate_sql question ;;
  print [u "SQL:"; sql] ;;
  attempt <- try_except (df <- run_sql sql ;; Ret (inl df))
                        (fun e => Ret (inr (u "SQL error: " ++ e))) ;;
  match attempt with
  | inr message => Ret message
  | inl df =>
      print [u "SQL rows:"; str_of_nat (List.length df)] ;;
      vec <- vector_search question ;;
      print [u "Vector matches:"; str_of_nat (List.length vec)] ;;
      answer_hybrid question df vec
  end.

(** *** The main loop *)

(** [q.lower() in {"exit", "quit"}] *)
Definition is_exit (q : str) : bool :=
  str_eqb (lower q) (u "exit") || str_eqb (lower q) (u "quit").

(** The [while True] loop of the main block.  Standard input is the list
    of the lines still to be read; [input] writes its prompt, and raises
    [EOFError] when no line is left. *)
Fixpoint main_loop (lines : list str) : prog unit :=
  Out (u "You: ")
      match lines with
      | [] => Raise (u "EOF when reading a line")
      | line :: rest =>
          let q := strip line in
          if is_exit q then Ret tt
          else
            answer <- ask_mid q ;;
            print [LF ++ u "Assistant:"; answer] ;;
            print [LF ++ repeat_string (u "=") 60 ++ LF] ;;
            main_loop rest
      end.

(* ================================================================= *)
(** ** Running a program against its collaborators *)

(** What a run leaves behind: the lines printed and the calls made. *)
Inductive log_entry : Type :=
| Printed (line : str)
| Called (X : Type) (ev : event X).
Arguments Called {X} ev.

Section Run.

Variable W : Type.
Variable handle : forall X : Type, event X -> W -> result X * W.

(** Big-step run: the outcome, the world afterwards, and the extended log. *)
Fixpoint exec {A : Type} (p : prog A) (w : W) (log : list log_entry)
  : result A * W * list log_entry :=
  match p with
  | Ret a => (Ok a, w, log)
  | Raise e => (Err e, w, log)
  | Out line k => exec k w (log ++ [Printed line])
  | Vis ev k =>
      let rw := handle _ ev w in
      exec (k (fst rw)) (snd rw) (log ++ [Called ev])
  end.

(** A run from an empty log. *)
Definition run {A : Type} (p : prog A) (w : W) : result A * W * list log_entry :=
  exec p w [].

Definition outcome {A : Type} (p : prog A) (w : W) : result A :=
  fst (fst (run p w)).

Definition world_after {A : Type} (p : prog A) (w : W) : W :=
  snd (fst (run p w)).

Definition log_of {A : Type} (p : prog A) (w : W) : list log_entry :=
  snd (run p w).

(** Small-step run: one print or one collaborator call at a time. *)
Inductive step {A : Type} : prog A * W -> prog A * W -> Prop :=
| step_out line k w :
    step (Out line k, w) (k, w)
| step_vis X (ev : event X) k w :
    step (Vis ev k, w) (k (fst (handle X ev w)), snd (handle X ev w)).

Inductive reaches {A : Type} : prog A * W -> prog A * W -> Prop :=
| reaches_here c : reaches c c
| reaches_step c1 c2 c3 : step c1 c2 -> reaches c2 c3 -> reaches c1 c3.

(** A world that some other party can see while [p] runs from [w]: each
    collaborator call is atomic, and the observer may look between any
    two of them. *)
Definition observable {A : Type} (p : prog A) (w w' : W) : Prop :=
  exists p', reaches (p, w) (p', w').

(** The worlds of a run, in order, the starting one included. *)
Fixpoint visited {A : Type} (p : prog A) (w : W) : list W :=
  match p with
  | Ret _ => [w]
  | Raise _ => [w]
  | Out _ k => visited k w
  | Vis ev k =>
      let rw := handle _ ev w in
      w :: visited (k (fst rw)) (snd rw)
  end.

(** Every call of [p] satisfies [P]. *)
Inductive calls_only (P : forall X : Type, event X -> Prop) {A : Type}
  : prog A -> Prop :=
| calls_ret a : calls_only P (Ret a)
| calls_raise e : calls_only P (Raise e)
| calls_out line k : calls_only P k -> calls_only P (Out line k)
| calls_vis X (ev : event X) k :
    P X ev -> (forall r, calls_only P (k r)) -> calls_only P (Vis ev k).

(** A call that leaves the world as it found it. *)
Definition quiet (X : Type) (ev : event X) : Prop :=
  forall w, snd (handle X ev w) = w.

(** *** What the collaborators answer, call by call

    The relations below read the answers of the collaborators directly,
    in the order in which the program asks. *)

(** The chat model is asked with the given messages. *)
Definition ask_chat (messages : list message) (w : W) : result str * W :=
  handle str (OllamaGenerate MODEL_CHAT (chat_prompt messages)) w.

(** The SQL store opens, answers the query with [df] and closes. *)
Inductive store_answers (sql : str) (w : W) (df : DataFrame) : W -> Prop :=
| store_answered u1 w1 w2 u2 w3 :
    handle unit (SqliteConnect DB_PATH) w = (Ok u1, w1) ->
    handle DataFrame (ReadSqlQuery sql) w1 = (Ok df, w2) ->
    handle unit ConnClose w2 = (Ok u2, w3) ->
    store_answers sql w df w3.

(** The collection is at hand: found, or created after the lookup failed. *)
Inductive collection_opened (w : W) : W -> Prop :=
| collection_found u1 w1 u2 w2 :
    handle unit (PersistentClient CHROMA_DIR) w = (Ok u1, w1) ->
    handle unit (GetCollection CHROMA_COLLECTION) w1 = (Ok u2, w2) ->
    collection_opened w w2
| collection_created u1 w1 e w2 u3 w3 :
    handle unit (PersistentClient CHROMA_DIR) w = (Ok u1, w1) ->
    handle unit (GetCollection CHROMA_COLLECTION) w1 = (Err e, w2) ->
    handle unit (CreateCollection CHROMA_COLLECTION
                                  [(u "hnsw:space", CStr (u "cosine"))]) w2
    = (Ok u3, w3) ->
    collection_opened w w3.

(** The collection is not to be had: the client does not open, or the
    lookup and the creation both fail. *)
Inductive collection_fails (w : W) (e : exn) : Prop :=
| client_fails w1 :
    handle unit (PersistentClient CHROMA_DIR) w = (Err e, w1) ->
    collection_fails w e
| creation_fails u1 w1 e2 w2 w3 :
    handle unit (PersistentClient CHROMA_DIR) w = (Ok u1, w1) ->
    handle unit (GetCollection CHROMA_COLLECTION) w1 = (Err e2, w2) ->
    handle unit (CreateCollection CHROMA_COLLECTION
                                  [(u "hnsw:space", CStr (u "cosine"))]) w2
    = (Err e, w3) ->
    collection_fails w e.

(** The retrieval for [query] comes back with passages. *)
Inductive retrieval_returns (query : str) (w : W) : list passage -> W -> Prop :=
| retrieval_answered w1 qvec w2 res w3 docs more_docs metas more_metas :
    collection_opened w w1 ->
    handle vector (OllamaEmbeddings MODEL_EMBED query) w1 = (Ok qvec, w2) ->
    handle QueryResult (ColQuery [qvec] 5) w2 = (Ok res, w3) ->
    res_documents res = docs :: more_docs ->
    res_metadatas res = metas :: more_metas ->
    retrieval_returns query w
      (map (fun dm => mk_passage (fst dm) (snd dm)) (combine docs metas)) w3.

(** The retrieval for [query] fails: no collection, no embedding, no
    answer from the index, or an answer without a row. *)
Inductive retrieval_fails (query : str) (w : W) (e : exn) : Prop :=
| no_collection :
    collection_fails w e ->
    retrieval_fails query w e
| no_embedding w1 w2 :
    collection_opened w w1 ->
    handle vector (OllamaEmbeddings MODEL_EMBED query) w1 = (Err e, w2) ->
    retrieval_fails query w e
| no_answer w1 qvec w2 w3 :
    collection_opened w w1 ->
    handle vector (OllamaEmbeddings MODEL_EMBED query) w1 = (Ok qvec, w2) ->
    handle QueryResult (ColQuery [qvec] 5) w2 = (Err e, w3) ->
    retrieval_fails query w e
| no_row w1 qvec w2 res w3 :
    collection_opened w w1 ->
    handle vector (OllamaEmbeddings MODEL_EMBED query) w1 = (Ok qvec, w2) ->
    handle QueryResult (ColQuery [qvec] 5) w2 = (Ok res, w3) ->
    res_documents res = [] \/ res_metadatas res = [] ->
    e = u "list index out of range" ->
    retrieval_fails query w e.

(** What the embedder answers to the documents one after the other, up to
    its first failure: the embeddings so far, the error if there was one,
    and the world then. *)
Fixpoint embed_answers (docs : list str) (w : W) : list vector * option exn * W :=
  match docs with
  | [] => ([], None, w)
  | doc :: rest =>
      match handle vector (OllamaEmbeddings MODEL_EMBED doc) w with
      | (Err e, w1) => ([], Some e, w1)
      | (Ok v, w1) =>
          let '(vs, failure, w2) := embed_answers rest w1 in
          (v :: vs, failure, w2)
      end
  end.

End Run.

Arguments exec {W} handle {A} p w log.
Arguments run {W} handle {A} p w.
Arguments outcome {W} handle {A} p w.
Arguments world_after {W} handle {A} p w.
Arguments log_of {W} handle {A} p w.
Arguments step {W} handle {A} _ _.
Arguments reaches {W} handle {A} _ _.
Arguments observable {W} handle {A} p w w'.
Arguments visited {W} handle {A} p w.
Arguments calls_only P {A} _.
Arguments quiet {W} handle X ev.
Arguments ask_chat {W} handle messages w.
Arguments store_answers {W} handle sql w df _.
Arguments collection_opened {W} handle w _.
Arguments collection_fails {W} handle w e.
Arguments retrieval_returns {W} handle query w _ _.
Arguments retrieval_fails {W} handle query w e.
Arguments embed_answers {W} handle docs w.

(* ================================================================= *)
(** ** Reading a log *)

(** How many times the log records a query sent to the SQL store. *)
Fixpoint sql_queries (log : list log_entry) : nat :=
  match log with
  | [] => 0
  | Called (ReadSqlQuery _) :: rest => S (sql_queries rest)
  | _ :: rest => sql_queries rest
  end.

(** A call other than a query to the SQL store. *)
Definition sends_no_query (X : Type) (ev : event X) : Prop :=
  match ev with
  | ReadSqlQuery _ => False
  | _ => True
  end.

(** The queries sent to the SQL store, in order. *)
Fixpoint sql_sent (log : list log_entry) : list str :=
  match log with
  | [] => []
  | Called (ReadSqlQuery sql) :: rest => sql :: sql_sent rest
  | _ :: rest => sql_sent rest
  end.

(** The batches handed to [col.add], in order. *)
Record batch : Type := mk_batch {
  batch_documents : list str;
  batch_ids : list str;
  batch_embeddings : list vector;
  batch_metadatas : list record
}.

Fixpoint col_adds (log : list log_entry) : list batch :=
  match log with
  | [] => []
  | Called (ColAdd documents ids embeddings metadatas) :: rest =>
      mk_batch documents ids embeddings metadatas :: col_adds rest
  | _ :: rest => col_adds rest
  end.

(** The calls of a log, without what was printed. *)
Fixpoint calls_of (log : list log_entry) : list log_entry :=
  match log with
  | [] => []
  | Printed _ :: rest => calls_of rest
  | entry :: rest => entry :: calls_of rest
  end.

(** How many calls of a log are of a given kind. *)
Fixpoint count_calls (kind : forall X : Type, event X -> bool)
                     (log : list log_entry) : nat :=
  match log with
  | [] => 0
  | Printed _ :: rest => count_calls kind rest
  | Called ev :: rest =>
      (if kind _ ev then 1 else 0) + count_calls kind rest
  end.

Definition is_generate (X : Type) (ev : event X) : bool :=
  match ev with OllamaGenerate _ _ => true | _ => false end.

Definition is_embedding (X : Type) (ev : event X) : bool :=
  match ev with OllamaEmbeddings _ _ => true | _ => false end.

Definition is_index_query (X : Type) (ev : event X) : bool :=
  match ev with ColQuery _ _ => true | _ => false end.

Definition is_index_write (X : Type) (ev : event X) : bool :=
  match ev with
  | ColDelete => true
  | ColAdd _ _ _ _ => true
  | _ => false
  end.

(** On every path, [p] makes at most [n] calls of the given kind. *)
Inductive at_most (kind : forall X : Type, event X -> bool) {A : Type}
  : nat -> prog A -> Prop :=
| at_most_ret n a : at_most kind n (Ret a)
| at_most_raise n e : at_most kind n (Raise e)
| at_most_out n line k : at_most kind n k -> at_most kind n (Out line k)
| at_most_free n X (ev : event X) k :
    kind X ev = false -> (forall r, at_most kind n (k r)) ->
    at_most kind n (Vis ev k)
| at_most_paid n X (ev : event X) k :
    (forall r, at_most kind n (k r)) -> at_most kind (S n) (Vis ev k).

(** The calls to the embedder for the given documents, in order. *)
Definition embedding_calls (docs : list str) : list log_entry :=
  map (fun doc => Called (OllamaEmbeddings MODEL_EMBED doc)) docs.

(* ================================================================= *)
(** ** A deployment: concrete collaborators over an explicit index *)

(** An entry of the vector index. *)
Record entry : Type := mk_entry {
  entry_id : str;
  entry_embedding : vector;
  entry_document : str;
  entry_metadata : record
}.

Definition index : Type := list entry.

(** For each operation on the index, the error it raises, if it does. *)
Record faults : Type := mk_faults {
  on_client : option exn;
  on_lookup : option exn;
  on_create : option exn;
  on_delete : option exn;
  on_add : option exn;
  on_query : option exn
}.

Definition no_faults : faults := mk_faults None None None None None None.

Record deployment : Type := mk_deployment {
  llm : str -> result str;
  embedder : str -> result vector;
  sql_store : str -> result DataFrame;
  similarity : vector -> vector -> Z;
  index_faults : faults
}.

Fixpoint zip_entries (ids : list str) (embeddings : list vector)
                     (documents : list str) (metadatas : list record) : index :=
  match ids, embeddings, documents, metadatas with
  | i :: ids', v :: embeddings', d :: documents', m :: metadatas' =>
      mk_entry i v d m :: zip_entries ids' embeddings' documents' metadatas'
  | _, _, _, _ => []
  end.

Definition upsert (idx : index) (e : entry) : index :=
  filter (fun x => negb (str_eqb (entry_id x) (entry_id e))) idx ++ [e].

Definition upsert_all (idx : index) (es : list entry) : index :=
  fold_left upsert es idx.

(** [e] is put before the first ranked entry that is not nearer than it. *)
Fixpoint insert_ranked (score : entry -> Z) (e : entry) (ranked : list entry)
  : list entry :=
  match ranked with
  | [] => [e]
  | x :: rest =>
      if (score x <=? score e)%Z then e :: ranked
      else x :: insert_ranked score e rest
  end.

(** The entries by non-increasing similarity to [q]; entries that tie
    stay in stored order. *)
Definition nearest (d : deployment) (q : vector) (idx : index) : list entry :=
  fold_right (insert_ranked (fun e => similarity d q (entry_embedding e))) [] idx.

Definition query_index (d : deployment) (idx : index) (qs : list vector) (k : nat)
  : QueryResult :=
  let hits := map (fun q => firstn k (nearest d q idx)) qs in
  mk_query_result (map (map entry_document) hits) (map (map entry_metadata) hits).

(** An operation that raises its fault when it has one, and leaves the
    index as it was then. *)
Definition faulty {X : Type} (fault : option exn) (idx : index) (r : X * index)
  : result X * index :=
  match fault with
  | Some e => (Err e, idx)
  | None => (Ok (fst r), snd r)
  end.

(** Modelled from the spec: the vector index collaborator of section 6
    ([upsert(id, embedding, text, metadata)], [delete_all()],
    [query(embedding, k)] giving ranked matches); ChromaDB itself is an
    external package.  The world is the content of the index; the chat
    model, the embedder and the SQL store answer as the deployment says,
    and each operation on the index may raise.  [col.delete()] is called
    without arguments: a ChromaDB that refuses such a call is a deployment
    with a fault on delete. *)
Definition serve (d : deployment) (X : Type) (ev : event X) (idx : index)
  : result X * index :=
  let f := index_faults d in
  match ev in event T return result T * index with
  | OllamaGenerate _ prompt => (llm d prompt, idx)
  | OllamaEmbeddings _ text => (embedder d text, idx)
  | SqliteConnect _ => (Ok tt, idx)
  | ReadSqlQuery sql => (sql_store d sql, idx)
  | ConnClose => (Ok tt, idx)
  | PersistentClient _ => faulty (on_client f) idx (tt, idx)
  | GetCollection _ => faulty (on_lookup f) idx (tt, idx)
  | CreateCollection _ _ => faulty (on_create f) idx (tt, idx)
  | ColDelete => faulty (on_delete f) idx (tt, [])
  | ColAdd documents ids embeddings metadatas =>
      faulty (on_add f) idx
             (tt, upsert_all idx (zip_entries ids embeddings documents metadatas))
  | ColQuery qs k => faulty (on_query f) idx (query_index d idx qs k, idx)
  end.

(** The collection can be had: the client opens, and the lookup or the
    creation works. *)
Definition collection_error (f : faults) : option exn :=
  match on_client f with
  | Some e => Some e
  | None => match on_lookup f with
            | None => None
            | Some _ => on_create f
            end
  end.

(** The index after [col.delete()], whose error the build ignores. *)
Definition after_clear (f : faults) (old : index) : index :=
  match on_delete f with
  | None => []
  | Some _ => old
  end.

(** The entries a rebuild inserts for [df] when the embedder gives
    [embeddings] for its documents. *)
Definition new_entries (df : DataFrame) (embeddings : list vector) : index :=
  let items := collect_items 0 df in
  zip_entries (map item_id items) embeddings (map item_doc items) (map item_meta items).

(** The passage made of an entry. *)
Definition passage_of (e : entry) : passage :=
  mk_passage (entry_document e) (entry_metadata e).

(** [a] is at least as near to [q] as [b]. *)
Definition at_least_as_near (d : deployment) (q : vector) (a b : entry) : Prop :=
  (similarity d q (entry_embedding b) <= similarity d q (entry_embedding a))%Z.

(** *** Sample deployments *)

Definition sample_rows : DataFrame :=
  [ [(u "name", CStr (u "Aspirin")); (u "productuses", CStr (u "Pain relief"));
     (u "howworks", CStr (u "Blocks prostaglandin synthesis"))];
    [(u "name", CStr (u "Cetirizine")); (u "productuses", CStr (u "Allergy"));
     (u "howworks", CStr (u "Blocks histamine receptors"))] ].

Definition old_index : index :=
  [ mk_entry (u "7") [1%Z] (u "Ibuprofen Fever") [(u "name", CStr (u "Ibuprofen"))] ].

(** A chat model that writes a query when asked for SQL and an answer
    otherwise. *)
Definition sample_llm (prompt : str) : result str :=
  if startswith (u "system: You write SQL") prompt
  then Ok (u "Sure: SELECT name FROM mid_drugs WHERE name LIKE '%Aspirin%' LIMIT 10;")
  else Ok (u "Aspirin is used for pain relief.").

(** A chat model that is gone by the time the answer is asked for. *)
Definition fading_llm (prompt : str) : result str :=
  if startswith (u "system: You write SQL") prompt
  then Ok (u "SELECT name FROM mid_drugs LIMIT 10;")
  else Err (u "Connection refused").

Definition sample_embedder (text : str) : result vector := Ok [4%Z; 2%Z].

Definition sample_store (sql : str) : result DataFrame := Ok sample_rows.

Definition broken_store (sql : str) : result DataFrame :=
  Err (u "no such table: mid_drugs").

(** Nearer is a smaller gap between the first components. *)
Definition sample_similarity (q v : vector) : Z :=
  (- Z.abs (hd 0 q - hd 0 v))%Z.

Definition healthy : deployment :=
  mk_deployment sample_llm sample_embedder sample_store sample_similarity no_faults.

Definition store_down : deployment :=
  mk_deployment sample_llm sample_embedder broken_store sample_similarity no_faults.

(** The vector store cannot be reached at all. *)
Definition index_down : deployment :=
  let e := Some (u "Could not connect to the vector store") in
  mk_deployment sample_llm sample_embedder sample_store sample_similarity
                (mk_faults e e e e e e).

Definition chat_down : deployment :=
  mk_deployment fading_llm sample_embedder sample_store sample_similarity no_faults.

(** The collection is not there yet; it can be created. *)
Definition first_run : deployment :=
  mk_deployment sample_llm sample_embedder sample_store sample_similarity
                (mk_faults None (Some (u "Collection mid_vectors does not exist."))
                           None None None None).

(** An embedder that answers for the first document only. *)
Definition second_refused (text : str) : result vector :=
  if startswith (u "Aspirin") text then Ok [4%Z; 2%Z]
  else Err (u "model not loaded").

Definition embedder_fading : deployment :=
  mk_deployment sample_llm second_refused sample_store sample_similarity no_faults.

(** [col.delete()] without arguments is refused. *)
Definition delete_refused : deployment :=
  mk_deployment sample_llm sample_embedder sample_store sample_similarity
                (mk_faults None None None
                           (Some (u "delete() needs ids or a filter")) None None).

(* ================================================================= *)
(** ** Loading the spreadsheet: column names *)

(** [c.strip().lower().replace(" ", "").replace("_", "")] *)
Definition normalize_column (c : str) : str :=
  remove_char 95 (remove_char 32 (lower (strip c))).

(** A dict from string to string, as the list of its items. *)
Definition dict : Type := list (str * str).

(** [d.get(k)] *)
Fixpoint dict_get (k : str) (d : dict) : option str :=
  match d with
  | [] => None
  | (k', v) :: rest => if str_eqb k' k then Some v else dict_get k rest
  end.

(** [d[k] = v] *)
Fixpoint dict_set (k v : str) (d : dict) : dict :=
  match d with
  | [] => [(k, v)]
  | (k', v') :: rest =>
      if str_eqb k' k then (k, v) :: rest else (k', v') :: dict_set k v rest
  end.

(** The inner loop of the column mapping: [col] against every expected
    name. *)
Definition map_column (expected_columns : list str) (col_map : dict)
                      (col : str) : dict :=
  fold_left (fun m expected =>
               if str_eqb col (remove_char 95 expected)
               then dict_set col expected m else m)
            expected_columns col_map.

(** The expected name that the loop leaves for [col]: the last one whose
    name without underscores is [col]. *)
Definition last_match (expected_columns : list str) (col : str)
  : option str :=
  fold_left (fun found expected =>
               if str_eqb col (remove_char 95 expected)
               then Some expected else found)
            expected_columns None.

(** The dict [col_map] of [load_mid_to_sqlite], for the normalized
    columns of the sheet. *)
Definition build_col_map (columns : list str) : dict :=
  fold_left (map_column EXPECTED_COLUMNS) columns [].

(** [df.rename(columns=col_map)], on the column labels. *)
Definition rename_columns (col_map : dict) (columns : list str) : list str :=
  map (fun c => match dict_get c col_map with Some e => e | None => c end) columns.

(** [[c for c in EXPECTED_COLUMNS if c in df.columns]] *)
Definition kept_columns (columns : list str) : list str :=
  filter (fun c => existsb (str_eqb c) columns) EXPECTED_COLUMNS.

(** [df[labels]], on the column labels: for each label in turn, every
    column of the frame that carries it. *)
Definition select_columns (columns labels : list str) : list str :=
  flat_map (fun l => filter (str_eqb l) columns) labels.

(** The column labels of the frame that [load_mid_to_sqlite] hands to
    [to_sql], for a sheet with the given headers. *)
Definition loaded_columns (headers : list str) : list str :=
  let columns := map normalize_column headers in
  let renamed := rename_columns (build_col_map columns) columns in
  select_columns renamed (kept_columns renamed).

(** How many headers of the sheet name the expected column [e], once
    white space at the ends, letter case, spaces and underscores are set
    aside. *)
Definition headers_naming (headers : list str) (e : str) : nat :=
  List.length (filter (fun h => str_eqb (normalize_column h) (remove_char 95 e))
                      headers).

(* ================================================================= *)
(** ** Lower-case forms, code point by code point *)

(** [l] is a lower-case form of [s]: each code point gives its lower-case
    form, and a capital sigma may give either small sigma.  [s.lower()] is
    one of them, whatever stands around [s]. *)
Inductive lowered : str -> str -> Prop :=
| lowered_nil : lowered [] []
| lowered_cons c s img l :
    img = lower_cp c \/ (c = 931%N /\ img = [962%N]) ->
    lowered s l ->
    lowered (c :: s) (img ++ l).

(** A small ASCII letter that is the lower-case form of its capital only:
    all but [i] (U+0130 begins with it) and [k] (the Kelvin sign). *)
Definition plain_small (x : N) : bool :=
  between 97 122 x && negb (x =? 105)%N && negb (x =? 107)%N.

(** The code points of a run, listed. *)
Definition run_members (r : N * N * N * N) : list N :=
  let '(first, last, step, _) := r in
  map (fun k => (first + step * N.of_nat k)%N)
      (seq 0 (S (N.to_nat ((last - first) / step)))).

(* ================================================================= *)
(** * Properties *)

(** ** Strings *)

Lemma append_assoc (a b c : str) : (a ++ b) ++ c = a ++ b ++ c.
Proof. symmetry. apply app_assoc. Qed.

Lemma str_eqb_eq (a b : str) : str_eqb a b = true <-> a = b.
Proof.
  revert b; induction a as [|x a IH]; intros [|y b]; simpl;
    try (split; [discriminate | discriminate]); [split; reflexivity|].
  rewrite andb_true_iff, N.eqb_eq, IH. split.
  - intros [-> ->]. reflexivity.
  - intros [= -> ->]. split; reflexivity.
Qed.

Lemma str_eqb_refl (a : str) : str_eqb a a = true.
Proof. now apply str_eqb_eq. Qed.

Lemma str_eqb_neq (a b : str) : str_eqb a b = false <-> a <> b.
Proof.
  rewrite <- str_eqb_eq. destruct (str_eqb a b); split; congruence.
Qed.

Lemma str_eqb_sym (a b : str) : str_eqb a b = str_eqb b a.
Proof.
  destruct (str_eqb a b) eqn:H.
  - apply str_eqb_eq in H as ->. symmetry. apply str_eqb_refl.
  - symmetry. apply str_eqb_neq. apply str_eqb_neq in H. congruence.
Qed.

Lemma N_of_ascii_inj (a b : ascii) : N_of_ascii a = N_of_ascii b -> a = b.
Proof. intros H. rewrite <- (ascii_N_embedding a), <- (ascii_N_embedding b). now rewrite H. Qed.

(** Distinct literals are distinct texts. *)
Lemma u_inj (a b : string) : u a = u b -> a = b.
Proof.
  unfold u. revert b; induction a as [|x a IH]; intros [|y b]; simpl;
    try discriminate; [reflexivity|].
  intros [= Hx Hab]. apply N_of_ascii_inj in Hx as ->. now rewrite (IH b Hab).
Qed.

Lemma startswith_iff (p s : str) :
  startswith p s = true <-> exists r, s = p ++ r.
Proof.
  revert s; induction p as [|a p IH]; intros s; simpl.
  - split; [intros _; now exists s | reflexivity].
  - destruct s as [|b s].
    + split; [discriminate | intros [r Hr]; discriminate].
    + rewrite andb_true_iff, N.eqb_eq, IH. split.
      * intros [-> [r ->]]. now exists r.
      * intros [r Hr]. injection Hr as -> ->. split; [reflexivity | now exists r].
Qed.

Lemma occurs_at_0 (sub s : str) :
  occurs_at sub s 0 <-> startswith sub s = true.
Proof.
  rewrite startswith_iff. split.
  - intros (pre & post & -> & Hlen). destruct pre; [|discriminate]. now exists post.
  - intros [r ->]. exists [], r. split; reflexivity.
Qed.

Lemma occurs_at_S (sub : str) (c : N) (s : str) (i : nat) :
  occurs_at sub (c :: s) (S i) <-> occurs_at sub s i.
Proof.
  split.
  - intros (pre & post & Heq & Hlen). destruct pre as [|x pre]; [discriminate|].
    simpl in Heq, Hlen. injection Heq as -> ->. injection Hlen as Hlen.
    now exists pre, post.
  - intros (pre & post & -> & Hlen). exists (c :: pre), post.
    simpl. now rewrite Hlen.
Qed.

Lemma occurs_at_empty_S (sub : str) (i : nat) : ~ occurs_at sub [] (S i).
Proof. intros (pre & post & Heq & Hlen). destruct pre; discriminate. Qed.

(** [find_index] returns exactly the first occurrence. *)
Lemma find_index_Some (sub s : str) (i : nat) :
  find_index sub s = Some i <-> first_occurrence sub s i.
Proof.
  revert i; induction s as [|c s IH]; intros i.
  - simpl. destruct (startswith sub []) eqn:Hp.
    + split.
      * intros [= <-]. split; [now apply occurs_at_0 | intros j Hj; lia].
      * intros [Hi _]. destruct i; [reflexivity|]. now apply occurs_at_empty_S in Hi.
    + split; [discriminate|]. intros [Hi _]. destruct i.
      * apply occurs_at_0 in Hi. congruence.
      * now apply occurs_at_empty_S in Hi.
  - cbn [find_index]. destruct (startswith sub (c :: s)) eqn:Hp.
    + split.
      * intros [= <-]. split; [now apply occurs_at_0 | intros j Hj; lia].
      * intros [_ Hmin]. destruct i; [reflexivity|].
        exfalso. apply (Hmin 0); [lia | now apply occurs_at_0].
    + destruct i.
      * split.
        -- destruct (find_index sub s); discriminate.
        -- intros [Hi _]. apply occurs_at_0 in Hi. congruence.
      * split.
        -- destruct (find_index sub s) as [j|] eqn:Hf; [|discriminate].
           simpl. intros [= ->]. destruct (proj1 (IH i) eq_refl) as [Hi Hmin]. split.
           ++ now apply occurs_at_S.
           ++ intros [|j] Hj Hocc.
              ** apply occurs_at_0 in Hocc. congruence.
              ** apply occurs_at_S in Hocc. apply (Hmin j); [lia | assumption].
        -- intros [Hi Hmin]. apply occurs_at_S in Hi.
           assert (Hf : find_index sub s = Some i).
           { apply IH. split; [assumption|]. intros j Hj Hocc.
             apply (Hmin (S j)); [lia | now apply occurs_at_S]. }
           now rewrite Hf.
Qed.

Lemma occurs_has_first (sub s : str) (i : nat) :
  occurs_at sub s i -> exists j, first_occurrence sub s j.
Proof.
  revert i; induction s as [|c s IH]; intros i Hi.
  - destruct i; [|now apply occurs_at_empty_S in Hi].
    exists 0. split; [assumption | intros j Hj; lia].
  - destruct (startswith sub (c :: s)) eqn:Hp.
    + exists 0. split; [now apply occurs_at_0 | intros j Hj; lia].
    + destruct i.
      * apply occurs_at_0 in Hi. congruence.
      * apply occurs_at_S in Hi. destruct (IH _ Hi) as [j [Hj Hmin]].
        exists (S j). split; [now apply occurs_at_S|].
        intros [|k] Hk Hocc.
        -- apply occurs_at_0 in Hocc. congruence.
        -- apply occurs_at_S in Hocc. apply (Hmin k); [lia | assumption].
Qed.

Lemma find_index_None (sub s : str) :
  find_index sub s = None <-> ~ occurs sub s.
Proof.
  split.
  - intros Hf [i Hi]. destruct (occurs_has_first _ _ _ Hi) as [j Hj].
    apply find_index_Some in Hj. congruence.
  - intros Hno. destruct (find_index sub s) as [i|] eqn:Hf; [|reflexivity].
    exfalso. apply Hno. exists i. now apply find_index_Some in Hf as [Hi _].
Qed.

Lemma contains_iff (sub s : str) : contains sub s = true <-> occurs sub s.
Proof.
  unfold contains. destruct (find_index sub s) as [i|] eqn:Hf.
  - split; [intros _ | reflexivity].
    exists i. now apply find_index_Some in Hf as [Hi _].
  - split; [discriminate|]. intros Hocc. now apply find_index_None in Hf.
Qed.

Lemma contains_false_iff (sub s : str) : contains sub s = false <-> ~ occurs sub s.
Proof.
  rewrite <- contains_iff. destruct (contains sub s); split; congruence.
Qed.

Lemma drop_append_length (a b : str) : drop (List.length a) (a ++ b) = b.
Proof. induction a as [|x a IH]; simpl; [now destruct b | assumption]. Qed.

Lemma take_append_length (a b : str) : take (List.length a) (a ++ b) = a.
Proof. induction a as [|x a IH]; simpl; [now destruct b | now rewrite IH]. Qed.

Lemma take_drop (n : nat) (s : str) : take n s ++ drop n s = s.
Proof.
  revert s; induction n as [|n IH]; intros s; [reflexivity|].
  destruct s as [|c s]; [reflexivity|]. simpl. now rewrite IH.
Qed.

Lemma length_take (n : nat) (s : str) :
  n <= List.length s -> List.length (take n s) = n.
Proof.
  revert s; induction n as [|n IH]; intros s Hn; [reflexivity|].
  destruct s as [|c s]; simpl in *; [lia|]. rewrite IH; [reflexivity | lia].
Qed.

Lemma length_take_le (n : nat) (s : str) : List.length (take n s) <= n.
Proof.
  revert s; induction n as [|n IH]; intros [|c s]; simpl; try lia.
  specialize (IH s). lia.
Qed.

Lemma take_all (n : nat) (s : str) : List.length s <= n -> take n s = s.
Proof.
  revert s; induction n as [|n IH]; intros [|c s] Hn; simpl in *;
    try reflexivity; [lia|]. rewrite IH; [reflexivity | lia].
Qed.

(** A shorter prefix is part of a longer one. *)
Lemma take_shorter (j i : nat) (s : str) (c : N) :
  j <= i -> In c (take j s) -> In c (take i s).
Proof.
  revert i s; induction j as [|j IH]; intros i s Hji; [intros []|].
  destruct i as [|i]; [lia|]. destruct s as [|x s]; [intros []|].
  simpl. intros [-> | Hin]; [now left | right]. apply IH; [lia | exact Hin].
Qed.

Lemma occurs_at_bound (sub s : str) (i : nat) :
  occurs_at sub s i -> i + List.length sub <= List.length s.
Proof. intros (pre & post & -> & <-). rewrite !length_app. lia. Qed.

(** An occurrence at [i] is a prefix of what is left after [i] code points. *)
Lemma occurs_at_drop (sub s : str) (i : nat) :
  occurs_at sub s i <-> i <= List.length s /\ startswith sub (drop i s) = true.
Proof.
  split.
  - intros Hocc. split; [apply occurs_at_bound in Hocc; lia|].
    destruct Hocc as (pre & post & -> & <-).
    rewrite drop_append_length. apply startswith_iff. now exists post.
  - intros [Hi Hs]. apply startswith_iff in Hs as [post Hpost].
    exists (take i s), post. split; [|now apply length_take].
    rewrite <- Hpost. symmetry. apply take_drop.
Qed.

Lemma rstrip_cons_nonspace (c : N) (s : str) :
  isspace c = false -> rstrip (c :: s) = c :: rstrip s.
Proof. intros Hc. simpl. rewrite Hc. now destruct (rstrip s). Qed.

Lemma rstrip_idempotent (s : str) : rstrip (rstrip s) = rstrip s.
Proof.
  induction s as [|c s IH]; [reflexivity|].
  cbn [rstrip]. destruct (rstrip s) as [|d r] eqn:Hr.
  - destruct (isspace c) eqn:Hc; [reflexivity|].
    cbn [rstrip]. now rewrite Hc.
  - cbn [rstrip]. cbn [rstrip] in IH. now rewrite IH.
Qed.

Lemma lstrip_rstrip_lstrip (s : str) :
  lstrip (rstrip (lstrip s)) = rstrip (lstrip s).
Proof.
  induction s as [|c s IH]; [reflexivity|].
  cbn [lstrip]. destruct (isspace c) eqn:Hc; [exact IH|].
  rewrite rstrip_cons_nonspace by exact Hc. cbn [lstrip]. now rewrite Hc.
Qed.

Lemma strip_idempotent (s : str) : strip (strip s) = strip s.
Proof. unfold strip. now rewrite lstrip_rstrip_lstrip, rstrip_idempotent. Qed.

Lemma length_lstrip (s : str) : List.length (lstrip s) <= List.length s.
Proof.
  induction s as [|c s IH]; simpl; [lia|]. destruct (isspace c); simpl; lia.
Qed.

Lemma length_rstrip (s : str) : List.length (rstrip s) <= List.length s.
Proof.
  induction s as [|c s IH]; simpl; [lia|].
  destruct (rstrip s); [destruct (isspace c)|]; simpl in *; lia.
Qed.

Lemma length_strip (s : str) : List.length (strip s) <= List.length s.
Proof.
  unfold strip. pose proof (length_rstrip (lstrip s)). pose proof (length_lstrip s).
  lia.
Qed.

(* ================================================================= *)
(** ** Case data *)

Ltac nbool H :=
  repeat first [ rewrite andb_true_iff in H | rewrite orb_true_iff in H
               | rewrite negb_true_iff in H
               | rewrite N.leb_le in H | rewrite N.ltb_lt in H
               | rewrite N.eqb_eq in H | rewrite N.eqb_neq in H ].

Lemma below_128 (c : N) : (c < 128)%N -> In c (map N.of_nat (seq 0 128)).
Proof.
  intros H. apply in_map_iff. exists (N.to_nat c).
  split; [apply N2Nat.id | apply in_seq; lia].
Qed.

(** Only ASCII and the Kelvin sign have a lower-case form in ASCII. *)
Lemma lower_one_small (c : N) :
  (lower_one c < 128)%N -> (c < 128)%N \/ c = 8490%N.
Proof.
  unfold lower_one.
  destruct (List.find (in_run c) lower_runs) as [[[[first last] step] image]|] eqn:Hf;
    [|now left].
  apply find_some in Hf as [Hin Hrun].
  assert (Hall : forallb (fun r : N * N * N * N =>
                            let '(first, last, _, image) := r in
                            (128 <=? image)%N || (last <? 128)%N
                            || ((first =? 8490)%N && (last =? 8490)%N))
                         lower_runs = true) by (vm_compute; reflexivity).
  rewrite forallb_forall in Hall. specialize (Hall _ Hin). cbn in Hall.
  unfold in_run in Hrun. nbool Hrun. nbool Hall. lia.
Qed.

Lemma plain_small_ascii (x : N) : plain_small x = true -> (x < 128)%N.
Proof. unfold plain_small, between. intros H. nbool H. lia. Qed.

(** A lower-case form that begins with a plain small letter is that letter
    alone, and comes from the letter or its capital. *)
Lemma lower_cp_plain (c x : N) (rest : str) :
  plain_small x = true -> lower_cp c = x :: rest ->
  rest = [] /\ (c = x \/ c = (x - 32)%N).
Proof.
  intros Hx. unfold lower_cp. destruct (c =? 304)%N eqn:Hc.
  - intros [= <- <-]. discriminate.
  - intros [= Hl <-]. split; [reflexivity|].
    assert (Hsmall : (lower_one c < 128)%N)
      by (rewrite Hl; now apply plain_small_ascii).
    destruct (lower_one_small c Hsmall) as [Hlt | ->].
    + assert (Hall : forallb (fun c => implb (plain_small (lower_one c))
                                          ((c =? lower_one c)%N
                                           || (c =? lower_one c - 32)%N))
                             (map N.of_nat (seq 0 128)) = true)
        by (vm_compute; reflexivity).
      rewrite forallb_forall in Hall. specialize (Hall _ (below_128 c Hlt)).
      rewrite Hl, Hx in Hall. cbn [implb] in Hall. nbool Hall. exact Hall.
    + rewrite <- Hl in Hx. discriminate.
Qed.

(** A plain small letter and its capital have that letter as lower-case
    form; neither is a capital sigma or white space. *)
Lemma plain_small_forms (x c : N) :
  plain_small x = true -> c = x \/ c = (x - 32)%N ->
  lower_cp c = [x] /\ c <> 931%N /\ isspace c = false.
Proof.
  intros Hx Hc.
  assert (Hall : forallb (fun x => implb (plain_small x)
                            (str_eqb (lower_cp x) [x]
                             && str_eqb (lower_cp (x - 32)) [x]
                             && negb (isspace x) && negb (isspace (x - 32))
                             && negb (x =? 931)%N && negb (x - 32 =? 931)%N))
                         (map N.of_nat (seq 0 128)) = true)
    by (vm_compute; reflexivity).
  rewrite forallb_forall in Hall.
  specialize (Hall _ (below_128 x (plain_small_ascii x Hx))).
  rewrite Hx in Hall. cbn [implb] in Hall.
  repeat (apply andb_true_iff in Hall as [Hall ?]).
  repeat match goal with
         | H : negb _ = true |- _ => apply negb_true_iff in H
         | H : str_eqb _ _ = true |- _ => apply str_eqb_eq in H
         | H : (_ =? _)%N = false |- _ => apply N.eqb_neq in H
         end.
  destruct Hc as [-> | ->]; repeat split; assumption.
Qed.

Lemma lower_cp_sigma : lower_cp 931 = [963%N].
Proof. vm_compute. reflexivity. Qed.

(** [s.lower()] is a lower-case form of [s], whatever stands before it. *)
Lemma lower_from_lowered (before s : str) : lowered s (lower_from before s).
Proof.
  revert before; induction s as [|c s IH]; intros before; [constructor|].
  cbn [lower_from]. constructor; [|apply IH].
  destruct (c =? 931)%N eqn:Hc; [|now left].
  apply N.eqb_eq in Hc as ->.
  destruct (final_sigma before s); [right; now split | left].
  now rewrite lower_cp_sigma.
Qed.

Lemma lower_lowered (s : str) : lowered s (lower s).
Proof. apply lower_from_lowered. Qed.

Lemma lowered_nil_inv (l : str) : lowered [] l -> l = [].
Proof. intros H. now inversion H. Qed.

Lemma lowered_app (a b l : str) :
  lowered (a ++ b) l -> exists la lb, l = la ++ lb /\ lowered a la /\ lowered b lb.
Proof.
  revert l; induction a as [|c a IH]; intros l H.
  - exists [], l. repeat split; [constructor | exact H].
  - cbn [app] in H. inversion H as [|c' s' img l0 Himg Hl0]; subst.
    destruct (IH _ Hl0) as (la & lb & -> & Ha & Hb).
    exists (img ++ la), lb. rewrite append_assoc.
    repeat split; [now constructor | exact Hb].
Qed.

(** Without U+0130, lower-casing keeps the length. *)
Lemma lowered_length (a la : str) :
  lowered a la -> ~ In 304%N a -> List.length la = List.length a.
Proof.
  induction 1 as [|c s img l Himg Hl IH]; intros Hno; [reflexivity|].
  rewrite length_app. cbn [List.length].
  rewrite IH by (intros Hin; apply Hno; now right).
  destruct Himg as [-> | [_ ->]]; [|reflexivity].
  unfold lower_cp. destruct (c =? 304)%N eqn:Hc; [|reflexivity].
  apply N.eqb_eq in Hc. exfalso. apply Hno. now left.
Qed.

Lemma lowered_cons_nonempty (c : N) (s l : str) :
  lowered (c :: s) l ->
  exists x rest l0,
    l = (x :: rest) ++ l0 /\ lowered s l0
    /\ (x :: rest = lower_cp c \/ (c = 931%N /\ x :: rest = [962%N])).
Proof.
  intros H. inversion H as [|c' s' img l0 Himg Hl0]; subst.
  destruct img as [|x rest].
  - destruct Himg as [Himg | [_ Himg]]; [|discriminate].
    unfold lower_cp in Himg. destruct (c =? 304)%N; discriminate.
  - exists x, rest, l0. repeat split; assumption.
Qed.

(** Where a lower-case form begins with a word of plain letters, the text
    reads that word. *)
Lemma lowered_reads (word s l : str) :
  forallb plain_small word = true ->
  lowered s l -> startswith word l = true -> reads word s = true.
Proof.
  revert s l; induction word as [|x word IH]; intros s l Hw Hl Hs; [reflexivity|].
  cbn [forallb] in Hw. apply andb_true_iff in Hw as [Hx Hw].
  destruct l as [|y l]; [discriminate|].
  cbn [startswith] in Hs. apply andb_true_iff in Hs as [Hxy Hs].
  apply N.eqb_eq in Hxy as <-.
  destruct s as [|c s]; [apply lowered_nil_inv in Hl; discriminate|].
  apply lowered_cons_nonempty in Hl as (x' & rest & l0 & Heq & Hl0 & Himg).
  cbn [app] in Heq. injection Heq as <- ->.
  destruct Himg as [Himg | [_ Himg]].
  - symmetry in Himg. destruct (lower_cp_plain c x rest Hx Himg) as [-> Hc].
    cbn [reads]. apply andb_true_iff. split.
    + apply orb_true_iff. destruct Hc as [-> | ->];
        [left | right]; apply N.eqb_refl.
    + now apply (IH s l0).
  - injection Himg as -> ->. discriminate.
Qed.

(** Where the text reads a word of plain letters, every lower-case form
    begins with it. *)
Lemma reads_lowered (word s l : str) :
  forallb plain_small word = true ->
  reads word s = true -> lowered s l -> startswith word l = true.
Proof.
  revert s l; induction word as [|x word IH]; intros s l Hw Hr Hl; [reflexivity|].
  cbn [forallb] in Hw. apply andb_true_iff in Hw as [Hx Hw].
  destruct s as [|c s]; [discriminate|].
  cbn [reads] in Hr. apply andb_true_iff in Hr as [Hc Hr].
  assert (Hc' : c = x \/ c = (x - 32)%N)
    by (apply orb_true_iff in Hc as [Hc | Hc]; apply N.eqb_eq in Hc; auto).
  destruct (plain_small_forms x c Hx Hc') as (Hform & Hsigma & _).
  inversion Hl as [|c' s' img l0 Himg Hl0]; subst.
  destruct Himg as [-> | [Hc931 _]]; [|contradiction].
  rewrite Hform. cbn [app startswith]. rewrite N.eqb_refl.
  now apply (IH s l0).
Qed.

Lemma reads_rstrip (word s : str) :
  forallb plain_small word = true ->
  reads word s = true -> reads word (rstrip s) = true.
Proof.
  revert s; induction word as [|x word IH]; intros s Hw Hr; [reflexivity|].
  cbn [forallb] in Hw. apply andb_true_iff in Hw as [Hx Hw].
  destruct s as [|c s]; [discriminate|].
  cbn [reads] in Hr. apply andb_true_iff in Hr as [Hc Hr].
  assert (Hc' : c = x \/ c = (x - 32)%N)
    by (apply orb_true_iff in Hc as [Hc' | Hc']; apply N.eqb_eq in Hc'; auto).
  destruct (plain_small_forms x c Hx Hc') as (_ & _ & Hspace).
  rewrite rstrip_cons_nonspace by exact Hspace.
  cbn [reads]. rewrite Hc. now apply IH.
Qed.

(** Trimming keeps a leading word. *)
Lemma reads_strip (word s : str) :
  forallb plain_small word = true ->
  reads word s = true -> reads word (strip s) = true.
Proof.
  intros Hw Hr. unfold strip. destruct word as [|x word]; [reflexivity|].
  destruct s as [|c s]; [discriminate|].
  assert (Hspace : isspace c = false).
  { cbn [forallb] in Hw. apply andb_true_iff in Hw as [Hx _].
    cbn [reads] in Hr. apply andb_true_iff in Hr as [Hc _].
    assert (Hc' : c = x \/ c = (x - 32)%N)
      by (apply orb_true_iff in Hc as [Hc' | Hc']; apply N.eqb_eq in Hc'; auto).
    now destruct (plain_small_forms x c Hx Hc') as (_ & _ & Hspace). }
  cbn [lstrip]. rewrite Hspace. now apply reads_rstrip.
Qed.

Lemma first_reading_Some (word s : str) (i : nat) :
  first_reading word s = Some i <->
  i <= List.length s /\ reads word (drop i s) = true
  /\ forall j, j < i -> reads word (drop j s) = false.
Proof.
  revert i; induction s as [|c s IH]; intros i.
  - cbn [first_reading]. destruct (reads word []) eqn:Hr.
    + split.
      * intros [= <-]. repeat split; [lia | exact Hr | intros j Hj; lia].
      * intros (Hi & _ & _). simpl in Hi. now replace i with 0 by lia.
    + split; [discriminate|]. intros (Hi & Hri & _). simpl in Hi.
      replace i with 0 in Hri by lia. simpl in Hri. congruence.
  - cbn [first_reading]. destruct (reads word (c :: s)) eqn:Hr.
    + split.
      * intros [= <-]. repeat split; [simpl; lia | exact Hr | intros j Hj; lia].
      * intros (_ & _ & Hmin). destruct i; [reflexivity|].
        specialize (Hmin 0 ltac:(lia)). simpl in Hmin. congruence.
    + destruct i.
      * split; [destruct (first_reading word s); discriminate|].
        intros (_ & Hri & _). simpl in Hri. congruence.
      * split.
        -- destruct (first_reading word s) as [j|] eqn:Hf; [|discriminate].
           simpl. intros [= ->]. destruct (proj1 (IH i) eq_refl) as (Hi & Hri & Hmin).
           repeat split; [simpl; lia | exact Hri|].
           intros [|j] Hj; [exact Hr | apply Hmin; lia].
        -- intros (Hi & Hri & Hmin).
           assert (Hf : first_reading word s = Some i).
           { apply IH. repeat split; [simpl in Hi; lia | exact Hri|].
             intros j Hj. apply (Hmin (S j)). lia. }
           now rewrite Hf.
Qed.

(** As long as no U+0130 stands before it, an index of the lower-cased
    text is the same place of the text itself. *)
Lemma reading_at_occurrence (word text : str) (j : nat) :
  forallb plain_small word = true ->
  ~ In 304%N (take j text) ->
  occurs_at word (lower text) j <->
  j <= List.length text /\ reads word (drop j text) = true.
Proof.
  intros Hw Hno.
  pose proof (lower_lowered text) as Hl.
  rewrite <- (take_drop j text) in Hl at 1.
  apply lowered_app in Hl as (la & lb & Hlow & Ha & Hb).
  pose proof (lowered_length _ _ Ha Hno) as Hlen.
  rewrite occurs_at_drop, Hlow. split.
  - intros [Hj Hs]. rewrite length_app in Hj.
    assert (Hjt : j <= List.length text).
    { destruct (Nat.le_gt_cases j (List.length text)) as [H|H]; [exact H|].
      exfalso.
      assert (Hd : drop j text = []).
      { pose proof (take_drop j text) as Htd.
        rewrite take_all in Htd by lia.
        rewrite <- (app_nil_r text) in Htd at 3.
        now apply app_inv_head in Htd. }
      rewrite Hd in Hb. apply lowered_nil_inv in Hb. subst lb.
      rewrite take_all in Hlen by lia. simpl in Hj. lia. }
    split; [exact Hjt|].
    rewrite length_take in Hlen by exact Hjt.
    rewrite <- Hlen, drop_append_length in Hs.
    now apply (lowered_reads word _ lb).
  - intros [Hj Hr]. rewrite length_take in Hlen by exact Hj.
    subst j. rewrite length_app, drop_append_length.
    split; [lia|]. eapply reads_lowered; eassumption.
Qed.

(** The first [word] of the lower-cased text and the first reading of
    [word] in the text are at the same index, when no U+0130 stands
    before it. *)
Lemma find_index_first_reading (word text : str) (i : nat) :
  forallb plain_small word = true ->
  ~ In 304%N (take i text) ->
  find_index word (lower text) = Some i <-> first_reading word text = Some i.
Proof.
  intros Hw Hno.
  assert (Hshort : forall j, j <= i -> ~ In 304%N (take j text))
    by (intros j Hj Hin; apply Hno; now apply (take_shorter j i)).
  rewrite find_index_Some, first_reading_Some. unfold first_occurrence. split.
  - intros [Hocc Hmin].
    apply (reading_at_occurrence word text i Hw Hno) in Hocc as [Hi Hr].
    repeat split; [exact Hi | exact Hr|].
    intros j Hj. destruct (reads word (drop j text)) eqn:Hrj; [|reflexivity].
    exfalso. apply (Hmin j Hj).
    apply (reading_at_occurrence word text j Hw (Hshort j ltac:(lia))).
    split; [lia | exact Hrj].
  - intros (Hi & Hr & Hmin). split.
    + apply (reading_at_occurrence word text i Hw Hno). now split.
    + intros j Hj Hocc.
      apply (reading_at_occurrence word text j Hw (Hshort j ltac:(lia))) in Hocc
        as [_ Hrj].
      rewrite (Hmin j Hj) in Hrj. discriminate.
Qed.

(* ================================================================= *)
(** ** [extract_sql] *)

(** The function, with the index arithmetic resolved. *)
Lemma extract_sql_unfold (text : str) :
  extract_sql text =
  match find_index (u "select") (lower text) with
  | None => SAFE_DEFAULT
  | Some i =>
      let sql := strip (drop i text) in
      if contains (u " join ") (lower sql) then SAFE_DEFAULT
      else if contains (u "drug_name") (lower sql) then WILDCARD_DEFAULT
      else sql
  end.
Proof.
  unfold extract_sql, find, slice_from.
  destruct (find_index (u "select") (lower text)) as [i|]; [|reflexivity].
  replace (Z.of_nat i =? -1)%Z with false by (symmetry; apply Z.eqb_neq; lia).
  replace (Z.of_nat i <? 0)%Z with false by (symmetry; apply Z.ltb_ge; lia).
  now rewrite Nat2Z.id.
Qed.

Lemma select_is_plain : forallb plain_small (u "select") = true.
Proof. reflexivity. Qed.

Lemma no_select_iff (text : str) :
  find_index (u "select") (lower text) = None <-> ~ mentions (u "select") text.
Proof. apply find_index_None. Qed.

(** Where no U+0130 stands before the keyword, the index that
    [extract_sql] computes on the lower-cased text is the place where the
    text itself first reads the keyword. *)
Lemma select_tail_index (text head tail : str) :
  text = head ++ tail -> select_tail text tail -> ~ In 304%N head ->
  find_index (u "select") (lower text) = Some (List.length head)
  /\ tail = drop (List.length head) text.
Proof.
  intros Heq (i & Hi & Htail) Hno.
  pose proof (proj1 (first_reading_Some _ _ _) Hi) as (Hlen & _ & _).
  assert (Hhead : head = take i text).
  { pose proof (take_drop i text) as Htd. rewrite <- Htail in Htd.
    rewrite Heq in Htd at 2. now apply app_inv_tail in Htd. }
  assert (Hl : List.length head = i) by (rewrite Hhead; now apply length_take).
  rewrite Hl. split; [|exact Htail].
  apply find_index_first_reading; [apply select_is_plain | | exact Hi].
  now rewrite <- Hhead.
Qed.

Lemma index_select_tail (text : str) (i : nat) :
  find_index (u "select") (lower text) = Some i -> ~ In 304%N (take i text) ->
  select_tail text (drop i text) /\ reads (u "select") (strip (drop i text)) = true.
Proof.
  intros Hf Hno.
  apply (find_index_first_reading _ _ _ select_is_plain Hno) in Hf.
  split; [now exists i|].
  apply reads_strip; [apply select_is_plain|].
  now apply first_reading_Some in Hf as (_ & Hr & _).
Qed.

(** *** Join marker and missing keyword *)

(** C1, as the code has it: [extract_sql] returns the fixed safe default
    when the lower-cased candidate has no [select], and when the trimmed
    text of the candidate from index [idx] on contains [" join "]
    (case-insensitive), [idx] being the index of the first [select] in the
    lower-cased candidate; that index is the place where the candidate
    itself first reads [select] whenever no U+0130 stands before it. *)
Theorem extract_sql_join_or_no_select (text : str) :
  (~ mentions (u "select") text
   \/ (exists i, find_index (u "select") (lower text) = Some i
                 /\ mentions (u " join ") (strip (drop i text)))
   \/ (exists head tail, text = head ++ tail /\ select_tail text tail
                         /\ ~ In 304%N head
                         /\ mentions (u " join ") (strip tail))) ->
  extract_sql text = SAFE_DEFAULT.
Proof.
  intros H. rewrite extract_sql_unfold.
  destruct (find_index (u "select") (lower text)) as [i|] eqn:Hf; [|reflexivity].
  assert (Hjoin : mentions (u " join ") (strip (drop i text))).
  { destruct H as [Hno | [(j & Hj & Hjoin) | (head & tail & Heq & Htail & Hno & Hjoin)]].
    - exfalso. apply Hno. exists i. now apply find_index_Some in Hf as [Hi _].
    - assert (j = i) as -> by congruence. exact Hjoin.
    - destruct (select_tail_index _ _ _ Heq Htail Hno) as [Hidx ->].
      assert (List.length head = i) as <- by congruence. exact Hjoin. }
  cbv zeta. apply contains_iff in Hjoin. now rewrite Hjoin.
Qed.

Lemma extract_sql_join_or_no_select_witness :
  extract_sql (u "SELECT name FROM mid_drugs JOIN other") = SAFE_DEFAULT
  /\ extract_sql (u "Which drugs treat fever?") = SAFE_DEFAULT.
Proof.
  split.
  - apply extract_sql_join_or_no_select. right. right.
    exists [], (u "SELECT name FROM mid_drugs JOIN other").
    split; [reflexivity|]. split; [exists 0; split; reflexivity|].
    split; [intros []|]. apply contains_iff. vm_compute. reflexivity.
  - apply extract_sql_join_or_no_select. left.
    apply no_select_iff. vm_compute. reflexivity.
Defined.

(** C1 as worded fails.  When the only join marker ends the text, the text
    from [select] on contains [" join "] and the trimmed text does not.
    When U+0130 stands before the keyword, the index found in the
    lower-cased text lies further right in the text itself: after sixteen
    of them nothing of ["select a join b"] is left. *)
Lemma extract_sql_trailing_join_kept :
  (select_tail (u "SELECT name FROM mid_drugs JOIN ")
               (u "SELECT name FROM mid_drugs JOIN ")
   /\ mentions (u " join ") (u "SELECT name FROM mid_drugs JOIN ")
   /\ extract_sql (u "SELECT name FROM mid_drugs JOIN ")
      = u "SELECT name FROM mid_drugs JOIN"
   /\ extract_sql (u "SELECT name FROM mid_drugs JOIN ") <> SAFE_DEFAULT)
  /\ (select_tail (repeat 304%N 16 ++ u "select a join b") (u "select a join b")
      /\ mentions (u " join ") (u "select a join b")
      /\ extract_sql (repeat 304%N 16 ++ u "select a join b") = []
      /\ extract_sql (repeat 304%N 16 ++ u "select a join b") <> SAFE_DEFAULT).
Proof.
  split; (split; [|split; [|split]]).
  - exists 0. split; reflexivity.
  - apply contains_iff. vm_compute. reflexivity.
  - vm_compute. reflexivity.
  - vm_compute. discriminate.
  - exists 16. split; reflexivity.
  - apply contains_iff. vm_compute. reflexivity.
  - vm_compute. reflexivity.
  - vm_compute. discriminate.
Qed.

(** *** The [drug_name] check *)

(** C2: a filter on a column outside the schema other than [drug_name]
    passes through unchanged, and under a join the plain default is
    returned instead of the wildcard default. *)
Lemma extract_sql_unknown_column_kept :
  (filters_on_unknown_column (u "SELECT name FROM mid_drugs WHERE price > 5")
   /\ extract_sql (u "SELECT name FROM mid_drugs WHERE price > 5")
      = u "SELECT name FROM mid_drugs WHERE price > 5"
   /\ extract_sql (u "SELECT name FROM mid_drugs WHERE price > 5") <> WILDCARD_DEFAULT)
  /\ (filters_on_unknown_column
        (u "SELECT name FROM mid_drugs JOIN prices WHERE drug_name = 'Aspirin'")
      /\ extract_sql
           (u "SELECT name FROM mid_drugs JOIN prices WHERE drug_name = 'Aspirin'")
         = SAFE_DEFAULT).
Proof.
  split; [split; [|split] | split].
  - exists (u "price"). split; vm_compute; reflexivity.
  - vm_compute. reflexivity.
  - vm_compute. discriminate.
  - exists (u "drug_name"). split; vm_compute; reflexivity.
  - vm_compute. reflexivity.
Qed.

(** X21, the column guard that the code has: when the trimmed text of the
    candidate from index [idx] on mentions [drug_name], which is not a
    column of the schema, and has no [" join "] marker, [extract_sql]
    returns the wildcard default; [idx] is the index of the first [select]
    in the lower-cased candidate. *)
Theorem extract_sql_drug_name_wildcard (text : str) (i : nat) :
  find_index (u "select") (lower text) = Some i ->
  mentions (u "drug_name") (strip (drop i text)) ->
  ~ mentions (u " join ") (strip (drop i text)) ->
  extract_sql text = WILDCARD_DEFAULT /\ in_schema (u "drug_name") = false.
Proof.
  intros Hf Hcol Hjoin. split; [|vm_compute; reflexivity].
  rewrite extract_sql_unfold, Hf. cbv zeta.
  apply contains_iff in Hcol. apply contains_false_iff in Hjoin.
  now rewrite Hjoin, Hcol.
Qed.

Lemma extract_sql_drug_name_wildcard_witness :
  extract_sql (u "Here you go: SELECT * FROM mid_drugs WHERE drug_name = 'Aspirin';")
  = WILDCARD_DEFAULT
  /\ in_schema (u "drug_name") = false.
Proof.
  apply (extract_sql_drug_name_wildcard
           (u "Here you go: SELECT * FROM mid_drugs WHERE drug_name = 'Aspirin';") 13).
  - vm_compute. reflexivity.
  - apply contains_iff. vm_compute. reflexivity.
  - apply contains_false_iff. vm_compute. reflexivity.
Defined.

(** *** Shape of every result *)



(** *** Fixed point *)

(** C4: validating the safe default returns the safe default. *)
Theorem extract_sql_safe_default_fixed : extract_sql SAFE_DEFAULT = SAFE_DEFAULT.
Proof.
  rewrite extract_sql_unfold.
  change (find_index (u "select") (lower SAFE_DEFAULT)) with (Some 0).
  cbv zeta. reflexivity.
Qed.

(** *** Idempotence *)

(** X1: validating a validated query returns it unchanged, for every input
    in which no U+0130 stands before the first [select] of the lower-cased
    text. *)
Theorem extract_sql_idempotent (text : str) :
  keyword_in_place text ->
  extract_sql (extract_sql text) = extract_sql text.
Proof.
  intros Hplace. rewrite (extract_sql_unfold text).
  destruct (find_index (u "select") (lower text)) as [i|] eqn:Hf;
    [|vm_compute; reflexivity].
  cbv zeta.
  destruct (contains (u " join ") (lower (strip (drop i text)))) eqn:Hjoin;
    [vm_compute; reflexivity|].
  destruct (contains (u "drug_name") (lower (strip (drop i text)))) eqn:Hcol;
    [vm_compute; reflexivity|].
  rewrite extract_sql_unfold.
  assert (H0 : find_index (u "select") (lower (strip (drop i text))) = Some 0).
  { apply find_index_Some. split; [|intros j Hj; lia].
    apply occurs_at_0.
    apply (reads_lowered _ (strip (drop i text))); [apply select_is_plain | |
                                                    apply lower_lowered].
    now apply index_select_tail, Hplace. }
  rewrite H0. cbv zeta. cbn [drop].
  now rewrite strip_idempotent, Hjoin, Hcol.
Qed.

Lemma extract_sql_idempotent_witness :
  keyword_in_place (u "Sure: SELECT name FROM mid_drugs")
  /\ extract_sql (extract_sql (u "Sure: SELECT name FROM mid_drugs"))
     = extract_sql (u "Sure: SELECT name FROM mid_drugs").
Proof.
  assert (H : keyword_in_place (u "Sure: SELECT name FROM mid_drugs")).
  { intros i Hi. vm_compute in Hi. injection Hi as <-. vm_compute.
    intros H. repeat (destruct H as [H | H]; [discriminate|]). exact H. }
  split; [exact H | apply (extract_sql_idempotent _ H)].
Defined.

(** Where U+0130 stands before the keyword, a second validation may undo
    the first. *)
Lemma extract_sql_dotted_capital_i :
  extract_sql ([304; 304]%N ++ u " select 1") = u "lect 1"
  /\ extract_sql (extract_sql ([304; 304]%N ++ u " select 1")) = SAFE_DEFAULT.
Proof. split; vm_compute; reflexivity. Qed.

(** *** Precedence of the join check *)

(** C10, as the code has it: when the trimmed text of the candidate from
    index [idx] on mentions both [" join "] and [drug_name], [idx] being the
    index of the first [select] in the lower-cased candidate, the result is
    the plain safe default, not the wildcard default; that index is the
    place where the candidate itself first reads [select] whenever no
    U+0130 stands before it. *)
Theorem extract_sql_join_before_drug_name (text : str) :
  ((exists i, find_index (u "select") (lower text) = Some i
              /\ mentions (u " join ") (strip (drop i text))
              /\ mentions (u "drug_name") (strip (drop i text)))
   \/ (exists head tail, text = head ++ tail /\ select_tail text tail
                         /\ ~ In 304%N head
                         /\ mentions (u " join ") (strip tail)
                         /\ mentions (u "drug_name") (strip tail))) ->
  extract_sql text = SAFE_DEFAULT /\ extract_sql text <> WILDCARD_DEFAULT.
Proof.
  intros H.
  assert (Hsafe : extract_sql text = SAFE_DEFAULT).
  { rewrite extract_sql_unfold.
    destruct H as [(i & Hf & Hjoin & _) | (head & tail & Heq & Htail & Hno & Hjoin & _)].
    - rewrite Hf. cbv zeta. apply contains_iff in Hjoin. now rewrite Hjoin.
    - destruct (select_tail_index _ _ _ Heq Htail Hno) as [Hidx ->].
      rewrite Hidx. cbv zeta. apply contains_iff in Hjoin. now rewrite Hjoin. }
  split; [exact Hsafe | rewrite Hsafe; vm_compute; discriminate].
Qed.

Lemma extract_sql_join_before_drug_name_witness :
  extract_sql (u "select drug_name from mid_drugs join other on 1 = 1") = SAFE_DEFAULT
  /\ extract_sql (u "select drug_name from mid_drugs join other on 1 = 1")
     <> WILDCARD_DEFAULT.
Proof.
  apply extract_sql_join_before_drug_name. right.
  exists [], (u "select drug_name from mid_drugs join other on 1 = 1").
  split; [reflexivity|]. split; [exists 0; split; reflexivity|].
  split; [intros []|].
  split; apply contains_iff; vm_compute; reflexivity.
Defined.

(** C10 as worded fails.  When the only join marker ends the text, the
    trimmed text has lost it, and the [drug_name] check answers.  When
    U+0130 stands before the keyword, the text is cut further right: after
    sixteen of them only [" where drug_name = 1"] is left of a text that
    has both markers, and the [drug_name] check answers. *)
Lemma extract_sql_trailing_join_drug_name :
  (select_tail (u "SELECT drug_name FROM mid_drugs JOIN ")
               (u "SELECT drug_name FROM mid_drugs JOIN ")
   /\ mentions (u " join ") (u "SELECT drug_name FROM mid_drugs JOIN ")
   /\ mentions (u "drug_name") (u "SELECT drug_name FROM mid_drugs JOIN ")
   /\ extract_sql (u "SELECT drug_name FROM mid_drugs JOIN ") = WILDCARD_DEFAULT)
  /\ (select_tail (repeat 304%N 16 ++ u "select a from t join u where drug_name = 1")
                  (u "select a from t join u where drug_name = 1")
      /\ mentions (u " join ") (u "select a from t join u where drug_name = 1")
      /\ mentions (u "drug_name") (u "select a from t join u where drug_name = 1")
      /\ extract_sql (repeat 304%N 16 ++ u "select a from t join u where drug_name = 1")
         = WILDCARD_DEFAULT).
Proof.
  split; (split; [|split; [|split]]).
  - exists 0. split; reflexivity.
  - apply contains_iff. vm_compute. reflexivity.
  - apply contains_iff. vm_compute. reflexivity.
  - vm_compute. reflexivity.
  - exists 16. split; reflexivity.
  - apply contains_iff. vm_compute. reflexivity.
  - apply contains_iff. vm_compute. reflexivity.
  - vm_compute. reflexivity.
Qed.

(** *** What every result has *)

Lemma extract_sql_no_markers (text : str) :
  contains (u " join ") (lower (extract_sql text)) = false
  /\ contains (u "drug_name") (lower (extract_sql text)) = false.
Proof.
  rewrite extract_sql_unfold.
  destruct (find_index (u "select") (lower text)) as [i|] eqn:Hf;
    [|split; vm_compute; reflexivity].
  cbv zeta.
  destruct (contains (u " join ") (lower (strip (drop i text)))) eqn:Hjoin;
    [split; vm_compute; reflexivity|].
  destruct (contains (u "drug_name") (lower (strip (drop i text)))) eqn:Hcol;
    [split; vm_compute; reflexivity|].
  now split.
Qed.

Lemma extract_sql_trimmed (text : str) :
  strip (extract_sql text) = extract_sql text.
Proof.
  rewrite extract_sql_unfold.
  destruct (find_index (u "select") (lower text)) as [i|] eqn:Hf;
    [|vm_compute; reflexivity].
  cbv zeta.
  destruct (contains (u " join ") _); [vm_compute; reflexivity|].
  destruct (contains (u "drug_name") _); [vm_compute; reflexivity|].
  apply strip_idempotent.
Qed.

Lemma extract_sql_reads_select (text : str) :
  keyword_in_place text -> reads (u "select") (extract_sql text) = true.
Proof.
  intros Hplace. rewrite extract_sql_unfold.
  destruct (find_index (u "select") (lower text)) as [i|] eqn:Hf;
    [|vm_compute; reflexivity].
  cbv zeta.
  destruct (contains (u " join ") _); [vm_compute; reflexivity|].
  destruct (contains (u "drug_name") _); [vm_compute; reflexivity|].
  now apply index_select_tail, Hplace.
Qed.

(** X12: whatever the input, the result of [extract_sql] has no white
    space at either end and mentions neither [" join "] nor [drug_name];
    it begins with the keyword [select], in some letter case, whenever no
    U+0130 stands before the first [select] of the lower-cased input. *)
Theorem extract_sql_output_clean (text : str) :
  strip (extract_sql text) = extract_sql text
  /\ ~ mentions (u " join ") (extract_sql text)
  /\ ~ mentions (u "drug_name") (extract_sql text)
  /\ (keyword_in_place text -> reads (u "select") (extract_sql text) = true).
Proof.
  split; [apply extract_sql_trimmed|].
  destruct (extract_sql_no_markers text) as [Hjoin Hcol].
  split; [now apply contains_false_iff|].
  split; [now apply contains_false_iff | apply extract_sql_reads_select].
Qed.

(* ================================================================= *)
(** ** Runs *)

Lemma sql_queries_app (l1 l2 : list log_entry) :
  sql_queries (l1 ++ l2) = sql_queries l1 + sql_queries l2.
Proof.
  induction l1 as [|x l1 IH]; [reflexivity|].
  destruct x as [line|X ev]; simpl; [assumption|].
  destruct ev; simpl; lia.
Qed.

Section RunFacts.

Variable W : Type.
Variable handle : forall X : Type, event X -> W -> result X * W.

(** The log only grows, and the run does not depend on it. *)
Lemma exec_log {A : Type} (p : prog A) (w : W) (log : list log_entry) :
  exec handle p w log
  = (outcome handle p w, world_after handle p w, log ++ log_of handle p w).
Proof.
  unfold outcome, world_after, log_of, run.
  revert w log; induction p as [a|e|line k IH|X ev k IH]; intros w log; simpl.
  - now rewrite app_nil_r.
  - now rewrite app_nil_r.
  - rewrite (IH w (log ++ [Printed line])), (IH w [Printed line]).
    simpl. now rewrite <- app_assoc.
  - destruct (handle X ev w) as [r w1]. simpl.
    rewrite (IH r w1 (log ++ [Called ev])), (IH r w1 [Called ev]).
    simpl. now rewrite <- app_assoc.
Qed.

Lemma run_eta {A : Type} (p : prog A) (w : W) :
  run handle p w = (outcome handle p w, world_after handle p w, log_of handle p w).
Proof.
  unfold outcome, world_after, log_of.
  now destruct (run handle p w) as [[r w1] l].
Qed.

Lemma run_out {A : Type} (line : str) (k : prog A) (w : W) :
  run handle (Out line k) w
  = (outcome handle k w, world_after handle k w, Printed line :: log_of handle k w).
Proof. unfold run at 1. simpl. now rewrite exec_log. Qed.

Lemma run_call {X : Type} (ev : event X) (w : W) :
  run handle (call ev) w = (fst (handle X ev w), snd (handle X ev w), [Called ev]).
Proof.
  unfold run, call. simpl.
  now destruct (handle X ev w) as [[x|e] w1].
Qed.

Lemma exec_bind {A B : Type} (p : prog A) (f : A -> prog B) (w : W)
      (log : list log_entry) :
  exec handle (bind p f) w log =
  match exec handle p w log with
  | (Ok a, w1, l1) => exec handle (f a) w1 l1
  | (Err e, w1, l1) => (Err e, w1, l1)
  end.
Proof.
  revert w log; induction p as [a|e|line k IH|X ev k IH]; intros w log; simpl;
    [reflexivity | reflexivity | apply IH | apply IH].
Qed.

Lemma exec_try_except {A : Type} (p : prog A) (h : exn -> prog A) (w : W)
      (log : list log_entry) :
  exec handle (try_except p h) w log =
  match exec handle p w log with
  | (Ok a, w1, l1) => (Ok a, w1, l1)
  | (Err e, w1, l1) => exec handle (h e) w1 l1
  end.
Proof.
  revert w log; induction p as [a|e|line k IH|X ev k IH]; intros w log; simpl;
    [reflexivity | reflexivity | apply IH | apply IH].
Qed.

Lemma exec_try_finally {A : Type} (p : prog A) (fin : prog unit) (w : W)
      (log : list log_entry) :
  exec handle (try_finally p fin) w log =
  match exec handle p w log with
  | (r, w1, l1) =>
      match exec handle fin w1 l1 with
      | (Ok _, w2, l2) => (r, w2, l2)
      | (Err e, w2, l2) => (Err e, w2, l2)
      end
  end.
Proof.
  revert w log; induction p as [a|e|line k IH|X ev k IH]; intros w log; simpl.
  - rewrite exec_bind. now destruct (exec handle fin w log) as [[[u0|e] w2] l2].
  - rewrite exec_bind. now destruct (exec handle fin w log) as [[[u0|e'] w2] l2].
  - apply IH.
  - apply IH.
Qed.

(** Sequencing: the second program starts where the first one stopped. *)
Lemma run_bind {A B : Type} (p : prog A) (f : A -> prog B) (w : W) :
  run handle (bind p f) w =
  match run handle p w with
  | (Ok a, w1, l1) =>
      (outcome handle (f a) w1, world_after handle (f a) w1,
       l1 ++ log_of handle (f a) w1)
  | (Err e, w1, l1) => (Err e, w1, l1)
  end.
Proof.
  unfold run at 1. rewrite exec_bind. fold (run handle p w).
  destruct (run handle p w) as [[[a|e] w1] l1]; [apply exec_log | reflexivity].
Qed.

Lemma run_try_except {A : Type} (p : prog A) (h : exn -> prog A) (w : W) :
  run handle (try_except p h) w =
  match run handle p w with
  | (Ok a, w1, l1) => (Ok a, w1, l1)
  | (Err e, w1, l1) =>
      (outcome handle (h e) w1, world_after handle (h e) w1,
       l1 ++ log_of handle (h e) w1)
  end.
Proof.
  unfold run at 1. rewrite exec_try_except. fold (run handle p w).
  destruct (run handle p w) as [[[a|e] w1] l1]; [reflexivity | apply exec_log].
Qed.

Lemma run_try_finally {A : Type} (p : prog A) (fin : prog unit) (w : W) :
  run handle (try_finally p fin) w =
  match run handle p w with
  | (r, w1, l1) =>
      match outcome handle fin w1 with
      | Ok _ => (r, world_after handle fin w1, l1 ++ log_of handle fin w1)
      | Err e => (Err e, world_after handle fin w1, l1 ++ log_of handle fin w1)
      end
  end.
Proof.
  unfold run at 1. rewrite exec_try_finally. fold (run handle p w).
  destruct (run handle p w) as [[r w1] l1]. rewrite exec_log.
  now destruct (outcome handle fin w1).
Qed.

Lemma run_bind_ok {A B : Type} (p : prog A) (f : A -> prog B) (w w1 w2 : W)
      (a : A) (r : result B) (l1 l2 : list log_entry) :
  run handle p w = (Ok a, w1, l1) ->
  run handle (f a) w1 = (r, w2, l2) ->
  run handle (bind p f) w = (r, w2, l1 ++ l2).
Proof.
  intros Hp Hf. rewrite run_bind, Hp. rewrite run_eta in Hf.
  now injection Hf as -> -> ->.
Qed.

Lemma run_bind_err {A B : Type} (p : prog A) (f : A -> prog B) (w w1 : W)
      (e : exn) (l1 : list log_entry) :
  run handle p w = (Err e, w1, l1) ->
  run handle (bind p f) w = (Err e, w1, l1).
Proof. intros Hp. now rewrite run_bind, Hp. Qed.

Lemma run_print_then {A : Type} (args : list str) (k : prog A) (w w1 : W)
      (r : result A) (l : list log_entry) :
  run handle k w = (r, w1, l) ->
  run handle (print args ;; k) w = (r, w1, Printed (print_line args) :: l).
Proof.
  intros Hk. unfold print. cbn [bind]. rewrite run_out. rewrite run_eta in Hk.
  now injection Hk as -> -> ->.
Qed.

Lemma run_try_except_err {A : Type} (p : prog A) (h : exn -> prog A) (w w1 w2 : W)
      (e : exn) (r : result A) (l1 l2 : list log_entry) :
  run handle p w = (Err e, w1, l1) ->
  run handle (h e) w1 = (r, w2, l2) ->
  run handle (try_except p h) w = (r, w2, l1 ++ l2).
Proof.
  intros Hp Hh. rewrite run_try_except, Hp. rewrite run_eta in Hh.
  now injection Hh as -> -> ->.
Qed.

Lemma outcome_bind {A B : Type} (p : prog A) (f : A -> prog B) (w : W) :
  outcome handle (bind p f) w =
  match outcome handle p w with
  | Ok a => outcome handle (f a) (world_after handle p w)
  | Err e => Err e
  end.
Proof.
  unfold outcome at 1. rewrite run_bind, (run_eta p w).
  now destruct (outcome handle p w).
Qed.

Lemma world_after_bind {A B : Type} (p : prog A) (f : A -> prog B) (w : W) :
  world_after handle (bind p f) w =
  match outcome handle p w with
  | Ok a => world_after handle (f a) (world_after handle p w)
  | Err e => world_after handle p w
  end.
Proof.
  unfold world_after at 1. rewrite run_bind, (run_eta p w).
  now destruct (outcome handle p w).
Qed.

Lemma outcome_print_then {A : Type} (args : list str) (k : prog A) (w : W) :
  outcome handle (print args ;; k) w = outcome handle k w.
Proof. unfold print. cbn [bind]. unfold outcome at 1. now rewrite run_out. Qed.

Lemma world_after_print_then {A : Type} (args : list str) (k : prog A) (w : W) :
  world_after handle (print args ;; k) w = world_after handle k w.
Proof. unfold print. cbn [bind]. unfold world_after at 1. now rewrite run_out. Qed.

Lemma outcome_try_except {A : Type} (p : prog A) (h : exn -> prog A) (w : W) :
  outcome handle (try_except p h) w =
  match outcome handle p w with
  | Ok a => Ok a
  | Err e => outcome handle (h e) (world_after handle p w)
  end.
Proof.
  unfold outcome at 1. rewrite run_try_except, (run_eta p w).
  now destruct (outcome handle p w).
Qed.

Lemma world_after_try_except {A : Type} (p : prog A) (h : exn -> prog A) (w : W) :
  world_after handle (try_except p h) w =
  match outcome handle p w with
  | Ok a => world_after handle p w
  | Err e => world_after handle (h e) (world_after handle p w)
  end.
Proof.
  unfold world_after at 1. rewrite run_try_except, (run_eta p w).
  now destruct (outcome handle p w).
Qed.

Lemma outcome_try_finally {A : Type} (p : prog A) (fin : prog unit) (w : W) :
  outcome handle (try_finally p fin) w =
  match outcome handle fin (world_after handle p w) with
  | Ok _ => outcome handle p w
  | Err e => Err e
  end.
Proof.
  unfold outcome at 1. rewrite run_try_finally, (run_eta p w).
  now destruct (outcome handle fin (world_after handle p w)).
Qed.

Lemma world_after_try_finally {A : Type} (p : prog A) (fin : prog unit) (w : W) :
  world_after handle (try_finally p fin) w
  = world_after handle fin (world_after handle p w).
Proof.
  unfold world_after at 1. rewrite run_try_finally, (run_eta p w).
  now destruct (outcome handle fin (world_after handle p w)).
Qed.

Lemma log_of_try_finally {A : Type} (p : prog A) (fin : prog unit) (w : W) :
  log_of handle (try_finally p fin) w
  = log_of handle p w ++ log_of handle fin (world_after handle p w).
Proof.
  unfold log_of at 1. rewrite run_try_finally, (run_eta p w).
  now destruct (outcome handle fin (world_after handle p w)).
Qed.

Lemma outcome_ret {A : Type} (a : A) (w : W) : outcome handle (Ret a) w = Ok a.
Proof. reflexivity. Qed.

Lemma world_after_ret {A : Type} (a : A) (w : W) : world_after handle (Ret a) w = w.
Proof. reflexivity. Qed.

Lemma outcome_call {X : Type} (ev : event X) (w : W) :
  outcome handle (call ev) w = fst (handle X ev w).
Proof. unfold outcome. now rewrite run_call. Qed.

Lemma world_after_call {X : Type} (ev : event X) (w : W) :
  world_after handle (call ev) w = snd (handle X ev w).
Proof. unfold world_after. now rewrite run_call. Qed.

Lemma log_of_call {X : Type} (ev : event X) (w : W) :
  log_of handle (call ev) w = [Called ev].
Proof. unfold log_of. now rewrite run_call. Qed.

Lemma log_of_bind {A B : Type} (p : prog A) (f : A -> prog B) (w : W) :
  log_of handle (bind p f) w =
  log_of handle p w
  ++ match outcome handle p w with
     | Ok a => log_of handle (f a) (world_after handle p w)
     | Err _ => []
     end.
Proof.
  unfold log_of at 1. rewrite run_bind, (run_eta p w).
  destruct (outcome handle p w); [reflexivity | cbn [snd]; now rewrite app_nil_r].
Qed.

Lemma log_of_try_except {A : Type} (p : prog A) (h : exn -> prog A) (w : W) :
  log_of handle (try_except p h) w =
  log_of handle p w
  ++ match outcome handle p w with
     | Ok _ => []
     | Err e => log_of handle (h e) (world_after handle p w)
     end.
Proof.
  unfold log_of at 1. rewrite run_try_except, (run_eta p w).
  destruct (outcome handle p w); [cbn [snd]; now rewrite app_nil_r | reflexivity].
Qed.

Lemma log_of_print_then {A : Type} (args : list str) (k : prog A) (w : W) :
  log_of handle (print args ;; k) w = Printed (print_line args) :: log_of handle k w.
Proof. unfold print. cbn [bind]. unfold log_of at 1. now rewrite run_out. Qed.

Lemma log_of_vis {A X : Type} (ev : event X) (k : result X -> prog A) (w : W) :
  log_of handle (Vis ev k) w
  = Called ev :: log_of handle (k (fst (handle X ev w))) (snd (handle X ev w)).
Proof. unfold log_of, run. simpl. now rewrite exec_log. Qed.

Lemma log_of_ret {A : Type} (a : A) (w : W) : log_of handle (Ret a) w = [].
Proof. reflexivity. Qed.

Lemma log_of_out {A : Type} (line : str) (k : prog A) (w : W) :
  log_of handle (Out line k) w = Printed line :: log_of handle k w.
Proof. unfold log_of at 1. now rewrite run_out. Qed.

Lemma outcome_out {A : Type} (line : str) (k : prog A) (w : W) :
  outcome handle (Out line k) w = outcome handle k w.
Proof. unfold outcome at 1. now rewrite run_out. Qed.

Lemma world_after_out {A : Type} (line : str) (k : prog A) (w : W) :
  world_after handle (Out line k) w = world_after handle k w.
Proof. unfold world_after at 1. now rewrite run_out. Qed.

Lemma outcome_vis {A X : Type} (ev : event X) (k : result X -> prog A) (w : W) :
  outcome handle (Vis ev k) w
  = outcome handle (k (fst (handle X ev w))) (snd (handle X ev w)).
Proof. unfold outcome, run. simpl. now rewrite exec_log. Qed.

Lemma world_after_vis {A X : Type} (ev : event X) (k : result X -> prog A) (w : W) :
  world_after handle (Vis ev k) w
  = world_after handle (k (fst (handle X ev w))) (snd (handle X ev w)).
Proof. unfold world_after, run. simpl. now rewrite exec_log. Qed.

Lemma calls_only_bind (P : forall X : Type, event X -> Prop) {A B : Type}
      (p : prog A) (f : A -> prog B) :
  calls_only P p -> (forall a, calls_only P (f a)) -> calls_only P (bind p f).
Proof.
  intros Hp Hf. induction Hp as [a|e|line k Hk IH|X ev k Hev Hk IH]; cbn [bind].
  - apply Hf.
  - constructor.
  - constructor. exact IH.
  - constructor; [exact Hev | exact IH].
Qed.

Lemma calls_only_try_except (P : forall X : Type, event X -> Prop) {A : Type}
      (p : prog A) (h : exn -> prog A) :
  calls_only P p -> (forall e, calls_only P (h e)) -> calls_only P (try_except p h).
Proof.
  intros Hp Hh. induction Hp as [a|e|line k Hk IH|X ev k Hev Hk IH];
    cbn [try_except].
  - constructor.
  - apply Hh.
  - constructor. exact IH.
  - constructor; [exact Hev | exact IH].
Qed.

Lemma calls_only_call (P : forall X : Type, event X -> Prop) {X : Type}
      (ev : event X) :
  P X ev -> calls_only P (call ev).
Proof. intros H. constructor; [exact H|]. intros [x|e]; constructor. Qed.

(** A program that never queries the SQL store leaves no query in the log. *)
Lemma no_query_log {A : Type} (p : prog A) (w : W) :
  calls_only sends_no_query p -> sql_queries (log_of handle p w) = 0.
Proof.
  intros Hp; revert w.
  induction Hp as [a|e|line k Hk IH|X ev k Hev Hk IH]; intros w.
  - reflexivity.
  - reflexivity.
  - rewrite log_of_out. apply IH.
  - rewrite log_of_vis. specialize (IH (fst (handle X ev w)) (snd (handle X ev w))).
    destruct ev; cbn [sql_queries]; solve [exact IH | destruct Hev].
Qed.

End RunFacts.

(* ================================================================= *)
(** ** The stages, call by call *)

Section Stages.

Variable W : Type.
Variable handle : forall X : Type, event X -> W -> result X * W.

Lemma generate_sql_run (question : str) (w : W) :
  outcome handle (generate_sql question) w
  = match fst (ask_chat handle (sql_messages question) w) with
    | Ok raw => Ok (extract_sql raw)
    | Err e => Err e
    end
  /\ world_after handle (generate_sql question) w
     = snd (ask_chat handle (sql_messages question) w).
Proof.
  unfold generate_sql, chat, ask_chat, sql_messages.
  rewrite outcome_bind, world_after_bind, outcome_call, world_after_call.
  now destruct (fst (handle str _ w)).
Qed.

Lemma answer_hybrid_run (question : str) (df : DataFrame) (vec : list passage)
      (w : W) :
  outcome handle (answer_hybrid question df vec) w
  = fst (ask_chat handle (answer_messages question df vec) w).
Proof. unfold answer_hybrid, chat. cbv zeta. apply outcome_call. Qed.

Lemma run_sql_run (sql : str) (w : W) :
  (outcome handle (run_sql sql) w, world_after handle (run_sql sql) w)
  = match handle unit (SqliteConnect DB_PATH) w with
    | (Err e, w1) => (Err e, w1)
    | (Ok _, w1) =>
        match handle DataFrame (ReadSqlQuery sql) w1 with
        | (answer, w2) =>
            match handle unit ConnClose w2 with
            | (Ok _, w3) => (answer, w3)
            | (Err e, w3) => (Err e, w3)
            end
        end
    end.
Proof.
  unfold run_sql.
  rewrite outcome_bind, world_after_bind, outcome_call, world_after_call.
  destruct (handle unit (SqliteConnect DB_PATH) w) as [[u1|e] w1]; cbn [fst snd];
    [|reflexivity].
  rewrite outcome_try_finally, world_after_try_finally.
  rewrite !outcome_call, !world_after_call.
  destruct (handle DataFrame (ReadSqlQuery sql) w1) as [answer w2]; cbn [fst snd].
  now destruct (handle unit ConnClose w2) as [[u2|e] w3].
Qed.

Lemma run_sql_answers (sql : str) (w : W) (df : DataFrame) (w' : W) :
  store_answers handle sql w df w' <->
  outcome handle (run_sql sql) w = Ok df /\ world_after handle (run_sql sql) w = w'.
Proof.
  pose proof (run_sql_run sql w) as Hrun. split.
  - intros [u1 w1 w2 u2 w3 H1 H2 H3]. rewrite H1, H2, H3 in Hrun.
    now injection Hrun as -> ->.
  - intros [Ho Hw]. rewrite Ho, Hw in Hrun.
    destruct (handle unit (SqliteConnect DB_PATH) w) as [[u1|e] w1] eqn:H1;
      [|discriminate].
    destruct (handle DataFrame (ReadSqlQuery sql) w1) as [answer w2] eqn:H2.
    destruct (handle unit ConnClose w2) as [[u2|e] w3] eqn:H3; [|discriminate].
    injection Hrun as <- <-. econstructor; eassumption.
Qed.

Lemma get_collection_run (w : W) :
  (outcome handle get_collection w, world_after handle get_collection w)
  = match handle unit (PersistentClient CHROMA_DIR) w with
    | (Err e, w1) => (Err e, w1)
    | (Ok _, w1) =>
        match handle unit (GetCollection CHROMA_COLLECTION) w1 with
        | (Ok _, w2) => (Ok tt, w2)
        | (Err _, w2) =>
            handle unit (CreateCollection CHROMA_COLLECTION
                                          [(u "hnsw:space", CStr (u "cosine"))]) w2
        end
    end.
Proof.
  unfold get_collection.
  rewrite outcome_bind, world_after_bind, outcome_call, world_after_call.
  destruct (handle unit (PersistentClient CHROMA_DIR) w) as [[u1|e] w1];
    cbn [fst snd]; [|reflexivity].
  rewrite outcome_try_except, world_after_try_except.
  rewrite !outcome_call, !world_after_call.
  destruct (handle unit (GetCollection CHROMA_COLLECTION) w1) as [[[]|e] w2];
    cbn [fst snd]; [reflexivity|].
  now destruct (handle unit _ w2).
Qed.

Lemma get_collection_opened (w w' : W) :
  collection_opened handle w w' <->
  outcome handle get_collection w = Ok tt /\ world_after handle get_collection w = w'.
Proof.
  pose proof (get_collection_run w) as Hrun. split.
  - intros [u1 w1 u2 w2 H1 H2 | u1 w1 e w2 u3 w3 H1 H2 H3].
    + rewrite H1, H2 in Hrun. now injection Hrun as -> ->.
    + rewrite H1, H2, H3 in Hrun. destruct u3. now injection Hrun as -> ->.
  - intros [Ho Hw]. rewrite Ho, Hw in Hrun.
    destruct (handle unit (PersistentClient CHROMA_DIR) w) as [[u1|e] w1] eqn:H1;
      [|discriminate].
    destruct (handle unit (GetCollection CHROMA_COLLECTION) w1) as [[u2|e] w2] eqn:H2.
    + injection Hrun as <-. eapply collection_found; eassumption.
    + eapply collection_created; [eassumption | eassumption|].
      symmetry. exact Hrun.
Qed.

Lemma get_collection_fails (w : W) (e : exn) :
  collection_fails handle w e <-> outcome handle get_collection w = Err e.
Proof.
  pose proof (get_collection_run w) as Hrun. split.
  - intros [w1 H1 | u1 w1 e2 w2 w3 H1 H2 H3].
    + rewrite H1 in Hrun. now injection Hrun as -> _.
    + rewrite H1, H2, H3 in Hrun. now injection Hrun as -> _.
  - intros Ho. rewrite Ho in Hrun.
    destruct (handle unit (PersistentClient CHROMA_DIR) w) as [[u1|e1] w1] eqn:H1.
    + destruct (handle unit (GetCollection CHROMA_COLLECTION) w1) as [[u2|e2] w2] eqn:H2;
        [discriminate|].
      destruct (handle unit (CreateCollection _ _) w2) as [r3 w3] eqn:H3.
      injection Hrun as <- _. eapply creation_fails; eassumption.
    + injection Hrun as <- _. eapply client_fails; eassumption.
Qed.

(** The outcome and the world of [vector_search], from those of
    [get_collection] on. *)
Lemma vector_search_run (query : str) (w : W) :
  (outcome handle (vector_search query) w, world_after handle (vector_search query) w)
  = match outcome handle get_collection w with
    | Err e => (Err e, world_after handle get_collection w)
    | Ok _ =>
        match handle vector (OllamaEmbeddings MODEL_EMBED query)
                     (world_after handle get_collection w) with
        | (Err e, w2) => (Err e, w2)
        | (Ok qvec, w2) =>
            match handle QueryResult (ColQuery [qvec] 5) w2 with
            | (Err e, w3) => (Err e, w3)
            | (Ok res, w3) =>
                match res_documents res, res_metadatas res with
                | docs :: _, metas :: _ =>
                    (Ok (map (fun dm => mk_passage (fst dm) (snd dm))
                             (combine docs metas)), w3)
                | _, _ => (Err (u "list index out of range"), w3)
                end
            end
        end
    end.
Proof.
  unfold vector_search. rewrite outcome_bind, world_after_bind.
  destruct (outcome handle get_collection w) as [u0|e]; [|reflexivity].
  unfold embed. rewrite outcome_bind, world_after_bind, outcome_call, world_after_call.
  destruct (handle vector _ _) as [[qvec|e] w2]; cbn [fst snd]; [|reflexivity].
  rewrite outcome_bind, world_after_bind, outcome_call, world_after_call.
  destruct (handle QueryResult _ w2) as [[res|e] w3]; cbn [fst snd]; [|reflexivity].
  destruct (res_documents res) as [|docs more_docs]; [reflexivity|].
  destruct (res_metadatas res) as [|metas more_metas]; reflexivity.
Qed.

Lemma vector_search_returns (query : str) (w : W) (vec : list passage) (w' : W) :
  retrieval_returns handle query w vec w' <->
  outcome handle (vector_search query) w = Ok vec
  /\ world_after handle (vector_search query) w = w'.
Proof.
  pose proof (vector_search_run query w) as Hrun. split.
  - intros [w1 qvec w2 res w3 docs more_docs metas more_metas Hopen Hemb Hq Hd Hm].
    apply get_collection_opened in Hopen as [Ho Hw].
    rewrite Ho, Hw, Hemb, Hq, Hd, Hm in Hrun. now injection Hrun as -> ->.
  - intros [Ho Hw]. rewrite Ho, Hw in Hrun.
    destruct (outcome handle get_collection w) as [[]|e] eqn:Hc; [|discriminate].
    destruct (handle vector _ _) as [[qvec|e] w2] eqn:Hemb; [|discriminate].
    destruct (handle QueryResult _ w2) as [[res|e] w3] eqn:Hq; [|discriminate].
    destruct (res_documents res) as [|docs more_docs] eqn:Hd; [discriminate|].
    destruct (res_metadatas res) as [|metas more_metas] eqn:Hm; [discriminate|].
    injection Hrun as -> ->.
    eapply retrieval_answered; try eassumption.
    apply get_collection_opened. split; [exact Hc | reflexivity].
Qed.

Lemma vector_search_fails (query : str) (w : W) (e : exn) :
  retrieval_fails handle query w e <->
  outcome handle (vector_search query) w = Err e.
Proof.
  pose proof (vector_search_run query w) as Hrun. split.
  - intros [Hfail | w1 w2 Hopen Hemb | w1 qvec w2 w3 Hopen Hemb Hq
            | w1 qvec w2 res w3 Hopen Hemb Hq Hrow ->].
    + apply get_collection_fails in Hfail. rewrite Hfail in Hrun.
      now injection Hrun as -> _.
    + apply get_collection_opened in Hopen as [Ho Hw].
      rewrite Ho, Hw, Hemb in Hrun. now injection Hrun as -> _.
    + apply get_collection_opened in Hopen as [Ho Hw].
      rewrite Ho, Hw, Hemb, Hq in Hrun. now injection Hrun as -> _.
    + apply get_collection_opened in Hopen as [Ho Hw].
      rewrite Ho, Hw, Hemb, Hq in Hrun.
      destruct Hrow as [Hrow | Hrow]; rewrite Hrow in Hrun.
      * now injection Hrun as -> _.
      * destruct (res_documents res); now injection Hrun as -> _.
  - intros Ho. rewrite Ho in Hrun.
    destruct (outcome handle get_collection w) as [[]|e0] eqn:Hc.
    2:{ injection Hrun as <- _. apply no_collection. now apply get_collection_fails. }
    assert (Hopen : collection_opened handle w (world_after handle get_collection w))
      by (apply get_collection_opened; split; [exact Hc | reflexivity]).
    destruct (handle vector _ _) as [[qvec|e1] w2] eqn:Hemb.
    2:{ injection Hrun as <- _. eapply no_embedding; eassumption. }
    destruct (handle QueryResult _ w2) as [[res|e2] w3] eqn:Hq.
    2:{ injection Hrun as <- _. eapply no_answer; eassumption. }
    destruct (res_documents res) as [|docs more_docs] eqn:Hd.
    { injection Hrun as -> _. eapply no_row; try eassumption; auto. }
    destruct (res_metadatas res) as [|metas more_metas] eqn:Hm; [|discriminate].
    injection Hrun as -> _. eapply no_row; try eassumption; auto.
Qed.

End Stages.

(* ================================================================= *)
(** ** The orchestrator *)

Lemma sql_sent_app (l1 l2 : list log_entry) :
  sql_sent (l1 ++ l2) = sql_sent l1 ++ sql_sent l2.
Proof.
  induction l1 as [|x l1 IH]; [reflexivity|].
  destruct x as [line|X ev]; simpl; [assumption|].
  destruct ev; simpl; now rewrite ?IH.
Qed.

Section Orchestrator.

Variable W : Type.
Variable handle : forall X : Type, event X -> W -> result X * W.

(** [generate_sql] makes one call, to the chat model. *)
Lemma generate_sql_log (question : str) (w : W) :
  sql_queries (log_of handle (generate_sql question) w) = 0.
Proof.
  unfold generate_sql, chat, log_of. rewrite run_bind, run_call.
  destruct (handle str _ w) as [[raw|e] w1]; reflexivity.
Qed.

(** [run_sql] sends the query to the store at most once. *)
Lemma run_sql_log (sql : str) (w : W) :
  sql_queries (log_of handle (run_sql sql) w) <= 1.
Proof.
  unfold run_sql, log_of. rewrite run_bind, run_call.
  destruct (handle unit (SqliteConnect DB_PATH) w) as [[u0|e] w1]; cbn [fst snd].
  - unfold log_of. rewrite run_try_finally, run_call.
    destruct (handle DataFrame (ReadSqlQuery sql) w1) as [r w2]; cbn [fst snd].
    unfold outcome, world_after, log_of. rewrite run_call.
    destruct (handle unit ConnClose w2) as [[u'|e'] w3]; cbn; lia.
  - cbn. lia.
Qed.

(** C7: when the store raises on the validated query, [ask_mid] returns
    the string ["SQL error: "] followed by the error text; nothing is
    raised, and the run ends with that one execution of [run_sql], which
    sends the query to the store at most once. *)
Theorem ask_mid_sql_error (question sql : str) (e : exn) (w w1 w2 : W)
        (l1 l2 : list log_entry) :
  run handle (generate_sql question) w = (Ok sql, w1, l1) ->
  run handle (run_sql sql) w1 = (Err e, w2, l2) ->
  run handle (ask_mid question) w
  = (Ok (u "SQL error: " ++ e), w2,
     Printed (print_line [LF ++ u "User:"; question]) :: l1
     ++ Printed (print_line [u "SQL:"; sql]) :: l2)
  /\ sql_queries (log_of handle (ask_mid question) w) <= 1.
Proof.
  intros Hgen Hsql.
  assert (Hrun : run handle (ask_mid question) w
                 = (Ok (u "SQL error: " ++ e), w2,
                    Printed (print_line [LF ++ u "User:"; question]) :: l1
                    ++ Printed (print_line [u "SQL:"; sql]) :: l2)).
  { unfold ask_mid. apply run_print_then.
    apply (run_bind_ok _ _ _ _ _ _ _ _ _ _ _ Hgen).
    apply run_print_then.
    replace l2 with ((l2 ++ []) ++ []) by now rewrite !app_nil_r.
    eapply run_bind_ok;
      [eapply run_try_except_err; [apply run_bind_err; exact Hsql | reflexivity]
      | reflexivity]. }
  split; [exact Hrun|].
  unfold log_of. rewrite Hrun. cbn [snd].
  change (Printed ?a :: ?l) with ([Printed a] ++ l).
  rewrite !sql_queries_app. cbn [sql_queries].
  pose proof (generate_sql_log question w) as Hg.
  pose proof (run_sql_log sql w1) as Hs.
  unfold log_of in Hg, Hs. rewrite Hgen in Hg. rewrite Hsql in Hs.
  cbn [snd] in Hg, Hs. lia.
Qed.

Lemma generate_sql_no_query (question : str) :
  calls_only sends_no_query (generate_sql question).
Proof.
  unfold generate_sql, chat. apply calls_only_bind; [|constructor].
  now apply calls_only_call.
Qed.

Lemma index0_no_query {X : Type} (xs : list X) :
  calls_only sends_no_query (index0 xs).
Proof. destruct xs; constructor. Qed.

Lemma get_collection_no_query : calls_only sends_no_query get_collection.
Proof.
  unfold get_collection. apply calls_only_bind; [now apply calls_only_call|].
  intros _. apply calls_only_try_except; [now apply calls_only_call|].
  intros _. now apply calls_only_call.
Qed.

Lemma vector_search_no_query (question : str) :
  calls_only sends_no_query (vector_search question).
Proof.
  unfold vector_search, embed.
  apply calls_only_bind; [apply get_collection_no_query | intros _].
  apply calls_only_bind; [now apply calls_only_call | intros qvec].
  apply calls_only_bind; [now apply calls_only_call | intros res].
  apply calls_only_bind; [apply index0_no_query | intros docs].
  apply calls_only_bind; [apply index0_no_query | intros metas].
  constructor.
Qed.

Lemma answer_hybrid_no_query (question : str) (df : DataFrame)
      (vec : list passage) :
  calls_only sends_no_query (answer_hybrid question df vec).
Proof. unfold answer_hybrid, chat. now apply calls_only_call. Qed.

(** X2: no retry.  In any run of [ask_mid], whatever the collaborators
    answer, the SQL store is sent at most one query. *)
Theorem ask_mid_queries_once (question : str) (w : W) :
  sql_queries (log_of handle (ask_mid question) w) <= 1.
Proof.
  unfold ask_mid.
  rewrite log_of_print_then, log_of_bind.
  cbn [sql_queries]. rewrite sql_queries_app.
  rewrite (no_query_log _ handle _ _ (generate_sql_no_query question)).
  destruct (outcome handle (generate_sql question) w) as [sql|e];
    [|cbn [sql_queries Nat.add]; lia].
  rewrite log_of_print_then, log_of_bind, log_of_try_except, log_of_bind.
  rewrite outcome_try_except, outcome_bind, world_after_try_except, world_after_bind.
  cbn [sql_queries]. rewrite !sql_queries_app.
  pose proof (run_sql_log sql (world_after handle (generate_sql question) w)) as Hs.
  destruct (outcome handle (run_sql sql) _) as [df|e].
  - rewrite !outcome_ret, !world_after_ret.
    rewrite log_of_print_then, log_of_bind.
    rewrite !log_of_ret. cbn [sql_queries app]. rewrite sql_queries_app.
    rewrite (no_query_log _ handle _ _ (vector_search_no_query question)).
    destruct (outcome handle (vector_search question) _) as [vec|e].
    + rewrite log_of_print_then. cbn [sql_queries].
      rewrite (no_query_log _ handle _ _ (answer_hybrid_no_query question df vec)).
      cbn [Nat.add]. rewrite !Nat.add_0_r. exact Hs.
    + cbn [sql_queries Nat.add]. rewrite !Nat.add_0_r. exact Hs.
  - rewrite !outcome_ret, !log_of_ret. cbn [sql_queries app Nat.add].
    rewrite !Nat.add_0_r. exact Hs.
Qed.

(** The outcome of [ask_mid], stage by stage. *)
Lemma ask_mid_outcome (question : str) (w : W) :
  outcome handle (ask_mid question) w =
  match outcome handle (generate_sql question) w with
  | Err e => Err e
  | Ok sql =>
      let w1 := world_after handle (generate_sql question) w in
      match outcome handle (run_sql sql) w1 with
      | Err e => Ok (u "SQL error: " ++ e)
      | Ok df =>
          let w2 := world_after handle (run_sql sql) w1 in
          match outcome handle (vector_search question) w2 with
          | Err e => Err e
          | Ok vec =>
              outcome handle (answer_hybrid question df vec)
                      (world_after handle (vector_search question) w2)
          end
      end
  end.
Proof.
  unfold ask_mid. rewrite outcome_print_then, outcome_bind.
  destruct (outcome handle (generate_sql question) w) as [sql|e]; [|reflexivity].
  cbv zeta. rewrite outcome_print_then, outcome_bind, outcome_try_except.
  rewrite world_after_try_except.
  rewrite outcome_bind, world_after_bind.
  destruct (outcome handle (run_sql sql) _) as [df|e]; [|reflexivity].
  rewrite !outcome_ret, !world_after_ret.
  rewrite outcome_print_then, outcome_bind.
  destruct (outcome handle (vector_search question) _) as [vec|e]; [|reflexivity].
  now rewrite outcome_print_then.
Qed.


Lemma no_query_sent {A : Type} (p : prog A) (w : W) :
  calls_only sends_no_query p -> sql_sent (log_of handle p w) = [].
Proof.
  intros Hp; revert w.
  induction Hp as [a|e|line k Hk IH|X ev k Hev Hk IH]; intros w.
  - reflexivity.
  - reflexivity.
  - rewrite log_of_out. apply IH.
  - rewrite log_of_vis. specialize (IH (fst (handle X ev w)) (snd (handle X ev w))).
    destruct ev; cbn [sql_sent]; solve [exact IH | destruct Hev].
Qed.

Lemma run_sql_sent (sql : str) (w : W) :
  sql_sent (log_of handle (run_sql sql) w) = []
  \/ sql_sent (log_of handle (run_sql sql) w) = [sql].
Proof.
  unfold run_sql. rewrite log_of_bind, outcome_call, log_of_call.
  destruct (fst (handle unit (SqliteConnect DB_PATH) w)); [|now left].
  right. rewrite log_of_try_finally, !log_of_call. reflexivity.
Qed.

(** X13: the only text [ask_mid] ever sends to the SQL store is the
    validated form of the chat model's reply to the query prompt, sent at
    most once; so no query with [" join "] or [drug_name], and none with
    white space at either end, reaches the store. *)
Theorem ask_mid_sends_validated_query (question : str) (w : W) :
  (sql_sent (log_of handle (ask_mid question) w) = []
   \/ exists raw,
        fst (ask_chat handle (sql_messages question) w) = Ok raw
        /\ sql_sent (log_of handle (ask_mid question) w) = [extract_sql raw])
  /\ Forall (fun sql => strip sql = sql
                        /\ ~ mentions (u " join ") sql
                        /\ ~ mentions (u "drug_name") sql)
            (sql_sent (log_of handle (ask_mid question) w)).
Proof.
  assert (Hshape : sql_sent (log_of handle (ask_mid question) w) = []
                   \/ exists raw,
                        fst (ask_chat handle (sql_messages question) w) = Ok raw
                        /\ sql_sent (log_of handle (ask_mid question) w)
                           = [extract_sql raw]).
  { unfold ask_mid. rewrite log_of_print_then. cbn [sql_sent].
    rewrite log_of_bind, sql_sent_app.
    rewrite (no_query_sent _ _ (generate_sql_no_query question)).
    destruct (generate_sql_run _ handle question w) as [Hgen _].
    rewrite Hgen.
    destruct (fst (ask_chat handle (sql_messages question) w)) as [raw|e];
      [|now left].
    rewrite log_of_print_then. cbn [sql_sent app].
    rewrite log_of_bind, sql_sent_app, log_of_try_except, sql_sent_app.
    rewrite log_of_bind, sql_sent_app.
    rewrite outcome_try_except, !outcome_bind.
    assert (Hrest : forall df w',
               sql_sent (log_of handle
                           (print [u "SQL rows:"; str_of_nat (List.length df)] ;;
                            vec <- vector_search question ;;
                            print [u "Vector matches:"; str_of_nat (List.length vec)] ;;
                            answer_hybrid question df vec) w') = []).
    { intros df w'. rewrite log_of_print_then. cbn [sql_sent].
      rewrite log_of_bind, sql_sent_app.
      rewrite (no_query_sent _ _ (vector_search_no_query question)).
      destruct (outcome handle (vector_search question) w') as [vec|e];
        [|reflexivity].
      rewrite log_of_print_then. cbn [sql_sent app].
      apply no_query_sent, answer_hybrid_no_query. }
    destruct (outcome handle (run_sql (extract_sql raw)) _) as [df|e].
    - rewrite !outcome_ret, !log_of_ret. cbn [sql_sent app].
      rewrite Hrest, !app_nil_r.
      destruct (run_sql_sent (extract_sql raw)
                             (world_after handle (generate_sql question) w))
        as [H|H]; rewrite H; [now left | right; now exists raw].
    - rewrite !outcome_ret, !log_of_ret. cbn [sql_sent app]. rewrite !app_nil_r.
      destruct (run_sql_sent (extract_sql raw)
                             (world_after handle (generate_sql question) w))
        as [H|H]; rewrite H; [now left | right; now exists raw]. }
  split; [exact Hshape|].
  destruct Hshape as [-> | (raw & _ & ->)]; [constructor|].
  constructor; [|constructor].
  split; [apply extract_sql_trimmed|].
  destruct (extract_sql_no_markers raw) as [Hjoin Hcol].
  split; now apply contains_false_iff.
Qed.


End Orchestrator.

(** *** On sample deployments *)

Lemma ask_mid_sql_error_witness :
  run (serve store_down) (ask_mid (u "What is aspirin for?")) old_index
  = (Ok (u "SQL error: no such table: mid_drugs"), old_index,
     [ Printed (print_line [LF ++ u "User:"; u "What is aspirin for?"]);
       Called (OllamaGenerate MODEL_CHAT
                 (chat_prompt [ mk_message (u "system") SQL_SYSTEM;
                                mk_message (u "user") (u "What is aspirin for?") ]));
       Printed (print_line
                  [u "SQL:";
                   u "SELECT name FROM mid_drugs WHERE name LIKE '%Aspirin%' LIMIT 10;"]);
       Called (SqliteConnect DB_PATH);
       Called (ReadSqlQuery
                 (u "SELECT name FROM mid_drugs WHERE name LIKE '%Aspirin%' LIMIT 10;"));
       Called ConnClose ])
  /\ sql_queries (log_of (serve store_down) (ask_mid (u "What is aspirin for?"))
                         old_index)
     <= 1.
Proof.
  apply (ask_mid_sql_error index (serve store_down) (u "What is aspirin for?")
           (u "SELECT name FROM mid_drugs WHERE name LIKE '%Aspirin%' LIMIT 10;")
           (u "no such table: mid_drugs") old_index old_index old_index
           [ Called (OllamaGenerate MODEL_CHAT
                       (chat_prompt [ mk_message (u "system") SQL_SYSTEM;
                                      mk_message (u "user")
                                                 (u "What is aspirin for?") ])) ]
           [ Called (SqliteConnect DB_PATH);
             Called (ReadSqlQuery
                       (u "SELECT name FROM mid_drugs WHERE name LIKE '%Aspirin%' LIMIT 10;"));
             Called ConnClose ]);
    vm_compute; reflexivity.
Defined.


(** A collection that is not there yet is no failure: it is created, and
    the question is answered. *)
Lemma ask_mid_first_run :
  fst (serve first_run unit (GetCollection CHROMA_COLLECTION) old_index)
  = Err (u "Collection mid_vectors does not exist.")
  /\ outcome (serve first_run) (ask_mid (u "What is aspirin for?")) old_index
     = Ok (u "Aspirin is used for pain relief.").
Proof. split; vm_compute; reflexivity. Qed.


(* ================================================================= *)
(** ** Vector search *)

Lemma map_fst_combine {X Y : Type} (xs : list X) (ys : list Y) :
  map fst (combine xs ys) = firstn (List.length (combine xs ys)) xs.
Proof.
  revert ys; induction xs as [|x xs IH]; intros [|y ys]; simpl;
    [reflexivity | reflexivity | reflexivity | now rewrite IH].
Qed.

Lemma map_snd_combine {X Y : Type} (xs : list X) (ys : list Y) :
  map snd (combine xs ys) = firstn (List.length (combine xs ys)) ys.
Proof.
  revert ys; induction xs as [|x xs IH]; intros [|y ys]; simpl;
    [reflexivity | reflexivity | reflexivity | now rewrite IH].
Qed.

Section VectorSearch.

Variable W : Type.
Variable handle : forall X : Type, event X -> W -> result X * W.

(** X22: [vector_search] asks the index for 5 results and hands on the
    first row of its response, document by document with the metadata of
    the same rank, in the response's order and as many as the shorter of
    the two rows holds.  An error of [get_collection], of the embedding
    call or of the query is raised to the caller, and so is a response
    without rows. *)
Theorem vector_search_follows_index (query : str) (w : W) :
  match outcome handle get_collection w with
  | Err e => outcome handle (vector_search query) w = Err e
  | Ok _ =>
      let w1 := world_after handle get_collection w in
      match handle vector (OllamaEmbeddings MODEL_EMBED query) w1 with
      | (Err e, _) => outcome handle (vector_search query) w = Err e
      | (Ok qvec, w2) =>
          match handle QueryResult (ColQuery [qvec] 5) w2 with
          | (Err e, _) => outcome handle (vector_search query) w = Err e
          | (Ok res, _) =>
              match res_documents res, res_metadatas res with
              | docs :: _, metas :: _ =>
                  exists hits,
                    outcome handle (vector_search query) w = Ok hits
                    /\ List.length hits = Nat.min (List.length docs) (List.length metas)
                    /\ map passage_text hits = firstn (List.length hits) docs
                    /\ map passage_meta hits = firstn (List.length hits) metas
              | _, _ =>
                  outcome handle (vector_search query) w
                  = Err (u "list index out of range")
              end
          end
      end
  end.
Proof.
  pose proof (vector_search_run _ handle query w) as Hrun.
  destruct (outcome handle get_collection w) as [u0|e];
    [|now injection Hrun as -> _].
  cbv zeta.
  destruct (handle vector _ _) as [[qvec|e] w2]; [|now injection Hrun as -> _].
  destruct (handle QueryResult _ w2) as [[res|e] w3]; [|now injection Hrun as -> _].
  destruct (res_documents res) as [|docs rest_docs]; [now injection Hrun as -> _|].
  destruct (res_metadatas res) as [|metas rest_metas]; [now injection Hrun as -> _|].
  injection Hrun as -> _.
  eexists. split; [reflexivity|].
  rewrite !map_map, !length_map. cbn [passage_text passage_meta].
  split; [apply length_combine|].
  split; [apply map_fst_combine | apply map_snd_combine].
Qed.

End VectorSearch.

(** *** Against the index of a deployment *)

Lemma insert_ranked_perm (score : entry -> Z) (e : entry) (l : list entry) :
  Permutation (insert_ranked score e l) (e :: l).
Proof.
  induction l as [|x l IH]; [reflexivity|].
  cbn [insert_ranked]. destruct (score x <=? score e)%Z; [reflexivity|].
  rewrite IH. apply perm_swap.
Qed.

Lemma insert_ranked_sorted (score : entry -> Z) (e : entry) (l : list entry) :
  StronglySorted (fun a b => (score b <= score a)%Z) l ->
  StronglySorted (fun a b => (score b <= score a)%Z) (insert_ranked score e l).
Proof.
  induction 1 as [|x l Hl IH Hx]; [repeat constructor|].
  cbn [insert_ranked]. destruct (score x <=? score e)%Z eqn:Hxe.
  - apply Z.leb_le in Hxe. constructor; [now constructor|].
    constructor; [exact Hxe|].
    eapply Forall_impl; [|exact Hx]. intros y Hy. cbn in Hy. lia.
  - apply Z.leb_gt in Hxe. constructor; [exact IH|].
    eapply Permutation_Forall; [symmetry; apply insert_ranked_perm|].
    constructor; [lia | exact Hx].
Qed.

(** The ranking holds every entry of the index, nearest first. *)
Lemma nearest_ranked (d : deployment) (q : vector) (idx : index) :
  Permutation (nearest d q idx) idx
  /\ StronglySorted (at_least_as_near d q) (nearest d q idx).
Proof.
  unfold nearest, at_least_as_near. induction idx as [|e idx [IHp IHs]].
  - split; constructor.
  - cbn [fold_right]. split.
    + rewrite insert_ranked_perm. now constructor.
    + now apply (insert_ranked_sorted (fun e => similarity d q (entry_embedding e))).
Qed.

Lemma passages_of_entries (hits : list entry) :
  map (fun dm => mk_passage (fst dm) (snd dm))
      (combine (map entry_document hits) (map entry_metadata hits))
  = map passage_of hits.
Proof. induction hits as [|h hits IH]; [reflexivity|]. simpl. now rewrite IH. Qed.

Lemma faulty_quiet {X : Type} (fault : option exn) (idx : index) (x : X) :
  snd (faulty fault idx (x, idx)) = idx.
Proof. now destruct fault. Qed.

Lemma get_collection_quiet (d : deployment) :
  calls_only (quiet (serve d)) get_collection.
Proof.
  unfold get_collection, call. cbn [bind try_except].
  constructor; [intros w; apply faulty_quiet|].
  intros [u0|e]; [|constructor].
  constructor; [intros w; apply faulty_quiet|].
  intros [u'|e']; [constructor|].
  constructor; [intros w; apply faulty_quiet|].
  intros [u''|e'']; constructor.
Qed.

Lemma get_collection_outcome (d : deployment) (idx : index) :
  outcome (serve d) get_collection idx
  = match collection_error (index_faults d) with
    | Some e => Err e
    | None => Ok tt
    end
  /\ world_after (serve d) get_collection idx = idx.
Proof.
  pose proof (get_collection_run _ (serve d) idx) as Hrun.
  cbn [serve] in Hrun. unfold collection_error, faulty in *.
  destruct (on_client (index_faults d)); [now injection Hrun as -> ->|].
  destruct (on_lookup (index_faults d)); [|now injection Hrun as -> ->].
  destruct (on_create (index_faults d)); now injection Hrun as -> ->.
Qed.

(** C5, as the code has it, against the index collaborator: when the
    collection is at hand, the embedder answers and the query is answered,
    [vector_search] returns the passages of the first five entries of the
    index ranked by non-increasing similarity to the question's embedding:
    at most five, none for an index without entries.  When the collection
    is not to be had (the client does not open, or the lookup and the
    creation both fail), or the embedder or the query fails, it raises
    that error. *)
Theorem vector_search_ranked (d : deployment) (query : str) (idx : index) :
  match collection_error (index_faults d) with
  | Some e => outcome (serve d) (vector_search query) idx = Err e
  | None =>
      match embedder d query with
      | Err e => outcome (serve d) (vector_search query) idx = Err e
      | Ok qvec =>
          match on_query (index_faults d) with
          | Some e => outcome (serve d) (vector_search query) idx = Err e
          | None =>
              exists ranked hits,
                Permutation ranked idx
                /\ StronglySorted (at_least_as_near d qvec) ranked
                /\ hits = firstn 5 ranked
                /\ outcome (serve d) (vector_search query) idx
                   = Ok (map passage_of hits)
                /\ List.length hits <= 5
                /\ (idx = [] -> hits = [])
          end
      end
  end.
Proof.
  pose proof (vector_search_run _ (serve d) query idx) as Hrun.
  destruct (get_collection_outcome d idx) as [Ho Hw]. rewrite Ho, Hw in Hrun.
  destruct (collection_error (index_faults d)); [now injection Hrun as -> _|].
  cbn [serve] in Hrun.
  destruct (embedder d query) as [qvec|e]; [|now injection Hrun as -> _].
  unfold faulty in Hrun.
  destruct (on_query (index_faults d)); [now injection Hrun as -> _|].
  cbn [fst snd query_index map res_documents res_metadatas] in Hrun.
  rewrite passages_of_entries in Hrun. injection Hrun as Hrun _.
  destruct (nearest_ranked d qvec idx) as [Hperm Hsorted].
  exists (nearest d qvec idx), (firstn 5 (nearest d qvec idx)).
  repeat split; try assumption.
  - apply firstn_le_length.
  - intros ->. reflexivity.
Qed.

(** On the sample index the nearer entry comes first, whatever the stored
    order; on an empty index there is no hit. *)
Lemma vector_search_healthy :
  outcome (serve healthy) (vector_search (u "What is aspirin for?"))
          (old_index ++ [ mk_entry (u "8") [3%Z] (u "Aspirin Pain relief")
                                   [(u "name", CStr (u "Aspirin"))] ])
  = Ok [ mk_passage (u "Aspirin Pain relief") [(u "name", CStr (u "Aspirin"))];
         mk_passage (u "Ibuprofen Fever") [(u "name", CStr (u "Ibuprofen"))] ]
  /\ outcome (serve healthy) (vector_search (u "What is aspirin for?")) [] = Ok [].
Proof. split; vm_compute; reflexivity. Qed.

(** C5 as worded fails: with the index out of reach the search raises, it
    does not return an empty sequence. *)
Lemma vector_search_unreachable_raises :
  outcome (serve index_down) (vector_search (u "What is aspirin for?")) old_index
  = Err (u "Could not connect to the vector store")
  /\ outcome (serve index_down) (vector_search (u "What is aspirin for?")) old_index
     <> Ok [].
Proof. split; [vm_compute; reflexivity | vm_compute; discriminate]. Qed.

(* ================================================================= *)
(** ** The assembled context *)

Lemma occurs_refl (s : str) : occurs s s.
Proof. exists 0, [], []. split; [simpl; now rewrite app_nil_r | reflexivity]. Qed.

Lemma occurs_append_l (sub a b : str) : occurs sub a -> occurs sub (a ++ b).
Proof.
  intros (i & pre & post & -> & Hi). exists i, pre, (post ++ b).
  split; [now rewrite !append_assoc | assumption].
Qed.

Lemma occurs_append_r (sub a b : str) : occurs sub b -> occurs sub (a ++ b).
Proof.
  intros (i & pre & post & -> & Hi). exists (List.length (a ++ pre)), (a ++ pre), post.
  split; [now rewrite !append_assoc | reflexivity].
Qed.

Lemma occurs_length (sub s : str) :
  occurs sub s -> List.length sub <= List.length s.
Proof. intros (i & pre & post & -> & _). rewrite !length_app. lia. Qed.

(** Every part of a joined text is found in it, whole. *)
Lemma occurs_join {X : Type} (f : X -> str) (sep : str) (x : X) (l : list X) :
  In x l -> occurs (f x) (join sep (map f l)).
Proof.
  induction l as [|y l IH]; [intros []|].
  intros [-> | Hin].
  - destruct l as [|z l]; [apply occurs_refl|].
    cbn [map join]. apply occurs_append_l, occurs_refl.
  - destruct l as [|z l]; [destruct Hin|].
    change (join sep (map f (y :: z :: l)))
      with (f y ++ sep ++ join sep (map f (z :: l))).
    apply occurs_append_r, occurs_append_r, IH, Hin.
Qed.

Lemma dumps_list_nonempty (level : nat) (x : json) (xs : list json) :
  dumps_at level (JList (x :: xs)) =
  u "[" ++ newline_indent (S level)
  ++ join (u "," ++ newline_indent (S level)) (map (dumps_at (S level)) (x :: xs))
  ++ newline_indent level ++ u "]".
Proof. reflexivity. Qed.

Lemma dumps_obj_nonempty (level : nat) (m : str * json) (ms : list (str * json)) :
  dumps_at level (JObj (m :: ms)) =
  u "{" ++ newline_indent (S level)
  ++ join (u "," ++ newline_indent (S level))
          (map (fun '(k, v) => dumps_str k ++ u ": " ++ dumps_at (S level) v)
               (m :: ms))
  ++ newline_indent level ++ u "}".
Proof. reflexivity. Qed.

Lemma occurs_in_list (level : nat) (x : json) (items : list json) :
  In x items -> occurs (dumps_at (S level) x) (dumps_at level (JList items)).
Proof.
  intros Hin. destruct items as [|y ys]; [destruct Hin|].
  rewrite dumps_list_nonempty.
  apply occurs_append_r, occurs_append_r, occurs_append_l.
  now apply (occurs_join (dumps_at (S level))).
Qed.

Lemma context_dumps (ctx : context) :
  dumps_indent2 (json_of_context ctx) =
  u "{" ++ newline_indent 1
  ++ (dumps_str (u "sql_rows") ++ u ": "
      ++ dumps_at 1 (JList (map json_of_record (sql_rows ctx))))
  ++ (u "," ++ newline_indent 1)
  ++ (dumps_str (u "vector_docs") ++ u ": "
      ++ dumps_at 1 (JList (map json_of_passage (vector_docs ctx))))
  ++ newline_indent 0 ++ u "}".
Proof.
  unfold dumps_indent2, json_of_context. rewrite dumps_obj_nonempty.
  cbn [map join]. now rewrite !append_assoc.
Qed.

Lemma length_escape_char (c : N) : 1 <= List.length (escape_char c).
Proof.
  unfold escape_char, escape_u.
  repeat match goal with
         | |- context [if ?b then _ else _] => destruct b
         end; rewrite ?length_app; simpl; lia.
Qed.

Lemma length_escape (s : str) : List.length s <= List.length (escape s).
Proof.
  induction s as [|c s IH]; simpl; [lia|].
  rewrite length_app. pose proof (length_escape_char c). lia.
Qed.

Lemma length_dumps_str (s : str) :
  List.length s < List.length (dumps_str s).
Proof.
  unfold dumps_str. rewrite !length_app. pose proof (length_escape s).
  simpl. lia.
Qed.

Lemma passage_text_in_dump (level : nat) (p : passage) :
  occurs (dumps_str (passage_text p)) (dumps_at level (json_of_passage p)).
Proof.
  unfold json_of_passage. rewrite dumps_obj_nonempty. cbn [map join].
  apply occurs_append_r, occurs_append_r, occurs_append_l.
  apply occurs_append_l, occurs_append_r, occurs_append_r, occurs_refl.
Qed.

(** C6, as the code has it: the context consists of all the records and
    all the passages it was given, in order; the text sent to the chat
    model contains the serialization of each record and of each passage
    whole; no size bound is applied, the serialized context being longer
    than the text of any passage in it. *)
Theorem context_keeps_everything (question : str) (records : DataFrame)
        (passages : list passage) :
  let ctx := mk_context records passages in
  let sent := dumps_indent2 (json_of_context ctx) in
  answer_hybrid question records passages
  = chat [ mk_message (u "system") ANSWER_SYSTEM;
           mk_message (u "assistant") sent;
           mk_message (u "user") question ]
  /\ sql_rows ctx = records
  /\ vector_docs ctx = passages
  /\ (forall r, In r records -> occurs (dumps_at 2 (json_of_record r)) sent)
  /\ (forall p, In p passages -> occurs (dumps_at 2 (json_of_passage p)) sent)
  /\ (forall p, In p passages ->
                List.length (passage_text p) < serialized_length ctx).
Proof.
  intros ctx sent.
  assert (Hrec : forall r, In r records ->
                           occurs (dumps_at 2 (json_of_record r)) sent).
  { intros r Hr. unfold sent. rewrite context_dumps.
    apply occurs_append_r, occurs_append_r, occurs_append_l, occurs_append_r,
          occurs_append_r.
    apply occurs_in_list. cbn [sql_rows ctx]. now apply in_map. }
  assert (Hpas : forall p, In p passages ->
                           occurs (dumps_at 2 (json_of_passage p)) sent).
  { intros p Hp. unfold sent. rewrite context_dumps.
    apply occurs_append_r, occurs_append_r, occurs_append_r, occurs_append_r,
          occurs_append_l, occurs_append_r, occurs_append_r.
    apply occurs_in_list. cbn [vector_docs ctx]. now apply in_map. }
  repeat split; try assumption.
  intros p Hp. unfold serialized_length. fold sent.
  pose proof (occurs_length _ _ (Hpas p Hp)) as H1.
  pose proof (occurs_length _ _ (passage_text_in_dump 2 p)) as H2.
  pose proof (length_dumps_str (passage_text p)). lia.
Qed.

(** C6 as worded fails: nothing is cut, whatever the bound; here the
    context of two records and one passage takes 388 characters. *)
Lemma context_exceeds_bound :
  serialized_length
    (mk_context sample_rows
                [ mk_passage (u "Ibuprofen Fever") [(u "name", CStr (u "Ibuprofen"))] ])
  = 388
  /\ 100 < serialized_length
             (mk_context sample_rows
                         [ mk_passage (u "Ibuprofen Fever")
                                      [(u "name", CStr (u "Ibuprofen"))] ]).
Proof. split; [vm_compute; reflexivity | vm_compute; lia]. Qed.

(* ================================================================= *)
(** ** The prompt and the context text *)

Lemma chat_prompt_fold (messages : list message) (start : str) :
  fold_left (fun prompt m => prompt ++ role m ++ u ": " ++ content m ++ LF)
            messages start
  = start ++ concat (map (fun m => role m ++ u ": " ++ content m ++ LF) messages).
Proof.
  revert start; induction messages as [|m ms IH]; intros start.
  - simpl. now rewrite app_nil_r.
  - cbn [fold_left map concat]. rewrite IH. now rewrite append_assoc.
Qed.

(** X14: the prompt sent to the chat model is the messages in order, each
    on a line of its own as [role: content], followed by [assistant:]; a
    conversation that goes on starts with the same lines. *)
Theorem chat_prompt_lines (messages more : list message) :
  let line := fun m => role m ++ u ": " ++ content m ++ LF in
  chat_prompt messages = concat (map line messages) ++ u "assistant:"
  /\ startswith (concat (map line messages))
                (chat_prompt (messages ++ more)) = true.
Proof.
  intros line. unfold chat_prompt. rewrite !chat_prompt_fold. cbn [app].
  split; [reflexivity|].
  apply startswith_iff. fold line.
  rewrite map_app, concat_app, append_assoc. eexists. reflexivity.
Qed.

Lemma all_chars_append (ok : N -> bool) (a b : str) :
  all_chars ok (a ++ b) = all_chars ok a && all_chars ok b.
Proof. apply forallb_app. Qed.

Lemma all_chars_join (ok : N -> bool) (sep : str) (parts : list str) :
  all_chars ok sep = true ->
  Forall (fun p => all_chars ok p = true) parts ->
  all_chars ok (join sep parts) = true.
Proof.
  intros Hsep Hparts. induction Hparts as [|p ps Hp Hps IH]; [reflexivity|].
  destruct ps as [|q ps]; [exact Hp|].
  change (join sep (p :: q :: ps)) with (p ++ sep ++ join sep (q :: ps)).
  now rewrite !all_chars_append, Hp, Hsep, IH.
Qed.

Lemma json_char_hex_digit (n : N) : json_char (hex_digit n) = true.
Proof.
  unfold hex_digit. generalize (N.to_nat n) as k. intros k.
  destruct (Nat.lt_ge_cases k 16) as [H|H].
  - do 16 (destruct k as [|k]; [reflexivity|]). lia.
  - rewrite nth_overflow; [reflexivity | exact H].
Qed.

Lemma json_char_escape_u (n : N) : all_chars json_char (escape_u n) = true.
Proof.
  unfold escape_u. rewrite all_chars_append. cbn [all_chars forallb].
  now rewrite !json_char_hex_digit.
Qed.

Lemma json_char_escape_char (c : N) : all_chars json_char (escape_char c) = true.
Proof.
  unfold escape_char.
  repeat match goal with
         | |- context [if ?b then _ else _] => destruct b eqn:?
         end;
    rewrite ?all_chars_append, ?json_char_escape_u; try reflexivity.
  cbn [all_chars forallb]. unfold json_char.
  match goal with H : between 32 126 c = true |- _ => rewrite H end.
  reflexivity.
Qed.

Lemma json_char_dumps_str (s : str) : all_chars json_char (dumps_str s) = true.
Proof.
  unfold dumps_str. rewrite !all_chars_append.
  assert (H : all_chars json_char (escape s) = true).
  { induction s as [|c s IH]; [reflexivity|].
    cbn [escape]. now rewrite all_chars_append, json_char_escape_char, IH. }
  now rewrite H.
Qed.

Lemma json_char_uint (d : Decimal.uint) :
  all_chars json_char (u (NilEmpty.string_of_uint d)) = true.
Proof. induction d; simpl; assumption || reflexivity. Qed.

Lemma json_char_str_of_Z (z : Z) : all_chars json_char (str_of_Z z) = true.
Proof.
  unfold str_of_Z, NilZero.string_of_int, NilZero.string_of_uint.
  destruct (Z.to_int z) as [d|d]; destruct d; simpl;
    try reflexivity; apply json_char_uint.
Qed.

Lemma json_char_newline_indent (level : nat) :
  all_chars json_char (newline_indent level) = true.
Proof.
  unfold newline_indent. rewrite all_chars_append.
  assert (H : forall n, all_chars json_char (spaces n) = true)
    by (induction n; [reflexivity | assumption]).
  now rewrite H.
Qed.

(** Induction on JSON values, through the lists they hold. *)
Lemma json_induction (P : json -> Prop) :
  P JNull ->
  (forall b, P (JBool b)) ->
  (forall z, P (JInt z)) ->
  (forall s, P (JStr s)) ->
  (forall items, Forall P items -> P (JList items)) ->
  (forall members, Forall (fun kv => P (snd kv)) members -> P (JObj members)) ->
  forall j, P j.
Proof.
  intros Hnull Hbool Hint Hstr Hlist Hobj.
  fix IH 1. intros [|b|z|s|items|members].
  - exact Hnull.
  - apply Hbool.
  - apply Hint.
  - apply Hstr.
  - apply Hlist. induction items as [|x xs IHxs]; constructor; [apply IH | exact IHxs].
  - apply Hobj. induction members as [|[k v] ms IHms]; constructor;
      [apply IH | exact IHms].
Qed.

Lemma json_char_dumps (j : json) (level : nat) :
  all_chars json_char (dumps_at level j) = true.
Proof.
  revert level; induction j as [|b|z|s|items Hitems|members Hmembers]
                               using json_induction; intros level.
  - reflexivity.
  - now destruct b.
  - apply json_char_str_of_Z.
  - apply json_char_dumps_str.
  - destruct items as [|x xs]; [reflexivity|].
    rewrite dumps_list_nonempty, !all_chars_append, !json_char_newline_indent.
    rewrite all_chars_join; [reflexivity | |].
    + now rewrite all_chars_append, json_char_newline_indent.
    + apply Forall_map. eapply Forall_impl; [|exact Hitems]. intros j Hj. apply Hj.
  - destruct members as [|m ms]; [reflexivity|].
    rewrite dumps_obj_nonempty, !all_chars_append, !json_char_newline_indent.
    rewrite all_chars_join; [reflexivity | |].
    + now rewrite all_chars_append, json_char_newline_indent.
    + apply Forall_map. eapply Forall_impl; [|exact Hmembers].
      intros [k v] Hv. cbn [snd] in Hv.
      now rewrite !all_chars_append, json_char_dumps_str, Hv.
Qed.

(** X15: the context text handed to the chat model is made of printable
    ASCII characters and line feeds only, whatever characters the rows and
    the passages hold. *)
Theorem context_text_is_ascii (records : DataFrame) (passages : list passage) :
  all_chars json_char
            (dumps_indent2 (json_of_context (mk_context records passages)))
  = true.
Proof. apply json_char_dumps. Qed.

(* ================================================================= *)
(** ** What an observer can see during a run *)

Section Observation.

Variable W : Type.
Variable handle : forall X : Type, event X -> W -> result X * W.

Lemma visited_start {A : Type} (p : prog A) (w : W) : In w (visited handle p w).
Proof.
  induction p as [a|e|line k IH|X ev k IH]; simpl; auto.
Qed.

Lemma reaches_visited {A : Type} (c c' : prog A * W) :
  reaches handle c c' -> In (snd c') (visited handle (fst c) (snd c)).
Proof.
  induction 1 as [[p w]|c1 c2 c3 Hstep _ IH].
  - apply visited_start.
  - destruct Hstep as [line k w|X ev k w]; simpl in *; auto.
Qed.

Lemma visited_reaches {A : Type} (p : prog A) (w w' : W) :
  In w' (visited handle p w) -> observable handle p w w'.
Proof.
  revert w; induction p as [a|e|line k IH|X ev k IH]; intros w; simpl.
  - intros [<-|[]]. eexists. apply reaches_here.
  - intros [<-|[]]. eexists. apply reaches_here.
  - intros Hin. destruct (IH _ Hin) as [p' Hp'].
    exists p'. eapply reaches_step; [apply step_out | exact Hp'].
  - intros [<-|Hin].
    + eexists. apply reaches_here.
    + destruct (IH _ _ Hin) as [p' Hp'].
      exists p'. eapply reaches_step; [apply step_vis | exact Hp'].
Qed.

(** The step relation and the list of visited worlds agree. *)
Lemma observable_iff {A : Type} (p : prog A) (w w' : W) :
  observable handle p w w' <-> In w' (visited handle p w).
Proof.
  split; [|apply visited_reaches].
  intros [p' Hp']. exact (reaches_visited _ _ Hp').
Qed.

Lemma visited_bind {A B : Type} (p : prog A) (f : A -> prog B) (w x : W) :
  In x (visited handle (bind p f) w) <->
  In x (visited handle p w)
  \/ exists a, outcome handle p w = Ok a
               /\ In x (visited handle (f a) (world_after handle p w)).
Proof.
  revert w; induction p as [a|e|line k IH|X ev k IH]; intros w.
  - cbn [bind]. split.
    + intros H. right. now exists a.
    + intros [[<-|[]] | (a' & [= <-] & H)]; [apply visited_start | exact H].
  - cbn [bind]. split; [now left|].
    intros [H | (a & H & _)]; [exact H | discriminate].
  - cbn [bind visited]. rewrite IH, outcome_out, world_after_out. reflexivity.
  - cbn [bind visited]. rewrite outcome_vis, world_after_vis.
    cbv zeta. split.
    + intros [<-|H]; [now left; left|].
      apply IH in H as [H|H]; [left; now right | now right].
    + intros [[<-|H] | H]; [now left | right; apply IH; now left
                            | right; apply IH; now right].
Qed.

(** A program of quiet calls shows one world, and ends in it. *)
Lemma quiet_run {A : Type} (p : prog A) (w : W) :
  calls_only (quiet handle) p ->
  world_after handle p w = w /\ forall x, In x (visited handle p w) -> x = w.
Proof.
  intros Hp; revert w.
  induction Hp as [a|e|line k Hk IH|X ev k Hev Hk IH]; intros w.
  - split; [reflexivity | now intros x [<-|[]]].
  - split; [reflexivity | now intros x [<-|[]]].
  - rewrite world_after_out. apply IH.
  - rewrite world_after_vis. cbn [visited]. cbv zeta. rewrite (Hev w).
    destruct (IH (fst (handle X ev w)) w) as [Hw Hv].
    split; [exact Hw|]. intros x [<-|Hx]; [reflexivity | now apply Hv].
Qed.

End Observation.

(* ================================================================= *)
(** ** Rebuilding the index *)

Lemma embed_all_quiet (d : deployment) (docs : list str) :
  calls_only (quiet (serve d)) (for_each embed docs).
Proof.
  induction docs as [|doc docs IH]; [constructor|].
  cbn [for_each]. apply calls_only_bind.
  - apply calls_only_call. intros w. reflexivity.
  - intros v. apply calls_only_bind; [exact IH | constructor].
Qed.

(** The embeddings of a rebuild are those the embedder gives, one per
    document; one failure fails the lot. *)
Lemma embed_all_outcome (d : deployment) (docs : list str) (idx : index)
      (embeddings : list vector) :
  outcome (serve d) (for_each embed docs) idx = Ok embeddings <->
  Forall2 (fun doc v => embedder d doc = Ok v) docs embeddings.
Proof.
  revert embeddings; induction docs as [|doc docs IH]; intros embeddings.
  - cbn [for_each]. rewrite outcome_ret. split.
    + intros [= <-]. constructor.
    + intros H. inversion H. reflexivity.
  - cbn [for_each]. unfold embed at 1.
    rewrite outcome_bind, outcome_call, world_after_call. cbn [serve fst snd].
    destruct (embedder d doc) as [v|e] eqn:Hdoc.
    + rewrite outcome_bind.
      destruct (outcome (serve d) (for_each embed docs) idx) as [vs|e] eqn:Hrest.
      * rewrite outcome_ret. split.
        -- intros [= <-]. constructor; [exact Hdoc | now apply IH].
        -- intros H. inversion H as [|? v' ? vs' Hv Hvs]; subst.
           apply IH in Hvs. congruence.
      * split; [discriminate|]. intros H.
        inversion H as [|? v' ? vs' Hv Hvs]; subst. apply IH in Hvs. discriminate.
    + split; [discriminate|]. intros H.
      inversion H as [|? v' ? vs' Hv Hvs]; subst. congruence.
Qed.

(** The clear: its error is swallowed, and the index is then as
    [after_clear] says. *)
Lemma clear_run (d : deployment) (idx : index) :
  visited (serve d) (try_except (call ColDelete) (fun _ => Ret tt)) idx
  = [idx; after_clear (index_faults d) idx]
  /\ outcome (serve d) (try_except (call ColDelete) (fun _ => Ret tt)) idx = Ok tt
  /\ world_after (serve d) (try_except (call ColDelete) (fun _ => Ret tt)) idx
     = after_clear (index_faults d) idx.
Proof.
  split; [|split].
  - unfold call, after_clear. cbn [try_except visited serve]. unfold faulty.
    now destruct (on_delete (index_faults d)).
  - rewrite outcome_try_except, outcome_call. cbn [serve]. unfold faulty.
    now destruct (on_delete (index_faults d)).
  - rewrite world_after_try_except, outcome_call, world_after_call. cbn [serve].
    unfold faulty, after_clear. now destruct (on_delete (index_faults d)).
Qed.

Lemma add_run (d : deployment) (idx : index) (docs ids : list str)
      (embeddings : list vector) (metas : list record) :
  visited (serve d)
          (call (ColAdd docs ids embeddings metas) ;; print [u "Vector store built."])
          idx
  = [idx; match on_add (index_faults d) with
          | None => upsert_all idx (zip_entries ids embeddings docs metas)
          | Some _ => idx
          end].
Proof.
  unfold call, print. cbn [bind visited serve]. unfold faulty.
  now destruct (on_add (index_faults d)).
Qed.


(** The contents a rebuild of the sample index goes through when the
    clear works, and when it is refused. *)
Lemma rebuild_sample_visits :
  visited (serve healthy) (build_vector_store sample_rows) old_index
  = [ old_index; old_index; old_index; []; []; [];
      [ mk_entry (u "0") [4%Z; 2%Z]
                 (u "Aspirin Pain relief Blocks prostaglandin synthesis")
                 [(u "name", CStr (u "Aspirin"))];
        mk_entry (u "1") [4%Z; 2%Z]
                 (u "Cetirizine Allergy Blocks histamine receptors")
                 [(u "name", CStr (u "Cetirizine"))] ] ]
  /\ visited (serve delete_refused) (build_vector_store sample_rows) old_index
     = [ old_index; old_index; old_index; old_index; old_index; old_index;
         old_index
         ++ [ mk_entry (u "0") [4%Z; 2%Z]
                       (u "Aspirin Pain relief Blocks prostaglandin synthesis")
                       [(u "name", CStr (u "Aspirin"))];
              mk_entry (u "1") [4%Z; 2%Z]
                       (u "Cetirizine Allergy Blocks histamine receptors")
                       [(u "name", CStr (u "Cetirizine"))] ] ].
Proof. split; vm_compute; reflexivity. Qed.


(* ================================================================= *)
(** * Further properties of the program *)

(** ** The SQL store and the collection handle *)

Section Handles.

Variable W : Type.
Variable handle : forall X : Type, event X -> W -> result X * W.

(** X3: [run_sql] closes the connection once after every query, also when
    the query raised, and never when the connection could not be opened;
    the rows or the error of the query come back unchanged unless closing
    raises, in which case that error is the outcome. *)
Theorem run_sql_closes_connection (sql : str) (w : W) :
  match handle unit (SqliteConnect DB_PATH) w with
  | (Err e, _) =>
      outcome handle (run_sql sql) w = Err e
      /\ log_of handle (run_sql sql) w = [Called (SqliteConnect DB_PATH)]
  | (Ok _, w1) =>
      log_of handle (run_sql sql) w
      = [Called (SqliteConnect DB_PATH); Called (ReadSqlQuery sql); Called ConnClose]
      /\ match handle DataFrame (ReadSqlQuery sql) w1 with
         | (answer, w2) =>
             outcome handle (run_sql sql) w
             = match fst (handle unit ConnClose w2) with
               | Ok _ => answer
               | Err e => Err e
               end
         end
  end.
Proof.
  unfold run_sql.
  rewrite outcome_bind, log_of_bind, outcome_call, world_after_call, log_of_call.
  destruct (handle unit (SqliteConnect DB_PATH) w) as [[u0|e] w1]; cbn [fst snd];
    [|split; reflexivity].
  rewrite outcome_try_finally, log_of_try_finally.
  rewrite !outcome_call, !world_after_call, !log_of_call.
  destruct (handle DataFrame (ReadSqlQuery sql) w1) as [answer w2]; cbn [fst snd].
  split; [reflexivity|].
  now destruct (fst (handle unit ConnClose w2)).
Qed.

(** X4: [get_collection] creates the collection only after the lookup
    failed, and fails only when the client cannot be opened or when both
    the lookup and the creation fail. *)
Theorem get_collection_fallback (w : W) :
  match handle unit (PersistentClient CHROMA_DIR) w with
  | (Err e, _) =>
      outcome handle get_collection w = Err e
      /\ log_of handle get_collection w = [Called (PersistentClient CHROMA_DIR)]
  | (Ok _, w1) =>
      match handle unit (GetCollection CHROMA_COLLECTION) w1 with
      | (Ok _, _) =>
          outcome handle get_collection w = Ok tt
          /\ log_of handle get_collection w
             = [Called (PersistentClient CHROMA_DIR);
                Called (GetCollection CHROMA_COLLECTION)]
      | (Err _, w2) =>
          outcome handle get_collection w
          = fst (handle unit (CreateCollection CHROMA_COLLECTION
                                               [(u "hnsw:space", CStr (u "cosine"))]) w2)
          /\ log_of handle get_collection w
             = [Called (PersistentClient CHROMA_DIR);
                Called (GetCollection CHROMA_COLLECTION);
                Called (CreateCollection CHROMA_COLLECTION
                                         [(u "hnsw:space", CStr (u "cosine"))])]
      end
  end.
Proof.
  unfold get_collection.
  rewrite outcome_bind, log_of_bind, outcome_call, world_after_call, log_of_call.
  destruct (handle unit (PersistentClient CHROMA_DIR) w) as [[u0|e] w1];
    cbn [fst snd]; [|split; reflexivity].
  rewrite outcome_try_except, log_of_try_except.
  rewrite !outcome_call, !world_after_call, !log_of_call.
  destruct (handle unit (GetCollection CHROMA_COLLECTION) w1) as [[[]|e] w2];
    cbn [fst snd]; split; reflexivity.
Qed.

End Handles.

(* ================================================================= *)
(** ** The entries built for the index *)

Lemma to_uint_not_nil (n : nat) : Nat.to_uint n <> Decimal.Nil.
Proof.
  intros H. pose proof (Unsigned.to_of (Nat.to_uint n)) as Hn.
  rewrite Unsigned.of_to, H in Hn. discriminate.
Qed.

(** Decimal notation tells numbers apart. *)
Lemma str_of_nat_inj (n m : nat) : str_of_nat n = str_of_nat m -> n = m.
Proof.
  unfold str_of_nat. intros H. apply u_inj in H. apply Unsigned.to_uint_inj.
  pose proof (NilZero.usu _ (to_uint_not_nil n)) as Hn.
  pose proof (NilZero.usu _ (to_uint_not_nil m)) as Hm.
  rewrite H in Hn. congruence.
Qed.

(** X5: every entry built from the table has a document that is not
    empty, has at most 300 characters and no white space at either end;
    the document is the chunk of a row of the table and the metadata is
    that row's name. *)
Theorem collect_items_chunks (i : nat) (df : DataFrame) :
  Forall (fun it =>
            item_doc it <> []
            /\ List.length (item_doc it) <= 300
            /\ strip (item_doc it) = item_doc it
            /\ exists row, In row df
                           /\ item_doc it = chunk_of row
                           /\ item_meta it = [(u "name", row_get row (u "name"))])
         (collect_items i df).
Proof.
  revert i; induction df as [|row df IH]; intros i; [constructor|].
  cbn [collect_items].
  assert (Hrest : Forall (fun it =>
            item_doc it <> []
            /\ List.length (item_doc it) <= 300
            /\ strip (item_doc it) = item_doc it
            /\ exists r, In r (row :: df)
                         /\ item_doc it = chunk_of r
                         /\ item_meta it = [(u "name", row_get r (u "name"))])
         (collect_items (S i) df)).
  { eapply Forall_impl; [|apply IH].
    intros it (H1 & H2 & H3 & r & Hr & H4). repeat split; try assumption.
    exists r. split; [now right | assumption]. }
  destruct (chunk_of row) as [|c chunk] eqn:Hchunk; [exact Hrest|].
  constructor; [|exact Hrest]. cbn [item_doc item_meta].
  split; [discriminate|]. split; [|split].
  - rewrite <- Hchunk. unfold chunk_of, slice_to.
    etransitivity; [apply length_strip | apply length_take_le].
  - rewrite <- Hchunk. unfold chunk_of. apply strip_idempotent.
  - exists row. split; [now left | split; [now symmetry | reflexivity]].
Qed.

Lemma collect_items_ids (df : DataFrame) (i : nat) (it : item) :
  In it (collect_items i df) ->
  exists k row, i <= k /\ nth_error df (k - i) = Some row
                /\ item_id it = str_of_nat k /\ item_doc it = chunk_of row.
Proof.
  revert i; induction df as [|row df IH]; intros i; [intros []|].
  cbn [collect_items]. intros Hin.
  assert (Hrest : In it (collect_items (S i) df) ->
                  exists k r, i <= k /\ nth_error (row :: df) (k - i) = Some r
                              /\ item_id it = str_of_nat k
                              /\ item_doc it = chunk_of r).
  { intros H. destruct (IH _ H) as (k & r & Hk & Hnth & Hid & Hdoc).
    exists k, r. split; [lia|]. split; [|now split].
    replace (k - i) with (S (k - S i)) by lia. exact Hnth. }
  destruct (chunk_of row) as [|c chunk] eqn:Hchunk; [now apply Hrest|].
  destruct Hin as [<- | Hin]; [|now apply Hrest].
  exists i, row. rewrite Nat.sub_diag. repeat split; [lia | now symmetry].
Qed.

(** X6: the ids of the entries are the decimal positions of their rows in
    the table, so no two entries share an id, and there are no more
    entries than rows. *)
Theorem collect_items_ids_distinct (df : DataFrame) :
  NoDup (map item_id (collect_items 0 df))
  /\ List.length (collect_items 0 df) <= List.length df
  /\ Forall (fun it => exists k row,
                 nth_error df k = Some row
                 /\ item_id it = str_of_nat k
                 /\ item_doc it = chunk_of row)
            (collect_items 0 df).
Proof.
  split; [|split].
  - generalize 0. induction df as [|row df IH]; intros i; [constructor|].
    cbn [collect_items]. destruct (chunk_of row); [apply IH|].
    cbn [map item_id]. constructor; [|apply IH].
    intros Hin. apply in_map_iff in Hin as (it & Hid & Hin).
    apply collect_items_ids in Hin as (k & r & Hk & _ & Hid' & _).
    rewrite Hid' in Hid. apply str_of_nat_inj in Hid. lia.
  - generalize 0. induction df as [|row df IH]; intros i; [simpl; lia|].
    cbn [collect_items]. specialize (IH (S i)).
    destruct (chunk_of row); simpl; lia.
  - apply Forall_forall. intros it Hin.
    apply collect_items_ids in Hin as (k & r & _ & Hnth & Hid & Hdoc).
    rewrite Nat.sub_0_r in Hnth. now exists k, r.
Qed.

(* ================================================================= *)
(** ** Building the vector store *)

Lemma col_adds_app (l1 l2 : list log_entry) :
  col_adds (l1 ++ l2) = col_adds l1 ++ col_adds l2.
Proof.
  induction l1 as [|x l1 IH]; [reflexivity|].
  destruct x as [line|X ev]; simpl; [assumption|].
  destruct ev; simpl; now rewrite ?IH.
Qed.

Lemma col_adds_embedding_calls (docs : list str) :
  col_adds (embedding_calls docs) = [].
Proof. induction docs as [|doc docs IH]; [reflexivity | exact IH]. Qed.

Section Build.

Variable W : Type.
Variable handle : forall X : Type, event X -> W -> result X * W.

(** A program without insertions leaves none in the log. *)
Lemma no_add_log {A : Type} (p : prog A) (w : W) :
  calls_only (fun X ev => col_adds [Called ev] = []) p ->
  col_adds (log_of handle p w) = [].
Proof.
  intros Hp; revert w.
  induction Hp as [a|e|line k Hk IH|X ev k Hev Hk IH]; intros w.
  - reflexivity.
  - reflexivity.
  - rewrite log_of_out. apply IH.
  - rewrite log_of_vis.
    change (Called ev :: ?l) with ([Called ev] ++ l).
    now rewrite col_adds_app, Hev, IH.
Qed.

Lemma get_collection_no_add :
  calls_only (fun X ev => col_adds [Called ev] = []) get_collection.
Proof.
  unfold get_collection. apply calls_only_bind; [now apply calls_only_call|].
  intros _. apply calls_only_try_except; [now apply calls_only_call|].
  intros _. now apply calls_only_call.
Qed.

(** The run of the comprehension [[embed(d) for d in docs]], read off the
    answers of the embedder. *)
Lemma embed_all_run (docs : list str) (w : W) :
  run handle (for_each embed docs) w
  = match embed_answers handle docs w with
    | (embeddings, None, w') => (Ok embeddings, w', embedding_calls docs)
    | (embeddings, Some e, w') =>
        (Err e, w', embedding_calls (firstn (S (List.length embeddings)) docs))
    end
  /\ match embed_answers handle docs w with
     | (embeddings, None, _) => List.length embeddings = List.length docs
     | (embeddings, Some _, _) => List.length embeddings < List.length docs
     end.
Proof.
  revert w; induction docs as [|doc docs IH]; intros w.
  - split; reflexivity.
  - cbn [for_each embed_answers]. unfold embed at 1.
    rewrite run_bind, run_call.
    destruct (handle vector (OllamaEmbeddings MODEL_EMBED doc) w) as [[v|e] w1];
      cbn [fst snd]; [|split; [reflexivity | simpl; lia]].
    destruct (IH w1) as [Hrun Hlen].
    unfold outcome, world_after, log_of. rewrite run_bind, Hrun.
    destruct (embed_answers handle docs w1) as [[vs [e|]] w2]; cbn [fst snd].
    + split; [reflexivity | simpl; lia].
    + rewrite log_of_ret, app_nil_r. split; [reflexivity | simpl; lia].
Qed.

(** X9: the documents are embedded in order, one call each, and the
    embedding stops at the first failure: the calls made are those for the
    documents up to and including the first one on which the embedder
    fails, that error is raised, and the world is the one that call left;
    when no call fails every document has its embedding. *)
Theorem embed_all_log (docs : list str) (w : W) :
  match embed_answers handle docs w with
  | (embeddings, None, w') =>
      run handle (for_each embed docs) w
      = (Ok embeddings, w', embedding_calls docs)
      /\ List.length embeddings = List.length docs
  | (embeddings, Some e, w') =>
      run handle (for_each embed docs) w
      = (Err e, w', embedding_calls (firstn (S (List.length embeddings)) docs))
      /\ List.length embeddings < List.length docs
  end.
Proof.
  destruct (embed_all_run docs w) as [Hrun Hlen].
  destruct (embed_answers handle docs w) as [[vs [e|]] w']; now split.
Qed.

(** The run of a build, read off the answers of the collaborators. *)
Lemma build_vector_store_run (df : DataFrame) (w : W) :
  let items := collect_items 0 df in
  let docs := map item_doc items in
  let started := Printed (print_line [u "Building vector store..."]) in
  run handle (build_vector_store df) w
  = match outcome handle get_collection w with
    | Err e =>
        (Err e, world_after handle get_collection w,
         started :: log_of handle get_collection w)
    | Ok _ =>
        let w1 := world_after handle get_collection w in
        let w2 := snd (handle unit ColDelete w1) in
        match embed_answers handle docs w2 with
        | (embeddings, Some e, w3) =>
            (Err e, w3,
             started :: log_of handle get_collection w
             ++ Called ColDelete
                :: embedding_calls (firstn (S (List.length embeddings)) docs))
        | (embeddings, None, w3) =>
            let add := ColAdd docs (map item_id items) embeddings
                              (map item_meta items) in
            match handle unit add w3 with
            | (Ok _, w4) =>
                (Ok tt, w4,
                 started :: log_of handle get_collection w
                 ++ Called ColDelete :: embedding_calls docs
                 ++ [Called add; Printed (print_line [u "Vector store built."])])
            | (Err e, w4) =>
                (Err e, w4,
                 started :: log_of handle get_collection w
                 ++ Called ColDelete :: embedding_calls docs ++ [Called add])
            end
        end
    end.
Proof.
  intros items docs started. unfold build_vector_store. fold items. fold docs.
  unfold print at 1. cbn [bind]. rewrite run_out. fold started.
  rewrite outcome_bind, world_after_bind, log_of_bind.
  destruct (outcome handle get_collection w) as [u0|e];
    [|now rewrite app_nil_r].
  cbv zeta. set (w1 := world_after handle get_collection w).
  rewrite outcome_bind, world_after_bind, log_of_bind.
  rewrite outcome_try_except, world_after_try_except, log_of_try_except.
  rewrite outcome_call, world_after_call, log_of_call.
  assert (Hclear :
            match fst (handle unit ColDelete w1) with
            | Ok a => Ok a
            | Err e => outcome handle (Ret tt) (snd (handle unit ColDelete w1))
            end = Ok tt
            /\ match fst (handle unit ColDelete w1) with
               | Ok _ => snd (handle unit ColDelete w1)
               | Err e => world_after handle (Ret tt) (snd (handle unit ColDelete w1))
               end = snd (handle unit ColDelete w1)
            /\ [Called ColDelete]
               ++ match fst (handle unit ColDelete w1) with
                  | Ok _ => []
                  | Err e => log_of handle (Ret tt) (snd (handle unit ColDelete w1))
                  end = [Called ColDelete]).
  { destruct (fst (handle unit ColDelete w1)) as [[]|e]; repeat split. }
  destruct Hclear as (-> & -> & ->).
  set (w2 := snd (handle unit ColDelete w1)).
  rewrite outcome_bind, world_after_bind, log_of_bind.
  destruct (embed_all_run docs w2) as [Hrun _].
  rewrite (run_eta _ handle (for_each embed docs) w2) in Hrun.
  destruct (embed_answers handle docs w2) as [[vs [e|]] w3];
    injection Hrun as -> -> ->.
  - rewrite app_nil_r. reflexivity.
  - rewrite outcome_bind, world_after_bind, log_of_bind.
    rewrite outcome_call, world_after_call, log_of_call.
    destruct (handle unit (ColAdd docs (map item_id items) vs (map item_meta items)) w3)
      as [[[]|e] w4]; cbn [fst snd].
    + unfold print. rewrite outcome_out, world_after_out, log_of_out.
      reflexivity.
    + now rewrite !app_nil_r.
Qed.

(** X7: a build hands the index at most one batch, and only after every
    document was embedded: the log of a build that reaches the insertion
    holds the clear, then one embedding call for each document in order,
    then the one insertion, whose batch holds the documents, ids and
    metadata of all the entries built from the table and the embeddings
    that those calls returned, one per document; a build in which the
    collection is not to be had or an embedding fails makes no insertion. *)
Theorem build_vector_store_one_batch (df : DataFrame) (w : W) :
  let items := collect_items 0 df in
  let docs := map item_doc items in
  let log := log_of handle (build_vector_store df) w in
  match outcome handle get_collection w with
  | Err _ => col_adds log = []
  | Ok _ =>
      let w2 := snd (handle unit ColDelete (world_after handle get_collection w)) in
      match embed_answers handle docs w2 with
      | (_, Some _, _) => col_adds log = []
      | (embeddings, None, _) =>
          let add := ColAdd docs (map item_id items) embeddings
                            (map item_meta items) in
          (exists ending,
              log = Printed (print_line [u "Building vector store..."])
                    :: log_of handle get_collection w
                    ++ Called ColDelete :: embedding_calls docs
                    ++ Called add :: ending)
          /\ col_adds log
             = [mk_batch docs (map item_id items) embeddings (map item_meta items)]
          /\ List.length embeddings = List.length docs
      end
  end.
Proof.
  intros items docs log.
  pose proof (build_vector_store_run df w) as Hrun. cbv zeta in Hrun.
  fold items in Hrun. fold docs in Hrun.
  assert (Hlog : log = snd (run handle (build_vector_store df) w)) by reflexivity.
  clearbody log. rewrite Hrun in Hlog. clear Hrun.
  pose proof (no_add_log get_collection w get_collection_no_add) as Hget.
  destruct (outcome handle get_collection w) as [u0|e].
  2:{ cbn [snd] in Hlog. subst log. cbn [col_adds]. exact Hget. }
  cbv zeta.
  destruct (embed_all_run docs
              (snd (handle unit ColDelete (world_after handle get_collection w))))
    as [_ Hlen].
  destruct (embed_answers handle docs _) as [[vs [e|]] w3].
  { cbn [snd] in Hlog. subst log. cbn [col_adds].
    rewrite col_adds_app, Hget. cbn [col_adds app].
    apply col_adds_embedding_calls. }
  destruct (handle unit (ColAdd docs (map item_id items) vs (map item_meta items)) w3)
    as [[[]|e] w4]; cbn [snd] in Hlog; subst log; cbn [col_adds].
  - split; [eexists; reflexivity|]. split; [|exact Hlen].
    rewrite col_adds_app, Hget. cbn [col_adds app].
    rewrite col_adds_app, col_adds_embedding_calls. reflexivity.
  - split; [eexists; reflexivity|]. split; [|exact Hlen].
    rewrite col_adds_app, Hget. cbn [col_adds app].
    rewrite col_adds_app, col_adds_embedding_calls. reflexivity.
Qed.

(** X8: an error of the clear is ignored: the build goes on from the world
    the clear left, whatever it answered.  The outcome of a build is
    decided by the collection lookup, by the embedding of the documents
    and by the insertion; when an embedding fails the error is raised with
    nothing inserted: the build ends in the world that the failing
    embedding call left and its log holds no insertion. *)
Theorem build_vector_store_outcome (df : DataFrame) (w : W) :
  let items := collect_items 0 df in
  let docs := map item_doc items in
  match outcome handle get_collection w with
  | Err e =>
      outcome handle (build_vector_store df) w = Err e
      /\ world_after handle (build_vector_store df) w
         = world_after handle get_collection w
  | Ok _ =>
      let w2 := snd (handle unit ColDelete (world_after handle get_collection w)) in
      match embed_answers handle docs w2 with
      | (_, Some e, w3) =>
          outcome handle (build_vector_store df) w = Err e
          /\ world_after handle (build_vector_store df) w = w3
          /\ col_adds (log_of handle (build_vector_store df) w) = []
      | (embeddings, None, w3) =>
          match handle unit (ColAdd docs (map item_id items) embeddings
                                    (map item_meta items)) w3 with
          | (Ok _, w4) =>
              outcome handle (build_vector_store df) w = Ok tt
              /\ world_after handle (build_vector_store df) w = w4
          | (Err e, w4) =>
              outcome handle (build_vector_store df) w = Err e
              /\ world_after handle (build_vector_store df) w = w4
          end
      end
  end.
Proof.
  intros items docs.
  pose proof (build_vector_store_run df w) as Hrun. cbv zeta in Hrun.
  fold items in Hrun. fold docs in Hrun.
  rewrite (run_eta _ handle (build_vector_store df) w) in Hrun.
  pose proof (no_add_log get_collection w get_collection_no_add) as Hget.
  destruct (outcome handle get_collection w) as [u0|e].
  2:{ injection Hrun as -> -> _. split; reflexivity. }
  cbv zeta.
  destruct (embed_answers handle docs _) as [[vs [e|]] w3].
  - injection Hrun as -> -> ->. repeat split. cbn [col_adds].
    rewrite col_adds_app, Hget. cbn [col_adds app]. apply col_adds_embedding_calls.
  - destruct (handle unit (ColAdd docs (map item_id items) vs (map item_meta items)) w3)
      as [[[]|e] w4]; injection Hrun as -> -> _; split; reflexivity.
Qed.

End Build.

(** A build on the sample table whose second document the embedder
    refuses: two embedding calls, no insertion. *)
Lemma build_stops_at_failed_embedding :
  run (serve embedder_fading) (build_vector_store sample_rows) old_index
  = (Err (u "model not loaded"), [],
     [ Printed (print_line [u "Building vector store..."]);
       Called (PersistentClient CHROMA_DIR);
       Called (GetCollection CHROMA_COLLECTION);
       Called ColDelete;
       Called (OllamaEmbeddings MODEL_EMBED
                 (u "Aspirin Pain relief Blocks prostaglandin synthesis"));
       Called (OllamaEmbeddings MODEL_EMBED
                 (u "Cetirizine Allergy Blocks histamine receptors")) ]).
Proof. vm_compute. reflexivity. Qed.

(* ================================================================= *)
(** ** Call budgets *)

Lemma at_most_mono (kind : forall X : Type, event X -> bool) {A : Type}
      (n m : nat) (p : prog A) :
  n <= m -> at_most kind n p -> at_most kind m p.
Proof.
  intros Hnm Hp; revert m Hnm.
  induction Hp as [n a|n e|n line k Hk IH|n X ev k Hev Hk IH|n X ev k Hk IH];
    intros m Hnm.
  - constructor.
  - constructor.
  - constructor. now apply IH.
  - apply at_most_free; [exact Hev|]. intros r. now apply IH.
  - destruct m as [|m]; [lia|]. apply at_most_paid. intros r. apply IH. lia.
Qed.

Lemma at_most_bind (kind : forall X : Type, event X -> bool) {A B : Type}
      (n m : nat) (p : prog A) (f : A -> prog B) :
  at_most kind n p -> (forall a, at_most kind m (f a)) ->
  at_most kind (n + m) (bind p f).
Proof.
  intros Hp Hf.
  induction Hp as [n a|n e|n line k Hk IH|n X ev k Hev Hk IH|n X ev k Hk IH];
    cbn [bind].
  - apply at_most_mono with (n := m); [lia | apply Hf].
  - constructor.
  - constructor. exact IH.
  - apply at_most_free; [exact Hev | exact IH].
  - apply at_most_paid. exact IH.
Qed.

Lemma at_most_try_except (kind : forall X : Type, event X -> bool) {A : Type}
      (n m : nat) (p : prog A) (h : exn -> prog A) :
  at_most kind n p -> (forall e, at_most kind m (h e)) ->
  at_most kind (n + m) (try_except p h).
Proof.
  intros Hp Hh.
  induction Hp as [n a|n e|n line k Hk IH|n X ev k Hev Hk IH|n X ev k Hk IH];
    cbn [try_except].
  - constructor.
  - apply at_most_mono with (n := m); [lia | apply Hh].
  - constructor. exact IH.
  - apply at_most_free; [exact Hev | exact IH].
  - apply at_most_paid. exact IH.
Qed.

Lemma at_most_try_finally (kind : forall X : Type, event X -> bool) {A : Type}
      (n m : nat) (p : prog A) (fin : prog unit) :
  at_most kind n p -> at_most kind m fin ->
  at_most kind (n + m) (try_finally p fin).
Proof.
  intros Hp Hfin.
  induction Hp as [n a|n e|n line k Hk IH|n X ev k Hev Hk IH|n X ev k Hk IH];
    cbn [try_finally].
  - apply at_most_mono with (n := m + 0); [lia|].
    apply at_most_bind; [exact Hfin | constructor].
  - apply at_most_mono with (n := m + 0); [lia|].
    apply at_most_bind; [exact Hfin | constructor].
  - constructor. exact IH.
  - apply at_most_free; [exact Hev | exact IH].
  - apply at_most_paid. exact IH.
Qed.

Lemma at_most_call_free (kind : forall X : Type, event X -> bool) {X : Type}
      (n : nat) (ev : event X) :
  kind X ev = false -> at_most kind n (call ev).
Proof.
  intros Hk. unfold call. apply at_most_free; [exact Hk|].
  intros [x|e]; constructor.
Qed.

Lemma at_most_call_paid (kind : forall X : Type, event X -> bool) {X : Type}
      (n : nat) (ev : event X) :
  at_most kind (S n) (call ev).
Proof. unfold call. apply at_most_paid. intros [x|e]; constructor. Qed.

Section Budgets.

Variable W : Type.
Variable handle : forall X : Type, event X -> W -> result X * W.

(** A budget on the program is a bound on every log. *)
Lemma at_most_log (kind : forall X : Type, event X -> bool) {A : Type}
      (n : nat) (p : prog A) (w : W) :
  at_most kind n p -> count_calls kind (log_of handle p w) <= n.
Proof.
  intros Hp; revert w.
  induction Hp as [n a|n e|n line k Hk IH|n X ev k Hev Hk IH|n X ev k Hk IH];
    intros w.
  - cbn. lia.
  - cbn. lia.
  - rewrite log_of_out. cbn [count_calls]. apply IH.
  - rewrite log_of_vis. cbn [count_calls]. rewrite Hev.
    specialize (IH (fst (handle X ev w)) (snd (handle X ev w))).
    cbn [Nat.add]. exact IH.
  - rewrite log_of_vis. cbn [count_calls].
    specialize (IH (fst (handle X ev w)) (snd (handle X ev w))).
    destruct (kind X ev); cbn [Nat.add]; [now apply le_n_S | now apply Nat.le_le_succ_r].
Qed.

End Budgets.

(** Settles a budget for a program of this file and a concrete kind of
    call, trying for each step to spend nothing first. *)
Ltac budget :=
  cbv zeta;
  lazymatch goal with
  | |- at_most _ _ (Ret _) => constructor
  | |- at_most _ _ (Raise _) => constructor
  | |- at_most _ _ (Out _ _) => apply at_most_out; budget
  | |- at_most _ _ (call _) =>
      first [ apply at_most_call_free; reflexivity | apply at_most_call_paid ]
  | |- at_most ?k ?n (bind _ _) =>
      first [ solve [ apply (at_most_bind k 0 n); [budget | intros; budget] ]
            | lazymatch n with
              | S ?m =>
                  first [ solve [ apply (at_most_bind k 1 m);
                                  [budget | intros; budget] ]
                        | solve [ apply (at_most_bind k n 0);
                                  [budget | intros; budget] ] ]
              end ]
  | |- at_most ?k ?n (try_except _ _) =>
      first [ solve [ apply (at_most_try_except k 0 n); [budget | intros; budget] ]
            | lazymatch n with
              | S ?m =>
                  solve [ apply (at_most_try_except k 1 m);
                          [budget | intros; budget] ]
              end ]
  | |- at_most ?k ?n (try_finally _ _) =>
      first [ solve [ apply (at_most_try_finally k 0 n); [budget | budget] ]
            | lazymatch n with
              | S ?m =>
                  solve [ apply (at_most_try_finally k 1 m); [budget | budget] ]
              end ]
  | |- at_most _ _ (match ?x with _ => _ end) => destruct x; budget
  | |- at_most _ _ (print _) => unfold print; budget
  | |- at_most _ _ (index0 _) => unfold index0; budget
  | |- at_most _ _ get_collection => unfold get_collection; budget
  | |- at_most _ _ (embed _) => unfold embed; budget
  | |- at_most _ _ (chat _) => unfold chat; budget
  | |- at_most _ _ (run_sql _) => unfold run_sql; budget
  | |- at_most _ _ (generate_sql _) => unfold generate_sql; budget
  | |- at_most _ _ (vector_search _) => unfold vector_search; budget
  | |- at_most _ _ (answer_hybrid _ _ _) => unfold answer_hybrid; budget
  | |- at_most _ _ (ask_mid _) => unfold ask_mid; budget
  end.

Section AskMidBudget.

Variable W : Type.
Variable handle : forall X : Type, event X -> W -> result X * W.

(** X10: answering a question never deletes from the index and never adds
    to it, whatever the collaborators answer. *)
Theorem ask_mid_never_writes_index (question : str) (w : W) :
  count_calls is_index_write (log_of handle (ask_mid question) w) = 0.
Proof.
  pose proof (at_most_log _ handle is_index_write 0 (ask_mid question) w) as H.
  assert (Hb : at_most is_index_write 0 (ask_mid question)) by budget.
  specialize (H Hb). now apply Nat.le_0_r in H.
Qed.

(** X11: no stage of an answer is tried twice: in any run, [ask_mid]
    calls the chat model at most twice (once for the query, once for the
    answer), the embedder at most once and the index query at most once. *)
Theorem ask_mid_call_budget (question : str) (w : W) :
  count_calls is_generate (log_of handle (ask_mid question) w) <= 2
  /\ count_calls is_embedding (log_of handle (ask_mid question) w) <= 1
  /\ count_calls is_index_query (log_of handle (ask_mid question) w) <= 1.
Proof.
  split; [|split]; apply at_most_log; budget.
Qed.

End AskMidBudget.

(** The budgets are reached on a deployment where every stage succeeds. *)
Lemma ask_mid_call_budget_reached :
  count_calls is_generate
              (log_of (serve healthy) (ask_mid (u "What is aspirin for?")) old_index)
  = 2
  /\ count_calls is_embedding
                 (log_of (serve healthy) (ask_mid (u "What is aspirin for?")) old_index)
     = 1
  /\ count_calls is_index_query
                 (log_of (serve healthy) (ask_mid (u "What is aspirin for?")) old_index)
     = 1
  /\ sql_sent (log_of (serve healthy) (ask_mid (u "What is aspirin for?")) old_index)
     = [u "SELECT name FROM mid_drugs WHERE name LIKE '%Aspirin%' LIMIT 10;"].
Proof. repeat split; vm_compute; reflexivity. Qed.

(* ================================================================= *)
(** ** Column names of the loaded table *)

Lemma all_chars_remove_char (ok : N -> bool) (c : N) (s : str) :
  all_chars ok s = true -> all_chars ok (remove_char c s) = true.
Proof.
  induction s as [|x s IH]; [reflexivity|]. simpl.
  intros H. apply andb_true_iff in H as [Hx Hs].
  destruct (x =? c)%N; [now apply IH|]. simpl. now rewrite Hx, IH.
Qed.

Lemma remove_char_gone (c : N) (s : str) :
  all_chars (fun x => negb (x =? c)%N) (remove_char c s) = true.
Proof.
  induction s as [|x s IH]; [reflexivity|]. simpl.
  destruct (x =? c)%N eqn:Hx; [exact IH|]. simpl. now rewrite Hx, IH.
Qed.

Lemma remove_char_idempotent (c : N) (s : str) :
  remove_char c (remove_char c s) = remove_char c s.
Proof.
  induction s as [|x s IH]; [reflexivity|]. simpl.
  destruct (x =? c)%N eqn:Hx; [exact IH|]. simpl. now rewrite Hx, IH.
Qed.

Lemma in_run_member (c : N) (r : N * N * N * N) :
  in_run c r = true -> In c (run_members r).
Proof.
  destruct r as [[[first last] step] image]. unfold in_run, run_members.
  intros H. nbool H. destruct H as [[Hlo Hhi] Hmod].
  apply in_map_iff. exists (N.to_nat ((c - first) / step)). split.
  - rewrite N2Nat.id.
    destruct (N.eq_dec step 0) as [-> | Hstep].
    + rewrite N.mod_0_r in Hmod. lia.
    + pose proof (N.div_mod (c - first) step Hstep) as Hdm.
      rewrite Hmod in Hdm. set (q := ((c - first) / step)%N) in *. lia.
  - apply in_seq. split; [apply Nat.le_0_l|].
    assert (Hq : ((c - first) / step <= (last - first) / step)%N)
      by (apply N.Div0.div_le_mono; lia).
    set (q := ((c - first) / step)%N) in *.
    set (q' := ((last - first) / step)%N) in *. lia.
Qed.

(** A lower-case form stays as it is when lower-cased again. *)
Lemma lower_one_fixed (c : N) :
  (c =? 304)%N = false -> lower_cp (lower_one c) = [lower_one c].
Proof.
  intros H304.
  assert (Hall : forallb (fun r => forallb (fun c => str_eqb (lower_cp (lower_one c))
                                                             [lower_one c])
                                           (run_members r))
                         lower_runs = true) by (vm_compute; reflexivity).
  rewrite forallb_forall in Hall.
  destruct (List.find (in_run c) lower_runs) as [r|] eqn:Hf.
  - apply find_some in Hf as [Hin Hrun].
    specialize (Hall _ Hin). rewrite forallb_forall in Hall.
    apply str_eqb_eq. apply (Hall c). now apply in_run_member.
  - assert (Hc : lower_one c = c) by (unfold lower_one; now rewrite Hf).
    rewrite Hc. unfold lower_cp. now rewrite H304, Hc.
Qed.

Lemma is_upper_lowered (s l : str) :
  lowered s l -> all_chars (fun x => negb (is_upper x)) l = true.
Proof.
  induction 1 as [|c s img l Himg Hl IH]; [reflexivity|].
  rewrite all_chars_append, IH, andb_true_r.
  destruct Himg as [-> | [_ ->]]; [|vm_compute; reflexivity].
  unfold lower_cp at 1. destruct (c =? 304)%N eqn:H304; [vm_compute; reflexivity|].
  cbn [all_chars forallb]. unfold is_upper.
  now rewrite (lower_one_fixed c H304), str_eqb_refl.
Qed.

Lemma all_chars_and (p q : N -> bool) (s : str) :
  all_chars (fun x => p x && q x) s = all_chars p s && all_chars q s.
Proof.
  unfold all_chars. induction s as [|x s IH]; [reflexivity|]. cbn [forallb].
  rewrite IH.
  destruct (p x), (q x), (forallb p s), (forallb q s); reflexivity.
Qed.

(** X16: a normalized column name holds no underscore, no space and no
    upper-case letter. *)
Theorem normalize_column_clean (c : str) :
  all_chars (fun x => negb (x =? 95)%N && negb (x =? 32)%N && negb (is_upper x))
            (normalize_column c) = true.
Proof.
  unfold normalize_column. rewrite !all_chars_and.
  rewrite remove_char_gone.
  rewrite (all_chars_remove_char _ 95%N) by apply remove_char_gone.
  rewrite (all_chars_remove_char _ 95%N);
    [reflexivity | apply all_chars_remove_char].
  apply (is_upper_lowered (strip c)), lower_lowered.
Qed.

Lemma dict_get_set_same (k v : str) (d : dict) :
  dict_get k (dict_set k v d) = Some v.
Proof.
  induction d as [|[k' v'] d IH]; simpl; [now rewrite str_eqb_refl|].
  destruct (str_eqb k' k) eqn:Hk; simpl; [now rewrite str_eqb_refl|].
  now rewrite Hk.
Qed.

Lemma dict_get_set_other (k k' v : str) (d : dict) :
  k' <> k -> dict_get k (dict_set k' v d) = dict_get k d.
Proof.
  intros Hne. apply str_eqb_neq in Hne.
  induction d as [|[k0 v0] d IH]; simpl; [now rewrite Hne|].
  destruct (str_eqb k0 k') eqn:Hk0; simpl.
  - apply str_eqb_eq in Hk0 as ->. now rewrite Hne.
  - now rewrite IH.
Qed.

Lemma last_match_snoc (E : list str) (e col : str) :
  last_match (E ++ [e]) col
  = if str_eqb col (remove_char 95 e) then Some e else last_match E col.
Proof. unfold last_match. now rewrite fold_left_app. Qed.

Lemma map_column_get (E : list str) (m : dict) (col k : str) :
  dict_get k (map_column E m col)
  = if str_eqb col k
    then match last_match E col with
         | Some e => Some e
         | None => dict_get k m
         end
    else dict_get k m.
Proof.
  induction E as [|e E IH] using rev_ind.
  - cbn. now destruct (str_eqb col k).
  - unfold map_column. rewrite fold_left_app. fold (map_column E m col).
    rewrite last_match_snoc. cbn [fold_left].
    destruct (str_eqb col (remove_char 95 e)) eqn:He; [|exact IH].
    destruct (str_eqb col k) eqn:Hk.
    + apply str_eqb_eq in Hk as <-. apply dict_get_set_same.
    + rewrite dict_get_set_other; [exact IH | now apply str_eqb_neq].
Qed.

Lemma build_col_map_get (columns : list str) (k : str) :
  dict_get k (build_col_map columns)
  = if existsb (str_eqb k) columns then last_match EXPECTED_COLUMNS k else None.
Proof.
  induction columns as [|col columns IH] using rev_ind; [reflexivity|].
  unfold build_col_map. rewrite fold_left_app. fold (build_col_map columns).
  cbn [fold_left]. rewrite map_column_get, IH, existsb_app. cbn [existsb].
  rewrite orb_false_r, (str_eqb_sym k col).
  destruct (str_eqb col k) eqn:Hk.
  - apply str_eqb_eq in Hk as ->. rewrite orb_true_r.
    destruct (last_match EXPECTED_COLUMNS k); [reflexivity|].
    now destruct (existsb (str_eqb k) columns).
  - now rewrite orb_false_r.
Qed.

Lemma last_match_sound (E : list str) (col e : str) :
  last_match E col = Some e -> In e E /\ col = remove_char 95 e.
Proof.
  induction E as [|x E IH] using rev_ind; [discriminate|].
  rewrite last_match_snoc.
  destruct (str_eqb col (remove_char 95 x)) eqn:Hx.
  - intros [= <-]. split; [apply in_or_app; right; now left|].
    now apply str_eqb_eq.
  - intros H. destruct (IH H) as [Hin Hcol]. split; [|exact Hcol].
    apply in_or_app. now left.
Qed.

(** No two expected names fall together when underscores are dropped. *)
Lemma last_match_expected (e : str) :
  In e EXPECTED_COLUMNS ->
  last_match EXPECTED_COLUMNS (remove_char 95 e) = Some e.
Proof.
  unfold EXPECTED_COLUMNS. cbn [In map].
  intros H. repeat (destruct H as [<- | H]; [vm_compute; reflexivity|]). destruct H.
Qed.

Lemma existsb_eqb_In (x : str) (l : list str) :
  existsb (str_eqb x) l = true <-> In x l.
Proof.
  rewrite existsb_exists. split.
  - intros (y & Hy & Heq). apply str_eqb_eq in Heq. now subst.
  - intros H. exists x. split; [exact H | apply str_eqb_refl].
Qed.

Lemma expected_columns_distinct : NoDup EXPECTED_COLUMNS.
Proof.
  unfold EXPECTED_COLUMNS. cbn [map].
  repeat (constructor; [cbn [In]; intros H;
                        repeat (destruct H as [H|H];
                                [apply u_inj in H; discriminate|]);
                        destruct H|]).
  constructor.
Qed.

Lemma filter_eqb_repeat (l : str) (columns : list str) :
  filter (str_eqb l) columns
  = repeat l (List.length (filter (str_eqb l) columns)).
Proof.
  induction columns as [|c columns IH]; [reflexivity|].
  cbn [filter]. destruct (str_eqb l c) eqn:Hc; [|exact IH].
  apply str_eqb_eq in Hc as <-. cbn [List.length repeat]. now rewrite <- IH.
Qed.

Lemma flat_map_filter_empty {X Y : Type} (f : X -> list Y) (keep : X -> bool)
      (l : list X) :
  (forall x, In x l -> keep x = false -> f x = []) ->
  flat_map f (filter keep l) = flat_map f l.
Proof.
  induction l as [|x l IH]; intros H; [reflexivity|].
  cbn [filter flat_map]. destruct (keep x) eqn:Hk.
  - cbn [flat_map]. rewrite IH; [reflexivity|]. intros y Hy. apply H. now right.
  - rewrite (H x (or_introl eq_refl) Hk). rewrite IH; [reflexivity|].
    intros y Hy. apply H. now right.
Qed.

Lemma flat_map_agree {X Y : Type} (f g : X -> list Y) (l : list X) :
  (forall x, In x l -> f x = g x) -> flat_map f l = flat_map g l.
Proof.
  induction l as [|x l IH]; intros H; [reflexivity|].
  cbn [flat_map]. rewrite (H x (or_introl eq_refl)), IH; [reflexivity|].
  intros y Hy. apply H. now right.
Qed.

Lemma renamed_label (headers : list str) (h e : str) :
  In h headers -> In e EXPECTED_COLUMNS ->
  let columns := map normalize_column headers in
  str_eqb e (match dict_get (normalize_column h) (build_col_map columns) with
             | Some e' => e'
             | None => normalize_column h
             end)
  = str_eqb (normalize_column h) (remove_char 95 e).
Proof.
  intros Hh He columns. rewrite build_col_map_get.
  assert (Hex : existsb (str_eqb (normalize_column h)) columns = true)
    by (apply existsb_eqb_In, in_map; exact Hh).
  rewrite Hex.
  destruct (str_eqb (normalize_column h) (remove_char 95 e)) eqn:Hn.
  - apply str_eqb_eq in Hn. rewrite Hn, (last_match_expected e He).
    apply str_eqb_refl.
  - apply str_eqb_neq. intros Heq. apply str_eqb_neq in Hn. apply Hn.
    destruct (last_match EXPECTED_COLUMNS (normalize_column h)) as [e'|] eqn:Hm.
    + subst e'. now apply last_match_sound in Hm.
    + exfalso. rewrite <- Heq in Hm.
      assert (Hclean : remove_char 95 e = e).
      { rewrite Heq. unfold normalize_column. apply remove_char_idempotent. }
      rewrite <- Hclean in Hm. rewrite (last_match_expected e He) in Hm.
      discriminate.
Qed.

Lemma length_filter_map_ext {X Y : Type} (f : X -> Y) (p : Y -> bool) (q : X -> bool)
      (l : list X) :
  (forall x, In x l -> p (f x) = q x) ->
  List.length (filter p (map f l)) = List.length (filter q l).
Proof.
  induction l as [|x l IH]; intros H; [reflexivity|].
  cbn [map filter]. rewrite (H x (or_introl eq_refl)).
  destruct (q x); cbn [List.length]; rewrite IH; auto; intros y Hy; apply H; now right.
Qed.

Lemma loaded_columns_runs (headers : list str) :
  loaded_columns headers
  = flat_map (fun e => repeat e (headers_naming headers e)) EXPECTED_COLUMNS.
Proof.
  unfold loaded_columns, select_columns, kept_columns. cbv zeta.
  set (columns := map normalize_column headers).
  set (renamed := rename_columns (build_col_map columns) columns).
  rewrite flat_map_filter_empty.
  2:{ intros e _ Hno. destruct (filter (str_eqb e) renamed) as [|c rest] eqn:Hf;
        [reflexivity|].
      assert (Hin : In c (filter (str_eqb e) renamed)) by (rewrite Hf; now left).
      apply filter_In in Hin as [Hin Heq]. apply str_eqb_eq in Heq as <-.
      apply existsb_eqb_In in Hin. congruence. }
  apply flat_map_agree. intros e He.
  rewrite filter_eqb_repeat. f_equal.
  unfold renamed, rename_columns, columns. rewrite map_map.
  unfold headers_naming. apply length_filter_map_ext.
  intros h Hh. now apply renamed_label.
Qed.

Lemma NoDup_repeat_runs (E : list str) (n : str -> nat) :
  NoDup E ->
  NoDup (flat_map (fun e => repeat e (n e)) E) <-> forall e, In e E -> n e <= 1.
Proof.
  induction 1 as [|x E Hx HE IH]; cbn [flat_map].
  - split; [intros _ e [] | constructor].
  - assert (Hnot : ~ In x (flat_map (fun e => repeat e (n e)) E)).
    { intros Hin. apply in_flat_map in Hin as (e & He & Hin).
      apply repeat_spec in Hin. now subst. }
    split.
    + intros Hnd e [<- | He].
      * destruct (n x) as [|[|k]]; [lia | lia|].
        cbn [repeat app] in Hnd. inversion Hnd as [|? ? Hn _]; subst.
        exfalso. apply Hn. now left.
      * apply NoDup_app_remove_l in Hnd. now apply IH.
    + intros Hle. pose proof (Hle x (or_introl eq_refl)) as Hx1.
      assert (Hrest : NoDup (flat_map (fun e => repeat e (n e)) E))
        by (apply IH; intros e He; apply Hle; now right).
      destruct (n x) as [|[|k]]; [exact Hrest | | lia].
      cbn [repeat app]. now constructor.
Qed.

(** X17: the frame handed to [to_sql] carries the expected columns in the
    order of [EXPECTED_COLUMNS], each as many times as headers of the
    sheet name it once white space at the ends, letter case, spaces and
    underscores are set aside, and nothing else; so its labels are
    distinct exactly when no two headers name the same expected column. *)
Theorem loaded_columns_spec (headers : list str) :
  loaded_columns headers
  = flat_map (fun e => repeat e (headers_naming headers e)) EXPECTED_COLUMNS
  /\ (forall e, In e (loaded_columns headers) <->
                In e EXPECTED_COLUMNS
                /\ exists h, In h headers
                             /\ normalize_column h = remove_char 95 e)
  /\ (NoDup (loaded_columns headers) <->
      forall e, In e EXPECTED_COLUMNS -> headers_naming headers e <= 1).
Proof.
  split; [apply loaded_columns_runs|]. split.
  - intros e. rewrite loaded_columns_runs, in_flat_map. split.
    + intros (e' & He' & Hin). apply repeat_spec in Hin as Heq. subst e'.
      split; [exact He'|].
      unfold headers_naming in Hin.
      destruct (filter _ headers) as [|h rest] eqn:Hf; [destruct Hin|].
      assert (Hh : In h (filter (fun h => str_eqb (normalize_column h)
                                                  (remove_char 95 e)) headers))
        by (rewrite Hf; now left).
      apply filter_In in Hh as [Hh Heq]. exists h. split; [exact Hh|].
      now apply str_eqb_eq.
    + intros [He (h & Hh & Hn)]. exists e. split; [exact He|].
      unfold headers_naming.
      assert (Hh' : In h (filter (fun h => str_eqb (normalize_column h)
                                                   (remove_char 95 e)) headers))
        by (apply filter_In; split; [exact Hh | now apply str_eqb_eq]).
      destruct (filter _ headers) as [|h0 rest]; [destruct Hh' | now left].
  - rewrite loaded_columns_runs.
    apply NoDup_repeat_runs, expected_columns_distinct.
Qed.

(** Headers in other spellings arrive under the expected names, and a
    header the schema does not know is dropped; two headers that name the
    same column give that label twice. *)
Lemma loaded_columns_sample :
  loaded_columns (map u [" Name"; "Price"; "Chemical Class"; "HABIT_FORMING";
                         "How Works "])
  = map u ["name"; "howworks"; "chemical_class"; "habit_forming"]
  /\ loaded_columns (map u ["Name"; "name "; "Link"]) = map u ["name"; "name"; "link"].
Proof. split; vm_compute; reflexivity. Qed.

(* ================================================================= *)
(** ** The main loop *)

Section MainLoop.

Variable W : Type.
Variable handle : forall X : Type, event X -> W -> result X * W.

(** X19: the loop ends at a line that reads [exit] or [quit], white space
    around it and letter case aside: it returns at once, without a call
    and without printing anything after the prompt, and what follows that
    line on standard input is never read and changes nothing. *)
Theorem main_loop_stops_at_exit (before after : list str) (stop : str) (w : W) :
  is_exit (strip stop) = true ->
  run handle (main_loop (stop :: after)) w = (Ok tt, w, [Printed (u "You: ")])
  /\ main_loop (before ++ stop :: after) = main_loop (before ++ [stop]).
Proof.
  intros Hstop. split.
  - cbn [main_loop]. cbv zeta. rewrite Hstop. reflexivity.
  - induction before as [|line before IH].
    + cbn [app main_loop]. cbv zeta. now rewrite Hstop.
    + cbn [app main_loop]. cbv zeta. now rewrite IH.
Qed.

(** X20: the loop has no handler of its own: when [ask_mid] raises for a
    question, the loop ends with that error, and no later line is read. *)
Theorem main_loop_error_ends_loop (line : str) (rest : list str)
        (e : exn) (w : W) :
  is_exit (strip line) = false ->
  outcome handle (ask_mid (strip line)) w = Err e ->
  outcome handle (main_loop (line :: rest)) w = Err e
  /\ log_of handle (main_loop (line :: rest)) w
     = Printed (u "You: ") :: log_of handle (ask_mid (strip line)) w.
Proof.
  intros Hline Hask. cbn [main_loop]. cbv zeta. rewrite Hline.
  rewrite outcome_out, log_of_out, outcome_bind, log_of_bind, Hask.
  now rewrite app_nil_r.
Qed.

(** X23: a line that is neither [exit] nor [quit] is trimmed and handed to
    [ask_mid]; when that returns, the answer and a rule of sixty [=] are
    printed, and the loop goes on with the next line from the world
    [ask_mid] left.  When standard input is at its end, the prompt is
    printed and [EOFError] is raised. *)
Theorem main_loop_answers_line (line : str) (rest : list str) (answer : str)
        (w w1 : W) (l1 : list log_entry) :
  is_exit (strip line) = false ->
  run handle (ask_mid (strip line)) w = (Ok answer, w1, l1) ->
  run handle (main_loop (line :: rest)) w
  = (outcome handle (main_loop rest) w1, world_after handle (main_loop rest) w1,
     Printed (u "You: ") :: l1
     ++ Printed (print_line [LF ++ u "Assistant:"; answer])
        :: Printed (print_line [LF ++ repeat_string (u "=") 60 ++ LF])
        :: log_of handle (main_loop rest) w1)
  /\ run handle (main_loop []) w
     = (Err (u "EOF when reading a line"), w, [Printed (u "You: ")]).
Proof.
  intros Hline Hask. split; [|reflexivity].
  cbn [main_loop]. cbv zeta. rewrite Hline. rewrite run_out.
  rewrite outcome_bind, world_after_bind, log_of_bind.
  rewrite run_eta in Hask. injection Hask as -> -> ->.
  rewrite !outcome_print_then, !world_after_print_then, !log_of_print_then.
  reflexivity.
Qed.

End MainLoop.

Lemma main_loop_stops_at_exit_witness :
  run (serve healthy)
      (main_loop [u "  QUIT "; u "What is cetirizine for?"]) old_index
  = (Ok tt, old_index, [Printed (u "You: ")])
  /\ main_loop [u "What is aspirin for?"; u "  QUIT "; u "What is cetirizine for?"]
     = main_loop [u "What is aspirin for?"; u "  QUIT "].
Proof.
  apply (main_loop_stops_at_exit index (serve healthy) [u "What is aspirin for?"]
                                 [u "What is cetirizine for?"] (u "  QUIT ")
                                 old_index).
  vm_compute. reflexivity.
Defined.

Lemma main_loop_error_ends_loop_witness :
  outcome (serve chat_down)
          (main_loop [u "What is aspirin for?"; u "What is cetirizine for?"])
          old_index
  = Err (u "Connection refused")
  /\ log_of (serve chat_down)
            (main_loop [u "What is aspirin for?"; u "What is cetirizine for?"])
            old_index
     = Printed (u "You: ")
       :: log_of (serve chat_down) (ask_mid (strip (u "What is aspirin for?")))
                 old_index.
Proof.
  apply (main_loop_error_ends_loop index (serve chat_down)
           (u "What is aspirin for?") [u "What is cetirizine for?"]
           (u "Connection refused") old_index); vm_compute; reflexivity.
Defined.

Lemma main_loop_answers_line_witness :
  run (serve healthy) (main_loop [u " What is aspirin for? "; u "exit"]) old_index
  = (Ok tt, old_index,
     Printed (u "You: ")
     :: log_of (serve healthy) (ask_mid (u "What is aspirin for?")) old_index
     ++ [ Printed (print_line [LF ++ u "Assistant:";
                               u "Aspirin is used for pain relief."]);
          Printed (print_line [LF ++ repeat_string (u "=") 60 ++ LF]);
          Printed (u "You: ") ])
  /\ run (serve healthy) (main_loop []) old_index
     = (Err (u "EOF when reading a line"), old_index, [Printed (u "You: ")]).
Proof.
  apply (main_loop_answers_line index (serve healthy)
           (u " What is aspirin for? ") [u "exit"]
           (u "Aspirin is used for pain relief.") old_index old_index
           (log_of (serve healthy) (ask_mid (u "What is aspirin for?")) old_index));
    vm_compute; reflexivity.
Defined.

